(** * Layer-group slicing utilities of tpu-mlir (LayerGroupUtil.cpp)

    A shallow embedding of the local-memory layer-group scheduler: the
    split-factor ceiling, the exact output partition, the backward slice
    propagator, the buffer accountant and the split-search driver.

    Conventions.  [int64_t] values are integers of [Z]: the quantities
    below are tensor extents, indices and byte counts, which stay far
    within the range of the type.  Where a product of an extent the
    type can hold can leave that range (the guard [check_hsecs]), the
    wrap-around of two's complement arithmetic is written out
    ([wrap_int64]).  C++
    [/] and [%] on [int64_t] truncate towards zero: they are [Z.quot]
    (written [÷]) and [Z.rem]; a division by zero is undefined and is
    modelled as such where the divisor is not a constant.  MLIR values
    and operations are opaque handles ([nat]); everything the scheduler
    asks of them (defining operation, operands, users, shapes, the
    [LocalGenInterface] callbacks) goes through the record [Ir]. *)

From Stdlib Require Import ZArith Lia List Bool.
From stdpp Require Import base decidable option numbers list gmap.

#[local] Open Scope Z_scope.

(** ** Slice windows *)

(** [slice_pair_t]: (start index, length). *)
Definition slice_pair_t : Type := Z * Z.

(** [slice_info_t]: the ordered pairs of the batch and the height
    dimension. *)
Record slice_info_t : Type := mk_slice_info {
  si_n : list slice_pair_t;
  si_h : list slice_pair_t
}.

(** A default-constructed [slice_info_t]. *)
Definition empty_slice_info : slice_info_t := mk_slice_info [] [].

(** [shape_secs_t]. *)
Record shape_secs_t : Type := mk_shape_secs {
  nsecs : Z;
  hsecs : Z
}.

#[global] Instance slice_info_eq_dec : EqDecision slice_info_t.
Proof. solve_decision. Defined.

#[global] Instance shape_secs_eq_dec : EqDecision shape_secs_t.
Proof. solve_decision. Defined.

(** ** Arithmetic helpers of MathUtils.h *)

(** Modelled from the spec: [ceiling_func] lives in
    tpu_mlir/Support/MathUtils.h, which is not part of the sources at
    hand; the spec calls it ceiling-division, which on [int64_t] is
    [(numerator + denominator - 1) / denominator]. *)
Definition ceiling_func (numerator denominator : Z) : Z :=
  (numerator + denominator - 1) ÷ denominator.

(** Modelled from the spec: [align_up] lives in MathUtils.h as well; the
    spec says the bound is rounded up to the alignment unit. *)
Definition align_up (x a : Z) : Z :=
  ((x + a - 1) ÷ a) * a.

(** ** Exact output partition: [get_out_slice_info] *)

(** One iteration of either loop of [get_out_slice_info]: the pair
    emplaced for section [i] of an extent [n] cut in [secs] sections. *)
Definition out_slice_pair (n secs i : Z) : slice_pair_t :=
  let step := n ÷ secs + Z.b2z (Z.rem n secs >? i) in
  let idx := n ÷ secs * i + (if Z.rem n secs >? i then i else Z.rem n secs) in
  let slice := if (n - idx) >? step then step else n - idx in
  (idx, slice).

(** [for (int64_t i = 0; i < secs; ++i) ... emplace_back(...)]. *)
Definition out_slices (n secs : Z) : list slice_pair_t :=
  out_slice_pair n secs <$> seqZ 0 secs.

Definition get_out_slice_info (shape_secs : shape_secs_t) (n h : Z)
  : slice_info_t :=
  mk_slice_info (out_slices n (nsecs shape_secs))
                (out_slices h (hsecs shape_secs)).

(** ** Predicates on a list of slice pairs *)

(** The pairs tile the interval from [from] up to [to]: every pair
    starts where its predecessor ends. *)
Fixpoint tiles (from : Z) (l : list slice_pair_t) (to : Z) : Prop :=
  match l with
  | [] => from = to
  | (start, len) :: rest => start = from /\ tiles (from + len) rest to
  end.

(** Sum of the lengths. *)
Definition total_length (l : list slice_pair_t) : Z :=
  foldr (fun p acc => p.2 + acc) 0 l.

(** Starts are strictly increasing and no pair reaches into the next. *)
Fixpoint sorted_disjoint (l : list slice_pair_t) : Prop :=
  match l with
  | [] => True
  | (start, len) :: rest =>
      0 < len /\
      match rest with
      | [] => True
      | (start', _) :: _ => start < start' /\ start + len <= start'
      end /\ sorted_disjoint rest
  end.

(** The property claimed of a tensor record on one dimension: the pairs
    are contiguous, sorted, non-overlapping and their lengths sum to the
    true extent. *)
Definition exact_partition (extent : Z) (l : list slice_pair_t) : Prop :=
  tiles 0 l extent /\ sorted_disjoint l /\ total_length l = extent.

(** The balanced layout the source computes: section [i] has the length
    [e / s], plus one for the first [e mod s] sections. *)
Definition balanced_start (e s i : Z) : Z := e `div` s * i + Z.min i (e `mod` s).
Definition balanced_length (e s i : Z) : Z :=
  e `div` s + (if i <? e `mod` s then 1 else 0).

(** The layout in the words of the spec ("evenly partitions ... with the
    last piece absorbing any remainder"): every piece has the length
    [e / s], and the last one takes [e mod s] more. *)
Definition spec_last_absorbs_slices (e s : Z) : list slice_pair_t :=
  (fun i => (e `div` s * i,
             e `div` s + (if i =? s - 1 then e `mod` s else 0))) <$> seqZ 0 s.

(** What any layout with a remainder kept for the last piece has in
    common: the pieces before the last one all have one length. *)
Definition equal_but_last (l : list slice_pair_t) : Prop :=
  exists len, forall i p,
    (i + 1 < length l)%nat -> l !! i = Some p -> p.2 = len.

(** [l] is the balanced partition of [[0,e)] in [s] sections. *)
Definition balanced_partition (e s : Z) (l : list slice_pair_t) : Prop :=
  length l = Z.to_nat s /\
  exact_partition e l /\
  forall i, 0 <= i < s ->
    l !! Z.to_nat i = Some (balanced_start e s i, balanced_length e s i).

(** ** Results of functions that can go wrong *)

(** [Ret a]: the C++ function returns [a].  [Undef]: it runs into
    undefined behaviour (an out-of-range subscript, a null operation, a
    division by zero).  [OutOfFuel]: the fuel of a worklist loop ran out
    before the function returned. *)
Inductive outcome (A : Type) : Type :=
  | Ret (a : A)
  | Undef
  | OutOfFuel.
Arguments Ret {A} a.
Arguments Undef {A}.
Arguments OutOfFuel {A}.

Definition obind {A B : Type} (m : outcome A) (k : A -> outcome B)
  : outcome B :=
  match m with
  | Ret a => k a
  | Undef => Undef
  | OutOfFuel => OutOfFuel
  end.

Notation "'run' x <~ m 'then' k" := (obind m (fun x => k))
  (at level 10, x name, m at level 100, k at level 200).

Definition of_option {A : Type} (o : option A) : outcome A :=
  match o with Some a => Ret a | None => Undef end.

(** ** Buffer accountant: [get_split_max_secs] *)

(** [mem_buffer_value_t], as far as the accountant reads it. *)
Record mem_buffer_value_t : Type := mk_mem_buffer {
  start_ts : Z;
  end_ts : Z;
  size : Z
}.

(** [lmem_req[ts] += lmem_size] on a [std::vector<int64_t>]; a subscript
    outside the vector is undefined behaviour. *)
Definition vec_add (lmem_req : list Z) (ts lmem_size : Z) : option (list Z) :=
  if (0 <=? ts) && (ts <? Z.of_nat (length lmem_req)) then
    match lmem_req !! Z.to_nat ts with
    | Some x => Some (<[Z.to_nat ts := x + lmem_size]> lmem_req)
    | None => None
    end
  else None.

(** [count] iterations of [lmem_req[ts] += lmem_size; ++ts]. *)
Fixpoint add_steps (count : nat) (ts lmem_size : Z) (lmem_req : list Z)
  : option (list Z) :=
  match count with
  | O => Some lmem_req
  | S count' =>
      match vec_add lmem_req ts lmem_size with
      | Some lmem_req' => add_steps count' (ts + 1) lmem_size lmem_req'
      | None => None
      end
  end.

(** [for (int64_t ts = lo; ts <= hi; ++ts) lmem_req[ts] += lmem_size;] *)
Definition add_range (lo hi lmem_size : Z) (lmem_req : list Z)
  : option (list Z) :=
  add_steps (Z.to_nat (hi - lo + 1)) lo lmem_size lmem_req.

(** The lambda [update_lmem_req] of [get_split_max_secs]. *)
Definition update_lmem_req (timestep_num : Z) (start_ts end_ts lmem_size : Z)
  (lmem_req : list Z) : option (list Z) :=
  if start_ts <=? end_ts then
    add_range start_ts end_ts lmem_size lmem_req
  else
    match add_range 0 end_ts lmem_size lmem_req with
    | Some lmem_req' => add_range start_ts (timestep_num - 1) lmem_size lmem_req'
    | None => None
    end.

(** The loop over [lmem_buffer]. *)
Fixpoint fill_lmem_req (timestep_num : Z) (lmem_buffer : list mem_buffer_value_t)
  (lmem_req : list Z) : option (list Z) :=
  match lmem_buffer with
  | [] => Some lmem_req
  | b :: rest =>
      match update_lmem_req timestep_num (start_ts b) (end_ts b) (size b) lmem_req with
      | Some lmem_req' => fill_lmem_req timestep_num rest lmem_req'
      | None => None
      end
  end.

(** [std::stable_sort(..., std::greater<int64_t>())] as a stable
    insertion sort: [x] goes in front of the first element that is not
    greater than it. *)
Fixpoint insert_greater (x : Z) (l : list Z) : list Z :=
  match l with
  | [] => [x]
  | y :: l' => if y >? x then y :: insert_greater x l' else x :: y :: l'
  end.

Definition stable_sort_greater (l : list Z) : list Z :=
  foldr insert_greater [] l.

(** [get_split_max_secs]: [timestep_num] and [lmem_buffer] are what the
    [BasicTimeStepPtr] hands out, [LMEM_BYTES] is [Arch::LMEM_BYTES].
    A negative [timestep_num] cannot size a vector. *)
Definition get_split_max_secs (LMEM_BYTES : Z) (timestep_num : Z)
  (lmem_buffer : list mem_buffer_value_t) : outcome Z :=
  if timestep_num <? 0 then Undef else
  let lmem_req := replicate (Z.to_nat timestep_num) 0 in
  run lmem_req <~ of_option (fill_lmem_req timestep_num lmem_buffer lmem_req) then
  let lmem_req := stable_sort_greater lmem_req in
  run req0 <~ of_option (lmem_req !! 0%nat) then
  if LMEM_BYTES =? 0 then Undef else Ret (ceiling_func req0 LMEM_BYTES).

(** The accountant in the words of the spec: a buffer is live at a step
    of its interval, a wrapping buffer on both sides of the boundary. *)
Definition live_at (timestep_num : Z) (b : mem_buffer_value_t) (ts : Z) : bool :=
  if start_ts b <=? end_ts b then (start_ts b <=? ts) && (ts <=? end_ts b)
  else ((0 <=? ts) && (ts <=? end_ts b))
       || ((start_ts b <=? ts) && (ts <=? timestep_num - 1)).

(** Summed size of the buffers live at step [ts]. *)
Definition demand_at (timestep_num : Z) (lmem_buffer : list mem_buffer_value_t)
  (ts : Z) : Z :=
  foldr (fun b acc => (if live_at timestep_num b ts then size b else 0) + acc)
        0 lmem_buffer.

(** [p] is the peak demand: reached at a step, exceeded at none. *)
Definition is_peak (timestep_num : Z) (lmem_buffer : list mem_buffer_value_t)
  (p : Z) : Prop :=
  (exists ts, 0 <= ts < timestep_num /\ demand_at timestep_num lmem_buffer ts = p) /\
  (forall ts, 0 <= ts < timestep_num -> demand_at timestep_num lmem_buffer ts <= p).

(** [r] is the ceiling of [p / c], for a positive [c]. *)
Definition is_ceiling (p c r : Z) : Prop := (r - 1) * c < p <= r * c.

(** Every buffer interval lies inside the schedule. *)
Definition in_schedule (timestep_num : Z) (b : mem_buffer_value_t) : Prop :=
  0 <= start_ts b < timestep_num /\ 0 <= end_ts b < timestep_num.

(** [lmem_req] holds the values of [f] on the steps of the schedule. *)
Definition represents (timestep_num : Z) (lmem_req : list Z) (f : Z -> Z)
  : Prop :=
  Z.of_nat (length lmem_req) = timestep_num /\
  forall ts, 0 <= ts < timestep_num -> lmem_req !! Z.to_nat ts = Some (f ts).

(** A schedule the accountant can size: its buffers lie inside it, no
    size is negative and some buffer is not empty. *)
Definition positive_schedule (timestep_num : Z)
  (lmem_buffer : list mem_buffer_value_t) : Prop :=
  Forall (in_schedule timestep_num) lmem_buffer /\
  Forall (fun b => 0 <= size b) lmem_buffer /\
  Exists (fun b => 1 <= size b) lmem_buffer.

(** ** The graph and the capability interfaces *)

(** MLIR values and operations are handles. *)
Definition Value : Type := nat.
Definition Operation : Type := nat.

(** [group_type_t] is an integer tag (GROUP_NORMAL, GROUP_SMALL_C, ...). *)
Definition group_type_t : Type := Z.

(** The operation kinds the scheduler distinguishes with [isa<...>]. *)
Inductive OpKind : Type :=
  | AddOp | SubOp | MulOp | DivOp | MaxOp | MinOp
  | WeightOp | NoneOp | OtherOp.

(** What the scheduler reads from the IR and asks of the operations.
    [BackwardN op idx slice out_idx out_slice] models
    [lg_op.BackwardN(idx, slice, out_idx, out_slice)]: [idx] and [slice]
    are passed by reference, so the callback sees their current values
    and returns (succeeded, new idx, new slice). *)
Record Ir : Type := mk_ir {
  getDefiningOp : Value -> option Operation;
  getOperands : Operation -> list Value;
  getResults : Operation -> list Value;
  getUsers : Value -> list Operation;
  op_kind : Operation -> OpKind;
  isNoneType : Value -> bool;
  getShape : Value -> list Z;
  getN : Value -> group_type_t -> Z;
  getH : Value -> group_type_t -> Z;
  getStorageBitWidth : Value -> Z;
  AllowDataSplit : Operation -> Z -> group_type_t -> bool;
  BackwardN : Operation -> Z -> Z -> Z -> Z -> bool * Z * Z;
  BackwardH : Operation -> Z -> Z -> Z -> Z -> bool * Z * Z
}.

(** The constants of [Arch] the scheduler reads. *)
Record Arch : Type := mk_arch {
  ALIGN_4N : bool;
  LMEM_BYTES : Z
}.

(** [LgInfo]. *)
Record LgInfo : Type := mk_lg_info {
  group_ops : list Operation;
  group_ins : list Value;
  group_outs : list Value;
  lg_type : group_type_t
}.

(** Structural comparison of two slice pairs and two slice infos. *)
Definition is_same_slice (a b : slice_pair_t) : bool :=
  (a.1 =? b.1) && (a.2 =? b.2).

(** [for (i = 0; i < l0.size(); ++i) if (!is_same_slice(l0[i], l1[i]))
    return false;] on two vectors of one size. *)
Fixpoint all_same_slices (l0 l1 : list slice_pair_t) : bool :=
  match l0, l1 with
  | a :: l0', b :: l1' => if is_same_slice a b then all_same_slices l0' l1' else false
  | _, _ => true
  end.

Definition is_same_slice_info (si0 si1 : slice_info_t) : bool :=
  if negb (length (si_n si0) =? length (si_n si1))%nat
     || negb (length (si_h si0) =? length (si_h si1))%nat
  then false
  else if negb (all_same_slices (si_n si0) (si_n si1)) then false
  else if negb (all_same_slices (si_h si0) (si_h si1)) then false
  else true.

(** The value an [int64_t] holds after an addition or a multiplication
    whose exact result is [z]: two's complement arithmetic wraps
    around. *)
Definition wrap_int64 (z : Z) : Z := (z + 2 ^ 63) `mod` 2 ^ 64 - 2 ^ 63.

(** [check_hsecs]: the 1.5x height-growth guard on the record of
    [value]; the function asserts that the record has height slices.
    The sum and the two products are taken in [int64_t]. *)
Definition check_hsecs (ir : Ir) (value : Value) (si : slice_info_t)
  (group_type : group_type_t) : outcome bool :=
  match si_h si with
  | [] => Undef
  | _ =>
      let h := getH ir value group_type in
      let total_h :=
        foldl (fun total_h it => wrap_int64 (total_h + it.2)) 0 (si_h si) in
      if wrap_int64 (total_h * 2) >? wrap_int64 (h * 3) then Ret false
      else Ret true
  end.

(** [get_max_slice_nh]: the longest batch slice and the longest height
    slice of a record. *)
Definition get_max_slice_nh (slice_info : slice_info_t) : Z * Z :=
  (foldl (fun max_nslice slice => Z.max max_nslice slice.2) 0 (si_n slice_info),
   foldl (fun max_hslice slice => Z.max max_hslice slice.2) 0 (si_h slice_info)).

Section Propagator.

Context (ir : Ir) (arch : Arch).

(** [get_output_values]: the results whose type is not [NoneType]. *)
Definition get_output_values (op : Operation) : list Value :=
  filter (fun out => isNoneType ir out = false) (getResults ir op).

(** [get_input_values]. *)
Definition get_input_values (op : Operation) : list Value :=
  filter (fun v => isNoneType ir v = false) (getOperands ir op).

(** [isa<tpu::AddOp, tpu::SubOp, tpu::MulOp, tpu::DivOp, tpu::MaxOp,
    tpu::MinOp>], the test of [get_group_max_secs]. *)
Definition isa_binary_with_div (k : OpKind) : bool :=
  match k with
  | AddOp | SubOp | MulOp | DivOp | MaxOp | MinOp => true
  | _ => false
  end.

(** [isa<tpu::AddOp, tpu::SubOp, tpu::MulOp, tpu::MaxOp, tpu::MinOp>],
    the test of [is_broadcast_binary]. *)
Definition isa_binary (k : OpKind) : bool :=
  match k with
  | AddOp | SubOp | MulOp | MaxOp | MinOp => true
  | _ => false
  end.

(** The loop of [is_broadcast_binary] over two shapes of one rank. *)
Fixpoint has_broadcast_dim (in_shape other_shape : list Z) : bool :=
  match in_shape, other_shape with
  | a :: in_shape', b :: other_shape' =>
      if negb (a =? b) && (a =? 1) then true
      else has_broadcast_dim in_shape' other_shape'
  | _, _ => false
  end.

(** [is_broadcast_binary]; [op->getOperand(i)] on an operation with
    fewer operands is undefined. *)
Definition is_broadcast_binary (op : Operation) (in_ : Value) : outcome bool :=
  if negb (isa_binary (op_kind ir op)) then Ret false else
  run opd0 <~ of_option (getOperands ir op !! 0%nat) then
  run other <~ (if bool_decide (in_ = opd0)
                then of_option (getOperands ir op !! 1%nat)
                else Ret opd0) then
  let in_shape := getShape ir in_ in
  let other_shape := getShape ir other in
  if negb (length in_shape =? length other_shape)%nat then Ret false
  else Ret (has_broadcast_dim in_shape other_shape).

(** The batch loop of [get_backward_slice_info]; [bcast] is
    [is_broadcast_tensor && n == 1], [acc] is [in_si.n]. *)
Fixpoint backward_n_loop (op : Operation) (bcast : bool) (idx slice : Z)
  (out_n : list slice_pair_t) (acc : list slice_pair_t)
  : option (list slice_pair_t) :=
  match out_n with
  | [] => Some acc
  | s :: rest =>
      let '(ret, idx, slice) := BackwardN ir op idx slice s.1 s.2 in
      if bcast then
        backward_n_loop op bcast 0 1 rest (acc ++ [(0, 1)])
      else if negb ret || (slice =? 0) then None
      else backward_n_loop op bcast idx slice rest (acc ++ [(idx, slice)])
  end.

(** The height loop; [bcast] is [is_broadcast_tensor && h == 1], [i] is
    the loop counter, [acc] is [in_si.h]. *)
Fixpoint backward_h_loop (op : Operation) (bcast : bool)
  (idx slice pre_end_idx i : Z)
  (out_h : list slice_pair_t) (acc : list slice_pair_t)
  : option (list slice_pair_t) :=
  match out_h with
  | [] => Some acc
  | s :: rest =>
      let '(ret, idx, slice) := BackwardH ir op idx slice s.1 s.2 in
      if bcast then
        backward_h_loop op bcast 0 1 (0 + 1) (i + 1) rest (acc ++ [(0, 1)])
      else
        let end_reached := idx + slice =? pre_end_idx in
        if negb ret || (slice =? 0) || ((idx =? 0) && (i >? 0)) || end_reached
        then None
        else backward_h_loop op bcast idx slice (idx + slice) (i + 1) rest
                             (acc ++ [(idx, slice)])
  end.

(** The batch half of [get_backward_slice_info]: the list left in
    [in_si.n], or [None] for [return false]. *)
Definition backward_n (in_si out_si : slice_info_t) (op : Operation)
  (shape_secs : shape_secs_t) (n : Z) (is_broadcast_tensor : bool)
  : option (list slice_pair_t) :=
  if nsecs shape_secs =? 1 then Some (si_n in_si ++ [(0, n)])
  else backward_n_loop op (is_broadcast_tensor && (n =? 1)) 0 0
                       (si_n out_si) (si_n in_si).

(** The height half: [pre_end_idx = 0; idx = slice = 0;] and the loop. *)
Definition backward_h (in_si out_si : slice_info_t) (op : Operation)
  (shape_secs : shape_secs_t) (h : Z) (is_broadcast_tensor : bool)
  : option (list slice_pair_t) :=
  if hsecs shape_secs =? 1 then Some (si_h in_si ++ [(0, h)])
  else backward_h_loop op (is_broadcast_tensor && (h =? 1)) 0 0 0 0
                       (si_h out_si) (si_h in_si).

(** [get_backward_slice_info]: [Ret None] is [return false], [Ret (Some
    si)] is [return true] with [in_si] left as [si]. *)
Definition get_backward_slice_info (in_si out_si : slice_info_t)
  (op : Operation) (in_ : Value) (shape_secs : shape_secs_t)
  (group_type : group_type_t) : outcome (option slice_info_t) :=
  let n := getN ir in_ group_type in
  let h := getH ir in_ group_type in
  run is_broadcast_tensor <~ is_broadcast_binary op in_ then
  match backward_n in_si out_si op shape_secs n is_broadcast_tensor with
  | None => Ret None
  | Some in_n =>
      match backward_h in_si out_si op shape_secs h is_broadcast_tensor with
      | None => Ret None
      | Some in_h => Ret (Some (mk_slice_info in_n in_h))
      end
  end.

(** The pairs a broadcast operand of extent 1 gets on a dimension cut in
    [secs] sections: (0,1) for every output slice. *)
Definition degenerate_slices (secs : Z) (out : list slice_pair_t)
  : list slice_pair_t :=
  if secs =? 1 then [(0, 1)] else (fun _ => (0, 1)) <$> out.

(** The values of [idx], [slice] and [pre_end_idx] once the height loop
    has mapped a prefix of the output slices to [in_prefix]. *)
Definition h_loop_state (in_prefix : list slice_pair_t) : Z * Z * Z :=
  match last in_prefix with
  | Some (idx, slice) => (idx, slice, idx + slice)
  | None => (0, 0, 0)
  end.

End Propagator.

(** ** The backward slice propagator *)

(** The state the propagator mutates: the worklist [tensor_branchs], the
    map [tensor_infos] (a [tensor_info_t] holds, besides its slice info,
    three flags that the propagator leaves at their defaults; the map is
    modelled on the slice info) and the multiset [op_set] of the
    operations already expanded. *)
Record prop_state : Type := mk_prop_state {
  tensor_branchs : list Value;
  tensor_infos : gmap Value slice_info_t;
  op_set : list Operation
}.

Section Worklist.

Context (ir : Ir) (arch : Arch) (lg_info : LgInfo).

(** The loop of [strip_back_judge] over the users: [None] is the early
    [return false], [Some b] the final value of [has_outer_group_user]. *)
Fixpoint judge_users (ops : list Operation) (users : list Operation)
  (has_outer_group_user : bool) : option bool :=
  match users with
  | [] => Some has_outer_group_user
  | op :: rest =>
      if bool_decide (op ∈ group_ops lg_info) then
        if bool_decide (op ∈ ops) then judge_users ops rest has_outer_group_user
        else None
      else judge_users ops rest true
  end.

Definition strip_back_judge (v : Value) (ops : list Operation)
  (out_tensor_set : gset Value) : bool :=
  match judge_users ops (getUsers ir v) false with
  | None => false
  | Some has_outer_group_user =>
      if has_outer_group_user then bool_decide (v ∈ out_tensor_set) else true
  end.

(** [isa<top::WeightOp, top::NoneOp>(pre_op)] for a non-null [pre_op]. *)
Definition skipped_operand (in_ : Value) : bool :=
  match getDefiningOp ir in_ with
  | Some pre_op =>
      match op_kind ir pre_op with
      | WeightOp | NoneOp => true
      | _ => false
      end
  | None => false
  end.

(** The loop of [backward_update_slice] over the operands of [op]. *)
Fixpoint backward_operands (shape_secs : shape_secs_t) (op : Operation)
  (out_si : slice_info_t) (out_tensor_set : gset Value)
  (operands : list Value) (st : prop_state) : outcome (bool * prop_state) :=
  match operands with
  | [] => Ret (true, st)
  | in_ :: rest =>
      if skipped_operand in_ then
        backward_operands shape_secs op out_si out_tensor_set rest st
      else
        run ret <~ get_backward_slice_info ir empty_slice_info out_si op in_
                     shape_secs (lg_type lg_info) then
        match ret with
        | None => Ret (false, st)
        | Some si =>
            match tensor_infos st !! in_ with
            | Some old =>
                if negb (is_same_slice_info si old) then Ret (false, st)
                else
                  let st' :=
                    if strip_back_judge in_ (op_set st) out_tensor_set
                    then mk_prop_state (tensor_branchs st ++ [in_])
                                       (tensor_infos st) (op_set st)
                    else st in
                  backward_operands shape_secs op out_si out_tensor_set rest st'
            | None =>
                let infos := <[in_ := si]> (tensor_infos st) in
                let st' :=
                  if strip_back_judge in_ (op_set st) out_tensor_set
                  then mk_prop_state (tensor_branchs st ++ [in_]) infos (op_set st)
                  else mk_prop_state (tensor_branchs st) infos (op_set st) in
                backward_operands shape_secs op out_si out_tensor_set rest st'
            end
        end
  end.

(** [backward_update_slice].  [tensor_infos[out]] default-constructs a
    record when [out] has none; a null defining operation is
    dereferenced. *)
Definition backward_update_slice (shape_secs : shape_secs_t) (out : Value)
  (out_tensor_set : gset Value) (st : prop_state)
  : outcome (bool * prop_state) :=
  if bool_decide (out ∈ group_ins lg_info) then Ret (true, st) else
  match getDefiningOp ir out with
  | None => Undef
  | Some op =>
      let ops := op :: op_set st in
      let '(out_si, infos) :=
        match tensor_infos st !! out with
        | Some si => (si, tensor_infos st)
        | None => (empty_slice_info, <[out := empty_slice_info]> (tensor_infos st))
        end in
      backward_operands shape_secs op out_si out_tensor_set (getOperands ir op)
                        (mk_prop_state (tensor_branchs st) infos ops)
  end.

(** [while (!tensor_branchs.empty()) { pop_front; backward_update_slice;
    if (!ret) return false; } return true;] *)
Fixpoint propagate (fuel : nat) (shape_secs : shape_secs_t)
  (out_tensor_set : gset Value) (st : prop_state)
  : outcome (bool * prop_state) :=
  match tensor_branchs st with
  | [] => Ret (true, st)
  | out_tensor :: rest =>
      match fuel with
      | O => OutOfFuel
      | S fuel' =>
          run r <~ backward_update_slice shape_secs out_tensor out_tensor_set
                     (mk_prop_state rest (tensor_infos st) (op_set st)) then
          if r.1 then propagate fuel' shape_secs out_tensor_set r.2
          else Ret (false, r.2)
      end
  end.

(** The seeding loop of [stripe_mine_idx_slice] over [group_outs]. *)
Fixpoint seed_idx (shape_secs : shape_secs_t) (outs : list Value)
  (out_tensor_set : gset Value) (st : prop_state) : gset Value * prop_state :=
  match outs with
  | [] => (out_tensor_set, st)
  | out :: rest =>
      let n := getN ir out (lg_type lg_info) in
      let h := getH ir out (lg_type lg_info) in
      let si := get_out_slice_info shape_secs n h in
      let infos := <[out := si]> (tensor_infos st) in
      let out_tensor_set := {[out]} ∪ out_tensor_set in
      let branchs :=
        if strip_back_judge out (op_set st) out_tensor_set
        then tensor_branchs st ++ [out] else tensor_branchs st in
      seed_idx shape_secs rest out_tensor_set
               (mk_prop_state branchs infos (op_set st))
  end.

(** [stripe_mine_idx_slice] with its local state at the return. *)
Definition stripe_mine_idx_run (fuel : nat) (shape_secs : shape_secs_t)
  (infos : gmap Value slice_info_t) : outcome (bool * prop_state) :=
  if (length (group_ops lg_info) =? 1)%nat then
    Ret (true, mk_prop_state [] infos [])
  else
    let '(out_tensor_set, st) :=
      seed_idx shape_secs (group_outs lg_info) ∅ (mk_prop_state [] ∅ []) in
    propagate fuel shape_secs out_tensor_set st.

(** [stripe_mine_idx_slice]: the returned flag and [tensor_infos]. *)
Definition stripe_mine_idx_slice (fuel : nat) (shape_secs : shape_secs_t)
  (infos : gmap Value slice_info_t)
  : outcome (bool * gmap Value slice_info_t) :=
  run r <~ stripe_mine_idx_run fuel shape_secs infos then
  Ret (r.1, tensor_infos r.2).

(** The seeding loop of [stripe_mine_max_slice]; [max_nslice] is carried
    from one output to the next.  The divisions by the section counts
    and by the alignment are undefined for a zero divisor. *)
Fixpoint seed_max (shape_secs : shape_secs_t) (outs : list Value)
  (max_nslice : Z) (out_tensor_set : gset Value) (st : prop_state)
  : outcome (gset Value * prop_state) :=
  match outs with
  | [] => Ret (out_tensor_set, st)
  | out :: rest =>
      let n := getN ir out (lg_type lg_info) in
      let h := getH ir out (lg_type lg_info) in
      if nsecs shape_secs =? 0 then Undef else
      let max_nslice := Z.max max_nslice (ceiling_func n (nsecs shape_secs)) in
      run max_nslice <~
        (if ALIGN_4N arch then
           if getStorageBitWidth ir out =? 0 then Undef else
           let align_n := 32 ÷ getStorageBitWidth ir out in
           if align_n =? 0 then Undef else Ret (align_up max_nslice align_n)
         else Ret max_nslice) then
      if hsecs shape_secs =? 0 then Undef else
      let max_hslice := (h + hsecs shape_secs - 1) ÷ hsecs shape_secs in
      let si := mk_slice_info [(0, max_nslice)] [(0, max_hslice)] in
      let infos := <[out := si]> (tensor_infos st) in
      let out_tensor_set := {[out]} ∪ out_tensor_set in
      let branchs :=
        if strip_back_judge out (op_set st) out_tensor_set
        then tensor_branchs st ++ [out] else tensor_branchs st in
      seed_max shape_secs rest max_nslice out_tensor_set
               (mk_prop_state branchs infos (op_set st))
  end.

Definition stripe_mine_max_run (fuel : nat) (shape_secs : shape_secs_t)
  (infos : gmap Value slice_info_t) : outcome (bool * prop_state) :=
  if (length (group_ops lg_info) =? 1)%nat then
    Ret (true, mk_prop_state [] infos [])
  else
    run seeded <~ seed_max shape_secs (group_outs lg_info) 0 ∅
                    (mk_prop_state [] ∅ []) then
    propagate fuel shape_secs seeded.1 seeded.2.

Definition stripe_mine_max_slice (fuel : nat) (shape_secs : shape_secs_t)
  (infos : gmap Value slice_info_t)
  : outcome (bool * gmap Value slice_info_t) :=
  run r <~ stripe_mine_max_run fuel shape_secs infos then
  Ret (r.1, tensor_infos r.2).

End Worklist.

(** ** What the propagator guarantees *)

Section Guarantees.

Context (ir : Ir) (lg_info : LgInfo) (shape_secs : shape_secs_t).


(** On a dimension that is not cut, the record of [v] is its full
    extent. *)
Definition uncut_full (v : Value) (si : slice_info_t) : Prop :=
  (nsecs shape_secs = 1 -> si_n si = [(0, getN ir v (lg_type lg_info))]) /\
  (hsecs shape_secs = 1 -> si_h si = [(0, getH ir v (lg_type lg_info))]).



(** The invariant of the worklist loop in exact mode: records are full
    on the dimensions that are not cut, the worklist holds recorded
    tensors only, and the group outputs keep their seed. *)
Definition records_invariant (st : prop_state) : Prop :=
  (forall v si, tensor_infos st !! v = Some si -> uncut_full v si) /\
  (forall v, v ∈ tensor_branchs st -> is_Some (tensor_infos st !! v)) /\
  (forall out, out ∈ group_outs lg_info ->
     tensor_infos st !! out
     = Some (get_out_slice_info shape_secs (getN ir out (lg_type lg_info))
                                (getH ir out (lg_type lg_info)))).

End Guarantees.

(** ** The runs of the worklist loop *)

Section Runs.

Context (ir : Ir) (lg_info : LgInfo) (shape_secs : shape_secs_t).



End Runs.

(** ** Split-factor ceiling: [get_group_max_secs] *)

(** The running values of the loop of [get_group_max_secs]. *)
Record max_secs_state : Type := mk_max_secs_state {
  max_nsecs : Z;
  max_hsecs : Z;
  n_align : Z
}.

Section Ceiling.

Context (ir : Ir) (arch : Arch).

(** [llvm::maxIntN(64)]. *)
Definition maxIntN64 : Z := 2 ^ 63 - 1.

(** The body of the inner loop, for one output [v] of [op]. *)
Definition max_secs_value (group_type : group_type_t) (op : Operation)
  (v : Value) (st : max_secs_state) : outcome max_secs_state :=
  let n := getN ir v group_type in
  let h := getH ir v group_type in
  run n_align <~
    (if ALIGN_4N arch then
       if getStorageBitWidth ir v =? 0 then Undef
       else Ret (32 ÷ getStorageBitWidth ir v)
     else Ret (n_align st)) then
  if n_align =? 0 then Undef else
  let max_nsecs := Z.min (max_nsecs st) (ceiling_func n n_align) in
  let max_hsecs :=
    if AllowDataSplit ir op 2 group_type then Z.min (max_hsecs st) h else 1 in
  Ret (mk_max_secs_state max_nsecs max_hsecs n_align).

(** [for (auto v : get_output_values(op))]. *)
Fixpoint max_secs_values (group_type : group_type_t) (op : Operation)
  (vs : list Value) (st : max_secs_state) : outcome max_secs_state :=
  match vs with
  | [] => Ret st
  | v :: rest =>
      run st' <~ max_secs_value group_type op v st then
      max_secs_values group_type op rest st'
  end.

(** [for (auto op : lg_info.group_ops)]. *)
Fixpoint max_secs_ops (group_type : group_type_t) (ops : list Operation)
  (st : max_secs_state) : outcome max_secs_state :=
  match ops with
  | [] => Ret st
  | op :: rest =>
      run st' <~ max_secs_values group_type op (get_output_values ir op) st then
      max_secs_ops group_type rest st'
  end.

(** The seed of [max_nsecs]: the batch of the first operation's first
    operand, or the larger batch of its two operands for a binary
    operation. *)
Definition seed_max_nsecs (lg_info : LgInfo) : outcome Z :=
  run op0 <~ of_option (group_ops lg_info !! 0%nat) then
  run opd0 <~ of_option (getOperands ir op0 !! 0%nat) then
  let max_nsecs := getN ir opd0 (lg_type lg_info) in
  if isa_binary_with_div (op_kind ir op0) then
    run opd1 <~ of_option (getOperands ir op0 !! 1%nat) then
    Ret (Z.max (getN ir opd1 (lg_type lg_info)) max_nsecs)
  else Ret max_nsecs.

Definition get_group_max_secs (lg_info : LgInfo) : outcome shape_secs_t :=
  run seed <~ seed_max_nsecs lg_info then
  run st <~ max_secs_ops (lg_type lg_info) (group_ops lg_info)
              (mk_max_secs_state seed maxIntN64 1) then
  Ret (mk_shape_secs (max_nsecs st) (max_hsecs st)).

(** The batch bound one output contributes: [ceiling_func(n, n_align)]. *)
Definition batch_bound (group_type : group_type_t) (v : Value) : Z :=
  ceiling_func (getN ir v group_type)
    (if ALIGN_4N arch then 32 ÷ getStorageBitWidth ir v else 1).

End Ceiling.

(** [merged] runs the operations of [first], then those of [second],
    under one group type. *)
Definition merged_of (first second merged : LgInfo) : Prop :=
  group_ops merged = group_ops first ++ group_ops second /\
  lg_type first = lg_type merged /\
  lg_type second = lg_type merged.

(** ** The capacity model and the policy helpers *)

(** The kinds of consumer the alignment and broadcast policies tell
    apart. *)
Inductive TpuKind : Type :=
  | LutOp | LutBF16Op | ScaleLutOp | ScaleOp
  | Conv1DOp | Conv2DOp | Conv3DOp | DeconvOp
  | LayerNormOp | RequantIntAxisOp | PReluOp | OtherTpuOp.

(** A tensor record.  [tensor_info_t] is declared outside the sources
    at hand; these are the fields the functions here read or write,
    with [ti_] put before the names they bear there (the helpers below
    bear the same names), and the mode a record is constructed with. *)
Record tensor_info_t : Type := mk_tensor_info {
  ti_mode : Z;
  ti_slice_info : slice_info_t;
  ti_use_3ic_opt : Z;
  ti_eu_align : bool;
  ti_need_bcast : bool
}.

(** What the helpers read from [module], [Arch] and the operations
    besides the graph of [Ir]: the target family, the weight test, the
    attributes of the consumers, the remaining extents of [getNCDHW] and
    the footprint formulas.  [default_eu_align] is the default argument
    of the six-argument call of [Arch::get_tensor_lmem_bytes], which is
    declared outside the sources at hand, and so are the enumerator
    [TIMESTEP_LOAD] and the constructors of [tensor_info_t]:
    [tensor_info_of_mode] is [tensor_info_t(mode)] and
    [tensor_info_of_slice] is [tensor_info_t(slice_info)]. *)
Record Module : Type := mk_module {
  TIMESTEP_LOAD : Z;
  tensor_info_of_mode : Z -> tensor_info_t;
  tensor_info_of_slice : slice_info_t -> tensor_info_t;
  isBM1686 : bool;
  isCV18xx : bool;
  isWeight : Value -> bool;
  tpu_kind : Operation -> TpuKind;
  conv_is_dw : Operation -> bool;
  conv_groups : Operation -> Z;
  isUniformQuantized : Value -> bool;
  getOutput : Operation -> Value;
  getInput : Operation -> Value;
  getTable : Operation -> Value;
  getMantissa : Operation -> Value;
  getUse_3icOptimize : Operation -> Z;
  getC : Value -> group_type_t -> Z;
  getD : Value -> group_type_t -> Z;
  getW : Value -> group_type_t -> Z;
  GROUP_SMALL_C : group_type_t;
  LMEM_BANK_BYTES : Z;
  default_eu_align : bool;
  get_tensor_lmem_bytes : Value -> Z -> Z -> Z -> Z -> Z -> bool -> Z;
  get_tensor_lmem_bytes_slice : Value -> Z -> Z -> group_type_t -> bool -> Z;
  get_weight_lmem_bytes : Value -> group_type_t -> bool -> Z;
  getBufferSize : Operation -> Z -> Z -> Z -> Z -> Z -> Z -> group_type_t -> Z
}.

Section Policies.

Context (m : Module) (ir : Ir).

(** [*opd.getUsers().begin()]; dereferencing the begin of an empty range
    is undefined. *)
Definition first_user (opd : Value) : outcome Operation :=
  match getUsers ir opd with
  | [] => Undef
  | op :: _ => Ret op
  end.

(** [opd == op->getOperand(k)]; [getOperand] of an index the operation
    does not have is undefined. *)
Definition is_operand (op : Operation) (k : nat) (opd : Value)
  : outcome bool :=
  run operand <~ of_option (getOperands ir op !! k) then
  Ret (bool_decide (opd = operand)).

(** The tail shared by the convolution and the deconvolution branch of
    [is_eu_align_cv18xx]; operand 2 is only read for a quantized
    output. *)
Definition conv_align_cv18xx (op : Operation) (opd : Value) : outcome bool :=
  run is_filter <~ is_operand op 1 opd then
  if is_filter && conv_is_dw m op then Ret true
  else if isUniformQuantized m (getOutput m op) then
    run is_bias <~ is_operand op 2 opd then
    Ret (is_bias && negb (conv_is_dw m op) && (conv_groups m op >? 1))
  else Ret false.

(** [opd == op->getOperand(1) || opd == op->getOperand(2)], operand 2
    being read only when operand 1 differs. *)
Definition is_operand_1_or_2 (op : Operation) (opd : Value) : outcome bool :=
  run is_first <~ is_operand op 1 opd then
  if is_first then Ret true else is_operand op 2 opd.

Definition is_eu_align_cv18xx (opd : Value) : outcome bool :=
  run op <~ first_user opd then
  if isWeight m opd then
    match tpu_kind m op with
    | LutOp => run hit <~ is_operand op 1 opd then Ret (negb hit)
    | LutBF16Op => run hit <~ is_operand_1_or_2 op opd then Ret (negb hit)
    | ScaleLutOp => run hit <~ is_operand op 1 opd then Ret (negb hit)
    | ScaleOp => Ret false
    | Conv2DOp => conv_align_cv18xx op opd
    | DeconvOp => conv_align_cv18xx op opd
    | LayerNormOp => Ret false
    | _ => Ret true
    end
  else Ret true.

Definition is_eu_align_bm1686 (opd : Value) : outcome bool :=
  run op <~ first_user opd then
  if isWeight m opd then
    match tpu_kind m op with
    | Conv1DOp | Conv2DOp | Conv3DOp | DeconvOp =>
        run hit <~ is_operand_1_or_2 op opd then Ret (negb hit)
    | RequantIntAxisOp => run hit <~ is_operand op 1 opd then Ret (negb hit)
    | PReluOp | ScaleOp => Ret false
    | _ => Ret true
    end
  else Ret true.

Definition is_eu_align_common (opd : Value) : outcome bool :=
  run op <~ first_user opd then
  if isWeight m opd then
    match tpu_kind m op with
    | Conv1DOp | Conv2DOp | Conv3DOp | DeconvOp =>
        run hit <~ is_operand_1_or_2 op opd then Ret (negb hit)
    | PReluOp | ScaleOp => Ret false
    | _ => Ret true
    end
  else Ret true.

Definition is_eu_align (opd : Value) : outcome bool :=
  if isBM1686 m then is_eu_align_bm1686 opd
  else if isCV18xx m then is_eu_align_cv18xx opd
  else is_eu_align_common opd.

(** [opd.hasOneUse()]: the users are listed once per use. *)
Definition hasOneUse (opd : Value) : bool :=
  (length (getUsers ir opd) =? 1)%nat.

(** [need_bcast]; [isa<top::WeightOp>] of a null defining operation is
    undefined, and is only evaluated on a CV18xx target. *)
Definition need_bcast (opd : Value) : outcome bool :=
  if negb (hasOneUse opd) then Ret false else
  run use_op <~ first_user opd then
  match tpu_kind m use_op with
  | LutOp => Ret (bool_decide (opd = getTable m use_op))
  | LutBF16Op =>
      Ret (bool_decide (opd = getTable m use_op)
           || bool_decide (opd = getMantissa m use_op))
  | LayerNormOp =>
      if isCV18xx m then
        match getDefiningOp ir opd with
        | None => Undef
        | Some def =>
            Ret (match op_kind ir def with WeightOp => true | _ => false end)
        end
      else Ret false
  | _ => Ret false
  end.

(** The loop of [use_3ic] over the users. *)
Fixpoint use_3ic_users (opd : Value) (users : list Operation) : Z :=
  match users with
  | [] => 0
  | use_op :: rest =>
      match tpu_kind m use_op with
      | Conv2DOp =>
          if bool_decide (opd = getInput m use_op)
          then getUse_3icOptimize m use_op
          else use_3ic_users opd rest
      | _ => use_3ic_users opd rest
      end
  end.

Definition use_3ic (opd : Value) : Z := use_3ic_users opd (getUsers ir opd).

Definition get_buffer_size (v : Value) (ti : tensor_info_t)
  (group_type : group_type_t) : Z :=
  let n := getN ir v group_type in
  let c := getC m v group_type in
  let d := getD m v group_type in
  let h := getH ir v group_type in
  let w := getW m v group_type in
  if isWeight m v then
    if group_type =? GROUP_SMALL_C m
    then get_tensor_lmem_bytes m v n c d h w (ti_eu_align ti)
    else get_weight_lmem_bytes m v group_type (ti_eu_align ti)
  else
    let '(nslice, hslice) := get_max_slice_nh (ti_slice_info ti) in
    get_tensor_lmem_bytes_slice m v nslice hslice group_type (ti_eu_align ti).

(** [module::setAddress] for the values of [vs], at the addresses
    [offset * i], [offset * (i + 1)], ...; the result is the address
    table and the next [i]. *)
Fixpoint set_fake_addresses (offset : Z) (vs : list Value) (i : Z)
  (address : gmap Value Z) : gmap Value Z * Z :=
  match vs with
  | [] => (address, i)
  | v :: rest =>
      set_fake_addresses offset rest (i + 1) (<[v := offset * i]> address)
  end.

(** [generate_fake_global_addr], on the table of the addresses. *)
Definition generate_fake_global_addr (op : Operation)
  (address : gmap Value Z) : gmap Value Z :=
  let offset := LMEM_BANK_BYTES m in
  let '(address, i) :=
    set_fake_addresses offset (get_input_values ir op) 0 address in
  (set_fake_addresses offset (get_output_values ir op) i address).1.

End Policies.

(** ** Initial split factors: [init_group_data_secs] *)

Section InitialGuess.

Context (m : Module) (ir : Ir) (arch : Arch) (lg_info : LgInfo).

(** [Arch::get_tensor_lmem_bytes(v, n, c, d, h, w)] on the full extents
    of [v]. *)
Definition full_tensor_bytes (v : Value) : Z :=
  get_tensor_lmem_bytes m v (getN ir v (lg_type lg_info))
    (getC m v (lg_type lg_info)) (getD m v (lg_type lg_info))
    (getH ir v (lg_type lg_info)) (getW m v (lg_type lg_info))
    (default_eu_align m).

(** [for (size_t i = 1; i < ins.size(); ++i)]: the further inputs. *)
Fixpoint more_inputs_bytes (ins : list Value) (total_size : Z) : outcome Z :=
  match ins with
  | [] => Ret total_size
  | v :: rest =>
      if isWeight m v then
        run eu_align <~ is_eu_align m ir v then
        more_inputs_bytes rest
          (total_size + get_weight_lmem_bytes m v (lg_type lg_info) eu_align)
      else more_inputs_bytes rest (total_size + full_tensor_bytes v)
  end.

(** [for (size_t i = 1; i < outs.size(); ++i)]: the further outputs. *)
Definition more_outputs_bytes (outs : list Value) (total_size : Z) : Z :=
  foldl (fun total_size v => total_size + full_tensor_bytes v) total_size outs.

(** The body of the loop over the operations. *)
Definition init_secs_op (max_shape_secs : shape_secs_t) (op : Operation)
  (shape_secs : shape_secs_t) : outcome shape_secs_t :=
  let ins := get_input_values ir op in
  let outs := get_output_values ir op in
  run in0 <~ of_option (ins !! 0%nat) then
  run out0 <~ of_option (outs !! 0%nat) then
  let in0_lmem_bytes := full_tensor_bytes in0 in
  let out0_lmem_bytes := full_tensor_bytes out0 in
  let total_size := in0_lmem_bytes + out0_lmem_bytes in
  let total_size :=
    total_size
    + getBufferSize m op in0_lmem_bytes out0_lmem_bytes
        (getN ir in0 (lg_type lg_info)) (getH ir in0 (lg_type lg_info))
        (getN ir out0 (lg_type lg_info)) (getH ir out0 (lg_type lg_info))
        (lg_type lg_info) in
  run total_size <~ more_inputs_bytes (drop 1 ins) total_size then
  let total_size := more_outputs_bytes (drop 1 outs) total_size in
  if LMEM_BYTES arch =? 0 then Undef else
  let total_secs := ceiling_func total_size (LMEM_BYTES arch) in
  let n := Z.max (Z.min total_secs (nsecs max_shape_secs)) (nsecs shape_secs) in
  if n =? 0 then Undef else
  let total_secs := ceiling_func total_secs n in
  Ret (mk_shape_secs n (Z.max total_secs (hsecs shape_secs))).

Fixpoint init_secs_ops (max_shape_secs : shape_secs_t) (ops : list Operation)
  (shape_secs : shape_secs_t) : outcome shape_secs_t :=
  match ops with
  | [] => Ret shape_secs
  | op :: rest =>
      run shape_secs <~ init_secs_op max_shape_secs op shape_secs then
      init_secs_ops max_shape_secs rest shape_secs
  end.

Definition init_group_data_secs : outcome shape_secs_t :=
  let shape_secs := mk_shape_secs 1 1 in
  if (length (group_ops lg_info) =? 1)%nat then Ret shape_secs else
  run max_shape_secs <~ get_group_max_secs ir arch lg_info then
  init_secs_ops max_shape_secs (group_ops lg_info) shape_secs.

End InitialGuess.

(** ** Split-search driver: [update_data_split] *)

(** The time-step object, as far as the driver uses it: the number of
    time steps and the local-memory buffers with the sizes that
    [update_all_mem_buffer_size] gives them for the current tensor
    records.  The driver asks for them between the propagation and
    [update_tensor_infos], when every record is the [tensor_info_t(si)]
    of its slice info [si]: the records are given as their slice
    infos. *)
Record TimeStep : Type := mk_time_step {
  get_timestep_num : Z;
  update_all_mem_buffer_size :
    LgInfo -> gmap Value slice_info_t -> list mem_buffer_value_t
}.

(** How one iteration of the loop of [update_data_split] ends. *)
Inductive iteration : Type :=
  | ReturnFalse (shape_secs : shape_secs_t) (infos : gmap Value slice_info_t)
  | Break (shape_secs : shape_secs_t) (infos : gmap Value slice_info_t)
  | Continue (shape_secs : shape_secs_t) (infos : gmap Value slice_info_t).

Section Driver.

Context (m : Module) (ir : Ir) (arch : Arch) (time_step : TimeStep).
Context (lg_info : LgInfo) (fuel : nat).

(** [is_weight v]: [dyn_cast_or_null<top::WeightOp>(in.getDefiningOp())]. *)
Definition defined_by_weight (v : Value) : bool :=
  match getDefiningOp ir v with
  | Some src_op => match op_kind ir src_op with WeightOp => true | _ => false end
  | None => false
  end.

(** The body of the first loop of [update_tensor_infos]: the three
    flags of the record of [v] are written anew, the rest of the record
    is kept. *)
Definition update_flags (v : Value) (ti : tensor_info_t)
  : outcome tensor_info_t :=
  let use_3ic_opt := use_3ic m ir v in
  run eu_align <~ is_eu_align m ir v then
  run bcast <~ need_bcast m ir v then
  Ret (mk_tensor_info (ti_mode ti) (ti_slice_info ti) use_3ic_opt eu_align
         bcast).

(** [for (auto &iter : tensor_infos)], over the entries of the map; an
    entry is visited once and the iterations do not depend on one
    another, so the order of the visit does not show in the result. *)
Fixpoint update_flags_loop (entries : list (Value * tensor_info_t))
  (infos : gmap Value tensor_info_t) : outcome (gmap Value tensor_info_t) :=
  match entries with
  | [] => Ret infos
  | (v, ti) :: rest =>
      run ti' <~ update_flags v ti then
      update_flags_loop rest (<[v := ti']> infos)
  end.

(** [for (auto in : ins)] of the second loop; [ti] is the one object
    declared before the loops, written and stored again for every
    weight. *)
Fixpoint weight_inputs (ins : list Value) (ti : tensor_info_t)
  (infos : gmap Value tensor_info_t)
  : outcome (tensor_info_t * gmap Value tensor_info_t) :=
  match ins with
  | [] => Ret (ti, infos)
  | in_ :: rest =>
      if defined_by_weight in_ then
        run eu_align <~ is_eu_align m ir in_ then
        run bcast <~ need_bcast m ir in_ then
        let ti :=
          mk_tensor_info (ti_mode ti)
            (mk_slice_info [(0, getN ir in_ (lg_type lg_info))]
                           [(0, getH ir in_ (lg_type lg_info))])
            (ti_use_3ic_opt ti) eu_align bcast in
        weight_inputs rest ti (<[in_ := ti]> infos)
      else weight_inputs rest ti infos
  end.

(** [for (auto op : lg_info.group_ops)] of the second loop. *)
Fixpoint weight_ops (ops : list Operation) (ti : tensor_info_t)
  (infos : gmap Value tensor_info_t)
  : outcome (tensor_info_t * gmap Value tensor_info_t) :=
  match ops with
  | [] => Ret (ti, infos)
  | op :: rest =>
      run r <~ weight_inputs (get_input_values ir op) ti infos then
      weight_ops rest r.1 r.2
  end.

(** [update_tensor_infos]: the flags of every record, then the records
    of the weights. *)
Definition update_tensor_infos (infos : gmap Value tensor_info_t)
  : outcome (gmap Value tensor_info_t) :=
  run infos <~ update_flags_loop (map_to_list infos) infos then
  run r <~ weight_ops (group_ops lg_info)
             (tensor_info_of_mode m (TIMESTEP_LOAD m)) infos then
  Ret r.2.

(** The candidate handed to the propagator in the iteration [nsec]:
    [shape_secs.nsecs = nsec;] with [hsecs] as the previous iteration
    left it. *)
Definition candidate (nsec : Z) (shape_secs : shape_secs_t) : shape_secs_t :=
  mk_shape_secs nsec (hsecs shape_secs).

(** The split factors after the raise step of an iteration. *)
Definition raised (max_shape_secs : shape_secs_t) (shape_secs : shape_secs_t)
  (total_secs : Z) : shape_secs_t :=
  let n := Z.max (nsecs shape_secs) (Z.min (nsecs max_shape_secs) total_secs) in
  mk_shape_secs n (ceiling_func total_secs n).

(** One iteration of the [for] loop. *)
Definition iterate (max_shape_secs : shape_secs_t) (nsec : Z)
  (shape_secs : shape_secs_t) : outcome iteration :=
  let shape_secs := candidate nsec shape_secs in
  run r <~ stripe_mine_max_slice ir arch lg_info fuel shape_secs ∅ then
  if negb r.1 then Ret (ReturnFalse shape_secs r.2) else
  let buffers := update_all_mem_buffer_size time_step lg_info r.2 in
  run total_secs <~ get_split_max_secs (LMEM_BYTES arch)
                      (get_timestep_num time_step) buffers then
  let shape_secs := raised max_shape_secs shape_secs total_secs in
  if hsecs shape_secs <=? hsecs max_shape_secs
  then Ret (Break shape_secs r.2)
  else Ret (Continue shape_secs r.2).

(** [for (nsec = ...; nsec <= max_shape_secs.nsecs; ++nsec)], with the
    number of iterations left, and what follows the loop; the result is
    the flag returned, the final split factors and the tensor records.
    The propagator stores [tensor_info_t(si)] for every slice info [si]
    it records: its map of slice infos stands for the map of these. *)
Fixpoint search (count : nat) (max_shape_secs : shape_secs_t) (nsec : Z)
  (shape_secs : shape_secs_t) (infos : gmap Value tensor_info_t)
  : outcome (bool * shape_secs_t * gmap Value tensor_info_t) :=
  match count with
  | O =>
      run infos <~ update_tensor_infos infos then
      Ret (false, shape_secs, infos)
  | S count' =>
      run it <~ iterate max_shape_secs nsec shape_secs then
      match it with
      | ReturnFalse shape_secs infos =>
          Ret (false, shape_secs, tensor_info_of_slice m <$> infos)
      | Break shape_secs infos =>
          run infos <~ update_tensor_infos (tensor_info_of_slice m <$> infos) then
          Ret (true, shape_secs, infos)
      | Continue shape_secs infos =>
          search count' max_shape_secs (nsec + 1) shape_secs
                 (tensor_info_of_slice m <$> infos)
      end
  end.

Definition update_data_split (infos : gmap Value tensor_info_t)
  : outcome (bool * shape_secs_t * gmap Value tensor_info_t) :=
  let shape_secs := mk_shape_secs 1 1 in
  run max_shape_secs <~ get_group_max_secs ir arch lg_info then
  search (Z.to_nat (nsecs max_shape_secs)) max_shape_secs 1 shape_secs infos.

(** The loop states a search run goes through: the counter [nsec] and
    the split factors at the head of an iteration. *)
Inductive visits (max_shape_secs : shape_secs_t)
  : Z -> shape_secs_t -> Prop :=
  | visits_first : visits max_shape_secs 1 (mk_shape_secs 1 1)
  | visits_next nsec shape_secs shape_secs' infos :
      visits max_shape_secs nsec shape_secs ->
      nsec <= nsecs max_shape_secs ->
      iterate max_shape_secs nsec shape_secs = Ret (Continue shape_secs' infos) ->
      visits max_shape_secs (nsec + 1) shape_secs'.

End Driver.

(** ** Two small groups used as test inputs *)

Module Examples.

(** Modelled from the spec: the operations' own [BackwardN] and
    [BackwardH] are not part of the sources at hand; for elementwise
    operations the spec gives the identity: an output slice needs the
    same input slice. *)
Definition elementwise_backward (idx slice out_idx out_slice : Z)
  : bool * Z * Z := (true, out_idx, out_slice).

(** Modelled from the spec: for convolution-like operations the spec
    gives the stride/kernel/pad inverse.  This is the one of a 3x3
    convolution with stride 1 and padding 1 on a height of [h]: one more
    row on either side, clipped to the tensor. *)
Definition conv3x3_backward (h : Z) (idx slice out_idx out_slice : Z)
  : bool * Z * Z :=
  let in_idx := Z.max (out_idx - 1) 0 in
  let in_end := Z.min (out_idx + out_slice + 1) h in
  (true, in_idx, in_end - in_idx).

(** A callback that asks for the whole height whatever the output slice
    is, as a pooling over the full height does. *)
Definition global_pool_backward (h : Z) (idx slice out_idx out_slice : Z)
  : bool * Z * Z := (true, 0, h).

(** A chain: value 0 (group input, 1x8x32x16) feeds operation 0, which
    also reads the weight 10 and produces value 1; operation 1 adds to
    value 1 the broadcast operand 2 (group input, 1x8x1x16) and produces
    the group output 3, which operation 9 outside the group reads.
    [backward_h0] is the height mapping of operation 0. *)
Definition chain_ir (backward_h0 : Z -> Z -> Z -> Z -> bool * Z * Z) : Ir :=
  {| getDefiningOp v :=
       match v with
       | 1%nat => Some 0%nat | 3%nat => Some 1%nat | 10%nat => Some 5%nat
       | _ => None
       end;
     getOperands op :=
       match op with
       | 0%nat => [0%nat; 10%nat] | 1%nat => [1%nat; 2%nat] | 9%nat => [3%nat]
       | _ => []
       end;
     getResults op :=
       match op with
       | 0%nat => [1%nat] | 1%nat => [3%nat] | 5%nat => [10%nat]
       | _ => []
       end;
     getUsers v :=
       match v with
       | 0%nat | 10%nat => [0%nat] | 1%nat | 2%nat => [1%nat] | 3%nat => [9%nat]
       | _ => []
       end;
     op_kind op :=
       match op with 1%nat => AddOp | 5%nat => WeightOp | _ => OtherOp end;
     isNoneType _ := false;
     getShape v :=
       match v with
       | 2%nat => [1; 8; 1; 16] | 10%nat => [8; 8; 3; 3]
       | _ => [1; 8; 32; 16]
       end;
     getN v _ := match v with 10%nat => 8 | _ => 1 end;
     getH v _ := match v with 2%nat => 1 | 10%nat => 3 | _ => 32 end;
     getStorageBitWidth _ := 32;
     AllowDataSplit _ _ _ := true;
     BackwardN _ := elementwise_backward;
     BackwardH op :=
       match op with 0%nat => backward_h0 | _ => elementwise_backward end |}.

Definition chain_lg : LgInfo :=
  {| group_ops := [0%nat; 1%nat];
     group_ins := [0%nat; 2%nat];
     group_outs := [3%nat];
     lg_type := 0 |}.

(** A diamond on tensors of shape 4x8x32x16: the group input 0 feeds the elementwise operation 0
    (result 1) and the 3x3 convolution 1 (result 2); operation 2 adds
    values 1 and 2 into the group output 3. *)
Definition diamond_ir : Ir :=
  {| getDefiningOp v :=
       match v with
       | 1%nat => Some 0%nat | 2%nat => Some 1%nat | 3%nat => Some 2%nat
       | _ => None
       end;
     getOperands op :=
       match op with
       | 0%nat | 1%nat => [0%nat] | 2%nat => [1%nat; 2%nat] | 9%nat => [3%nat]
       | _ => []
       end;
     getResults op :=
       match op with
       | 0%nat => [1%nat] | 1%nat => [2%nat] | 2%nat => [3%nat]
       | _ => []
       end;
     getUsers v :=
       match v with
       | 0%nat => [0%nat; 1%nat] | 1%nat | 2%nat => [2%nat] | 3%nat => [9%nat]
       | _ => []
       end;
     op_kind op := match op with 2%nat => AddOp | _ => OtherOp end;
     isNoneType _ := false;
     getShape _ := [4; 8; 32; 16];
     getN _ _ := 4;
     getH _ _ := 32;
     getStorageBitWidth _ := 32;
     AllowDataSplit _ _ _ := true;
     BackwardN _ := elementwise_backward;
     BackwardH op :=
       match op with
       | 1%nat => conv3x3_backward 32
       | _ => elementwise_backward
       end |}.

Definition diamond_lg : LgInfo :=
  {| group_ops := [0%nat; 1%nat; 2%nat];
     group_ins := [0%nat];
     group_outs := [3%nat];
     lg_type := 0 |}.


(** Two elementwise operations in a row on tensors of batch 4 and
    height 2: value 0 (group input), value 1, value 2 (group output,
    read by operation 9 outside the group). *)
Definition pair_ir : Ir :=
  {| getDefiningOp v :=
       match v with 1%nat => Some 0%nat | 2%nat => Some 1%nat | _ => None end;
     getOperands op :=
       match op with
       | 0%nat => [0%nat] | 1%nat => [1%nat] | 9%nat => [2%nat] | _ => []
       end;
     getResults op :=
       match op with 0%nat => [1%nat] | 1%nat => [2%nat] | _ => [] end;
     getUsers v :=
       match v with
       | 0%nat => [0%nat] | 1%nat => [1%nat] | 2%nat => [9%nat] | _ => []
       end;
     op_kind _ := OtherOp;
     isNoneType _ := false;
     getShape _ := [4; 8; 2; 16];
     getN _ _ := 4;
     getH _ _ := 2;
     getStorageBitWidth _ := 32;
     AllowDataSplit _ _ _ := true;
     BackwardN _ := elementwise_backward;
     BackwardH _ := elementwise_backward |}.

Definition pair_lg : LgInfo :=
  {| group_ops := [0%nat; 1%nat];
     group_ins := [0%nat];
     group_outs := [2%nat];
     lg_type := 0 |}.

(** The two halves of [pair_lg]. *)
Definition pair_first : LgInfo :=
  {| group_ops := [0%nat]; group_ins := [0%nat]; group_outs := [1%nat];
     lg_type := 0 |}.

Definition pair_second : LgInfo :=
  {| group_ops := [1%nat]; group_ins := [1%nat]; group_outs := [2%nat];
     lg_type := 0 |}.

(** An elementwise operation 0 (value 0 to value 1, batch 4) followed by
    a select (operation 1) whose first operand, the condition 5, has
    batch 1 and is broadcast along the batch; its other operands are
    value 1 and value 6, its result is value 2, all of batch 4. *)
Definition select_ir : Ir :=
  {| getDefiningOp v :=
       match v with 1%nat => Some 0%nat | 2%nat => Some 1%nat | _ => None end;
     getOperands op :=
       match op with
       | 0%nat => [0%nat] | 1%nat => [5%nat; 1%nat; 6%nat] | _ => []
       end;
     getResults op :=
       match op with 0%nat => [1%nat] | 1%nat => [2%nat] | _ => [] end;
     getUsers v :=
       match v with
       | 0%nat => [0%nat] | 1%nat | 5%nat | 6%nat => [1%nat] | _ => []
       end;
     op_kind _ := OtherOp;
     isNoneType _ := false;
     getShape v := match v with 5%nat => [1; 8; 32; 16] | _ => [4; 8; 32; 16] end;
     getN v _ := match v with 5%nat => 1 | _ => 4 end;
     getH _ _ := 32;
     getStorageBitWidth _ := 32;
     AllowDataSplit _ _ _ := true;
     BackwardN _ := elementwise_backward;
     BackwardH _ := elementwise_backward |}.

Definition select_first : LgInfo :=
  {| group_ops := [0%nat]; group_ins := [0%nat]; group_outs := [1%nat];
     lg_type := 0 |}.

Definition select_second : LgInfo :=
  {| group_ops := [1%nat]; group_ins := [5%nat; 1%nat; 6%nat];
     group_outs := [2%nat]; lg_type := 0 |}.

Definition select_merged : LgInfo :=
  {| group_ops := [0%nat; 1%nat]; group_ins := [0%nat; 5%nat; 6%nat];
     group_outs := [2%nat]; lg_type := 0 |}.

(** A one-step schedule: a scratch buffer of 64 KiB and one buffer per
    recorded tensor, of 64 KiB for every (batch, row) of its longest
    slice. *)
Definition tensor_buffer (entry : Value * slice_info_t) : mem_buffer_value_t :=
  let '(nslice, hslice) := get_max_slice_nh entry.2 in
  mk_mem_buffer 0 0 (nslice * hslice * 65536).

Definition one_step : TimeStep :=
  {| get_timestep_num := 1;
     update_all_mem_buffer_size _ infos :=
       mk_mem_buffer 0 0 65536 :: (tensor_buffer <$> map_to_list infos) |}.

(** A local memory of 160 KiB. *)
Definition small_lmem : Arch := {| ALIGN_4N := false; LMEM_BYTES := 163840 |}.

Definition bm1684x : Arch := {| ALIGN_4N := false; LMEM_BYTES := 262144 |}.

End Examples.

(** ** Further predicates on slice lists *)

(** [l] cuts [[0,e)] in [s] consecutive pieces, none of which leaves the
    extent; pieces may be empty. *)
Definition covering (e s : Z) (l : list slice_pair_t) : Prop :=
  length l = Z.to_nat s /\
  tiles 0 l e /\
  total_length l = e /\
  Forall (fun p : slice_pair_t => 0 <= p.1 /\ 0 <= p.2 /\ p.1 + p.2 <= e) l.

(** ** Further invariants of the propagator *)

(** Every record of the map satisfies [P], and the worklist holds
    recorded tensors only. *)
Definition records_satisfy (P : Value -> slice_info_t -> Prop)
  (st : prop_state) : Prop :=
  (forall v si, tensor_infos st !! v = Some si -> P v si) /\
  (forall v, v ∈ tensor_branchs st -> is_Some (tensor_infos st !! v)).

(** A record with one pair per section. *)
Definition one_pair_per_section (shape_secs : shape_secs_t)
  (si : slice_info_t) : Prop :=
  length (si_n si) = Z.to_nat (nsecs shape_secs) /\
  length (si_h si) = Z.to_nat (hsecs shape_secs).

(** A record with a single pair on either dimension. *)
Definition single_pair (si : slice_info_t) : Prop :=
  length (si_n si) = 1%nat /\ length (si_h si) = 1%nat.

(** What the height loop lets through for an operand outside the
    broadcast case: no mapped slice is empty, none but the first starts
    at index 0, and none ends where its predecessor ended
    ([pre_end_idx], 0 before the first slice). *)
Fixpoint advancing (pre_end_idx : Z) (is_first : bool)
  (l : list slice_pair_t) : Prop :=
  match l with
  | [] => True
  | (idx, slice) :: rest =>
      slice <> 0 /\ (is_first = false -> idx <> 0) /\
      idx + slice <> pre_end_idx /\
      advancing (idx + slice) false rest
  end.

(** ** Test inputs for the helpers *)

Module PolicyExamples.

(** A CV18xx-like target for the chain of [Examples.chain_ir]: value 10
    is the only weight, operation 0 is of the kind [kind0] and takes
    value 0 as its input and value 10 as its table; a tensor of n x c x
    d x h x w elements takes four bytes per element. *)
Definition demo_module (kind0 : TpuKind) : Module :=
  {| TIMESTEP_LOAD := 0;
     tensor_info_of_mode mode := mk_tensor_info mode empty_slice_info 0 false false;
     tensor_info_of_slice si := mk_tensor_info 0 si 0 false false;
     isBM1686 := false;
     isCV18xx := true;
     isWeight v := match v with 10%nat => true | _ => false end;
     tpu_kind op := match op with 0%nat => kind0 | _ => OtherTpuOp end;
     conv_is_dw _ := false;
     conv_groups _ := 1;
     isUniformQuantized _ := false;
     getOutput _ := 1%nat;
     getInput _ := 0%nat;
     getTable _ := 10%nat;
     getMantissa _ := 10%nat;
     getUse_3icOptimize _ := 2;
     getC _ _ := 8;
     getD _ _ := 1;
     getW _ _ := 16;
     GROUP_SMALL_C := 2;
     LMEM_BANK_BYTES := 16384;
     default_eu_align := true;
     get_tensor_lmem_bytes _ n c d h w _ := n * c * d * h * w * 4;
     get_tensor_lmem_bytes_slice _ nslice hslice _ _ := nslice * 8 * hslice * 16 * 4;
     get_weight_lmem_bytes _ _ _ := 1024;
     getBufferSize _ _ _ _ _ _ _ _ := 0 |}.

(** [Examples.pair_ir] with an empty batch on every tensor. *)
Definition empty_batch_ir : Ir :=
  {| getDefiningOp := getDefiningOp Examples.pair_ir;
     getOperands := getOperands Examples.pair_ir;
     getResults := getResults Examples.pair_ir;
     getUsers := getUsers Examples.pair_ir;
     op_kind := op_kind Examples.pair_ir;
     isNoneType := isNoneType Examples.pair_ir;
     getShape _ := [0; 8; 2; 16];
     getN _ _ := 0;
     getH := getH Examples.pair_ir;
     getStorageBitWidth := getStorageBitWidth Examples.pair_ir;
     AllowDataSplit := AllowDataSplit Examples.pair_ir;
     BackwardN := BackwardN Examples.pair_ir;
     BackwardH := BackwardH Examples.pair_ir |}.

End PolicyExamples.

(** ** Further test inputs *)

Module MoreExamples.

(** [Examples.chain_ir] with a division in the place of the addition:
    operation 1 divides value 1 by the operand 2 of height 1. *)
Definition div_ir : Ir :=
  let chain := Examples.chain_ir Examples.elementwise_backward in
  {| getDefiningOp := getDefiningOp chain;
     getOperands := getOperands chain;
     getResults := getResults chain;
     getUsers := getUsers chain;
     op_kind op :=
       match op with 1%nat => DivOp | 5%nat => WeightOp | _ => OtherOp end;
     isNoneType := isNoneType chain;
     getShape := getShape chain;
     getN := getN chain;
     getH := getH chain;
     getStorageBitWidth := getStorageBitWidth chain;
     AllowDataSplit := AllowDataSplit chain;
     BackwardN := BackwardN chain;
     BackwardH := BackwardH chain |}.



(** Two elementwise operations side by side: operation 0 maps the group
    input 0 to the group output 1, both of batch 9, and operation 1 maps
    the group input 5 to the group output 2, both of batch 4; all the
    tensors have height 32. *)
Definition twin_ir : Ir :=
  {| getDefiningOp v :=
       match v with 1%nat => Some 0%nat | 2%nat => Some 1%nat | _ => None end;
     getOperands op :=
       match op with
       | 0%nat => [0%nat] | 1%nat => [5%nat] | 8%nat => [1%nat]
       | 9%nat => [2%nat] | _ => []
       end;
     getResults op :=
       match op with 0%nat => [1%nat] | 1%nat => [2%nat] | _ => [] end;
     getUsers v :=
       match v with
       | 0%nat => [0%nat] | 5%nat => [1%nat] | 1%nat => [8%nat]
       | 2%nat => [9%nat] | _ => []
       end;
     op_kind _ := OtherOp;
     isNoneType _ := false;
     getShape v :=
       match v with
       | 0%nat | 1%nat => [9; 8; 32; 16] | _ => [4; 8; 32; 16]
       end;
     getN v _ := match v with 0%nat | 1%nat => 9 | _ => 4 end;
     getH _ _ := 32;
     getStorageBitWidth _ := 32;
     AllowDataSplit _ _ _ := true;
     BackwardN _ := Examples.elementwise_backward;
     BackwardH _ := Examples.elementwise_backward |}.

Definition twin_lg : LgInfo :=
  {| group_ops := [0%nat; 1%nat];
     group_ins := [0%nat; 5%nat];
     group_outs := [1%nat; 2%nat];
     lg_type := 0 |}.

End MoreExamples.

(** * Properties *)

(** ** The exact output partition *)

Section Chains.

Variables st ln : Z -> Z.

Lemma seqZ_step (a : Z) (k : nat) :
  seqZ a (Z.of_nat (S k)) = a :: seqZ (a + 1) (Z.of_nat k).
Proof.
  rewrite seqZ_cons by lia. f_equal. f_equal; lia.
Qed.

Lemma tiles_chain (k : nat) : forall a,
  (forall i, a <= i < a + Z.of_nat k -> st (i + 1) = st i + ln i) ->
  tiles (st a) ((fun i : Z => (st i, ln i)) <$> seqZ a (Z.of_nat k)) (st (a + Z.of_nat k)).
Proof.
  induction k as [|k IH]; intros a Hstep.
  - simpl. f_equal. lia.
  - rewrite seqZ_step. cbn [fmap list_fmap tiles]. split; [reflexivity|].
    rewrite <- Hstep by lia.
    replace (a + Z.of_nat (S k)) with (a + 1 + Z.of_nat k) by lia.
    apply IH. intros i Hi. apply Hstep. lia.
Qed.

Lemma total_length_chain (k : nat) : forall a,
  (forall i, a <= i < a + Z.of_nat k -> st (i + 1) = st i + ln i) ->
  total_length ((fun i : Z => (st i, ln i)) <$> seqZ a (Z.of_nat k)) = st (a + Z.of_nat k) - st a.
Proof.
  induction k as [|k IH]; intros a Hstep.
  - change (Z.of_nat 0) with 0. rewrite Z.add_0_r, Z.sub_diag. reflexivity.
  - rewrite seqZ_step. cbn [fmap list_fmap total_length foldr snd].
    fold (total_length ((fun i : Z => (st i, ln i)) <$> seqZ (a + 1) (Z.of_nat k))).
    rewrite IH by (intros i Hi; apply Hstep; lia).
    rewrite (Hstep a) by lia.
    replace (a + 1 + Z.of_nat k) with (a + Z.of_nat (S k)) by lia. lia.
Qed.

Lemma sorted_disjoint_chain (k : nat) : forall a,
  (forall i, a <= i < a + Z.of_nat k -> st (i + 1) = st i + ln i) ->
  (forall i, a <= i < a + Z.of_nat k -> 0 < ln i) ->
  sorted_disjoint ((fun i : Z => (st i, ln i)) <$> seqZ a (Z.of_nat k)).
Proof.
  induction k as [|k IH]; intros a Hstep Hpos.
  - exact I.
  - rewrite seqZ_step. cbn [fmap list_fmap sorted_disjoint].
    split; [apply Hpos; lia|]. split.
    + destruct k as [|k']; [exact I|].
      rewrite seqZ_step. cbn [fmap list_fmap].
      rewrite (Hstep a) by lia. specialize (Hpos a). lia.
    + apply IH; intros i Hi; [apply Hstep | apply Hpos]; lia.
Qed.

End Chains.

(** In its range, the pair the source computes is the balanced one. *)
Lemma out_slice_pair_balanced (e s i : Z) :
  1 <= s -> 0 <= e -> 0 <= i < s ->
  out_slice_pair e s i = (balanced_start e s i, balanced_length e s i).
Proof.
  intros Hs He Hi. unfold out_slice_pair, balanced_start, balanced_length.
  rewrite Z.quot_div_nonneg, Z.rem_mod_nonneg by lia.
  pose proof (Z.div_mod e s ltac:(lia)) as Hdm.
  pose proof (Z.mod_pos_bound e s ltac:(lia)) as Hr.
  assert (0 <= e `div` s) as Hq by (apply Z.div_pos; lia).
  set (q := e `div` s) in *. set (r := e `mod` s) in *.
  assert (0 <= q * (s - i - 1)) as Hprod by nia.
  destruct (Z.gtb_spec r i) as [Hlt|Hge].
  - destruct (Z.ltb_spec i r); [|lia]. cbn [Z.b2z].
    rewrite Z.min_l by lia.
    destruct (Z.gtb_spec (e - (q * i + i)) (q + 1)); f_equal; nia.
  - destruct (Z.ltb_spec i r); [lia|]. cbn [Z.b2z].
    rewrite Z.min_r by lia.
    destruct (Z.gtb_spec (e - (q * i + r)) (q + 0)); f_equal; nia.
Qed.

Lemma balanced_start_step (e s i : Z) :
  balanced_start e s (i + 1) = balanced_start e s i + balanced_length e s i.
Proof.
  unfold balanced_start, balanced_length.
  destruct (Z.ltb_spec i (e `mod` s)); lia.
Qed.

Lemma out_slices_balanced_fmap (e s : Z) :
  1 <= s -> 0 <= e ->
  out_slices e s =
  (fun i => (balanced_start e s i, balanced_length e s i)) <$> seqZ 0 s.
Proof.
  intros Hs He. unfold out_slices. apply list_fmap_ext.
  intros k i Hk. apply lookup_seqZ in Hk as [-> Hk].
  apply out_slice_pair_balanced; lia.
Qed.

Lemma out_slices_balanced (e s : Z) :
  1 <= s <= e -> balanced_partition e s (out_slices e s).
Proof.
  intros Hse. rewrite out_slices_balanced_fmap by lia.
  pose proof (Z.div_mod e s ltac:(lia)) as Hdm.
  pose proof (Z.mod_pos_bound e s ltac:(lia)) as Hr.
  assert (1 <= e `div` s) as Hq.
  { apply Z.div_le_lower_bound; lia. }
  assert (balanced_start e s 0 = 0) as H0.
  { unfold balanced_start. lia. }
  assert (balanced_start e s s = e) as Hend.
  { unfold balanced_start. lia. }
  assert (forall i, 0 <= i < s -> 0 < balanced_length e s i) as Hpos.
  { intros i _. unfold balanced_length. destruct (i <? e `mod` s); lia. }
  pose proof (tiles_chain (balanced_start e s) (balanced_length e s)
                (Z.to_nat s) 0 ltac:(intros i _; apply balanced_start_step))
    as Htiles.
  pose proof (sorted_disjoint_chain (balanced_start e s) (balanced_length e s)
                (Z.to_nat s) 0 ltac:(intros i _; apply balanced_start_step)
                ltac:(intros i Hi; apply Hpos; lia))
    as Hsorted.
  pose proof (total_length_chain (balanced_start e s) (balanced_length e s)
                (Z.to_nat s) 0 ltac:(intros i _; apply balanced_start_step))
    as Htotal.
  rewrite Z2Nat.id in Htiles, Hsorted, Htotal by lia.
  rewrite Z.add_0_l, H0, Hend in Htiles.
  rewrite Z.add_0_l, H0, Hend, Z.sub_0_r in Htotal.
  split; [|split; [split; [|split]|]]; try assumption.
  - rewrite length_fmap, length_seqZ. reflexivity.
  - intros i Hi. rewrite list_lookup_fmap.
    rewrite (proj2 (lookup_seqZ 0 s (Z.to_nat i) i)) by lia. reflexivity.
Qed.

(** C3 (as amended): for an extent [e >= 1] and a section count [s] with
    [1 <= s <= e], on the batch and on the height dimension alike,
    [get_out_slice_info] cuts [[0,e)] into exactly [s] contiguous,
    sorted, non-empty pieces whose lengths sum to [e]; piece [i] has the
    length [e / s], plus one for the first [e mod s] pieces: the
    remainder is spread over the leading pieces, one element each. *)
Theorem get_out_slice_info_balanced (shape_secs : shape_secs_t) (n h : Z) :
  1 <= nsecs shape_secs <= n ->
  1 <= hsecs shape_secs <= h ->
  balanced_partition n (nsecs shape_secs)
    (si_n (get_out_slice_info shape_secs n h)) /\
  balanced_partition h (hsecs shape_secs)
    (si_h (get_out_slice_info shape_secs n h)).
Proof.
  intros Hn Hh. split; cbn [get_out_slice_info si_n si_h];
    apply out_slices_balanced; assumption.
Qed.

Lemma get_out_slice_info_balanced_witness :
  balanced_partition 5 2 (si_n (get_out_slice_info (mk_shape_secs 2 4) 5 32)) /\
  balanced_partition 32 4 (si_h (get_out_slice_info (mk_shape_secs 2 4) 5 32)).
Proof.
  apply (get_out_slice_info_balanced (mk_shape_secs 2 4) 5 32); simpl; lia.
Defined.

(** C3 (as stated) fails: an extent of 10 cut in 4 sections gives the
    pieces (0,3), (3,3), (6,2) and (8,2).  The remainder 2 went to the
    first two pieces, one element each; the last piece has the plain
    length [10 / 4 = 2], and the pieces before it do not have one common
    length, where the layout of the spec would be (0,2), (2,2), (4,2)
    and (6,4). *)
Lemma get_out_slice_info_last_piece_counterexample :
  si_n (get_out_slice_info (mk_shape_secs 4 1) 10 1)
  = [(0, 3); (3, 3); (6, 2); (8, 2)] /\
  spec_last_absorbs_slices 10 4 = [(0, 2); (2, 2); (4, 2); (6, 4)] /\
  si_n (get_out_slice_info (mk_shape_secs 4 1) 10 1)
    <> spec_last_absorbs_slices 10 4 /\
  ~ equal_but_last (si_n (get_out_slice_info (mk_shape_secs 4 1) 10 1)).
Proof.
  split; [reflexivity|]. split; [reflexivity|]. split; [discriminate|].
  intros [len Hlen].
  assert (length (si_n (get_out_slice_info (mk_shape_secs 4 1) 10 1)) = 4%nat)
    as Hfour by reflexivity.
  pose proof (Hlen 0%nat (0, 3) ltac:(rewrite Hfour; lia) eq_refl) as H0.
  pose proof (Hlen 2%nat (6, 2) ltac:(rewrite Hfour; lia) eq_refl) as H2.
  cbn in H0, H2. lia.
Qed.

(** ** The buffer accountant *)

Lemma vec_add_length (v v' : list Z) (ts sz : Z) :
  vec_add v ts sz = Some v' -> length v' = length v.
Proof.
  unfold vec_add. destruct (_ && _); [|discriminate].
  destruct (v !! Z.to_nat ts); [|discriminate].
  intros [= <-]. apply length_insert.
Qed.

Lemma add_steps_length (count : nat) : forall ts sz v v',
  add_steps count ts sz v = Some v' -> length v' = length v.
Proof.
  induction count as [|count IH]; intros ts sz v v'; simpl.
  - intros [= <-]. reflexivity.
  - destruct (vec_add v ts sz) as [v1|] eqn:E; [|discriminate].
    intros H. apply IH in H. apply vec_add_length in E. congruence.
Qed.

Lemma update_lmem_req_length (T s e sz : Z) (v v' : list Z) :
  update_lmem_req T s e sz v = Some v' -> length v' = length v.
Proof.
  unfold update_lmem_req, add_range. destruct (s <=? e).
  - apply add_steps_length.
  - destruct (add_steps _ 0 sz v) as [v1|] eqn:E; [|discriminate].
    intros H. apply add_steps_length in H, E. congruence.
Qed.

Lemma fill_lmem_req_length (T : Z) (bufs : list mem_buffer_value_t) :
  forall v v', fill_lmem_req T bufs v = Some v' -> length v' = length v.
Proof.
  induction bufs as [|b bufs IH]; intros v v'; simpl.
  - intros [= <-]. reflexivity.
  - destruct (update_lmem_req _ _ _ _ v) as [v1|] eqn:E; [|discriminate].
    intros H. apply IH in H. apply update_lmem_req_length in E. congruence.
Qed.

Lemma vec_add_represents (T : Z) (v : list Z) (f : Z -> Z) (ts sz : Z) :
  represents T v f -> 0 <= ts < T ->
  exists v', vec_add v ts sz = Some v' /\
    represents T v' (fun j => f j + (if j =? ts then sz else 0)).
Proof.
  intros [Hlen Hf] Hts. unfold vec_add.
  destruct (Z.leb_spec 0 ts); [|lia].
  destruct (Z.ltb_spec ts (Z.of_nat (length v))); [|lia]. cbn [andb].
  rewrite (Hf ts Hts). eexists. split; [reflexivity|]. split.
  - rewrite length_insert. exact Hlen.
  - intros j Hj. destruct (Z.eqb_spec j ts) as [->|Hne].
    + rewrite list_lookup_insert_eq by lia. reflexivity.
    + rewrite list_lookup_insert_ne by lia. rewrite (Hf j Hj). f_equal. lia.
Qed.

Lemma represents_ext (T : Z) (v : list Z) (f g : Z -> Z) :
  represents T v f -> (forall ts, 0 <= ts < T -> f ts = g ts) ->
  represents T v g.
Proof.
  intros [Hlen Hf] Hfg. split; [exact Hlen|].
  intros ts Hts. rewrite (Hf ts Hts), (Hfg ts Hts). reflexivity.
Qed.

Lemma add_steps_represents (T sz : Z) (count : nat) : forall ts v f,
  represents T v f -> 0 <= ts -> ts + Z.of_nat count <= T ->
  exists v', add_steps count ts sz v = Some v' /\
    represents T v'
      (fun j => f j + (if (ts <=? j) && (j <? ts + Z.of_nat count) then sz else 0)).
Proof.
  induction count as [|count IH]; intros ts v f Hrep Hts Hend.
  - exists v. split; [reflexivity|]. eapply represents_ext; [exact Hrep|].
    intros j _. cbn beta.
    destruct (Z.leb_spec ts j), (Z.ltb_spec j (ts + Z.of_nat 0)); cbn; lia.
  - cbn [add_steps].
    destruct (vec_add_represents T v f ts sz Hrep ltac:(lia)) as (v1 & -> & Hrep1).
    destruct (IH (ts + 1) v1 _ Hrep1 ltac:(lia) ltac:(lia)) as (v2 & -> & Hrep2).
    exists v2. split; [reflexivity|]. eapply represents_ext; [exact Hrep2|].
    intros j _. cbn beta.
    destruct (Z.eqb_spec j ts), (Z.leb_spec (ts + 1) j), (Z.leb_spec ts j),
      (Z.ltb_spec j (ts + 1 + Z.of_nat count)),
      (Z.ltb_spec j (ts + Z.of_nat (S count))); cbn; lia.
Qed.

Lemma add_range_represents (T lo hi sz : Z) (v : list Z) (f : Z -> Z) :
  represents T v f -> 0 <= lo <= T -> hi < T ->
  exists v', add_range lo hi sz v = Some v' /\
    represents T v' (fun j => f j + (if (lo <=? j) && (j <=? hi) then sz else 0)).
Proof.
  intros Hrep Hlo Hhi. unfold add_range.
  destruct (add_steps_represents T sz (Z.to_nat (hi - lo + 1)) lo v f Hrep
              ltac:(lia) ltac:(lia)) as (v' & -> & Hrep').
  exists v'. split; [reflexivity|]. eapply represents_ext; [exact Hrep'|].
  intros j _. cbn beta.
  destruct (Z.leb_spec lo j), (Z.leb_spec j hi),
    (Z.ltb_spec j (lo + Z.of_nat (Z.to_nat (hi - lo + 1)))); cbn; lia.
Qed.

Lemma update_lmem_req_represents (T : Z) (b : mem_buffer_value_t)
  (v : list Z) (f : Z -> Z) :
  represents T v f -> in_schedule T b ->
  exists v', update_lmem_req T (start_ts b) (end_ts b) (size b) v = Some v' /\
    represents T v' (fun j => f j + (if live_at T b j then size b else 0)).
Proof.
  intros Hrep [Hs He]. unfold update_lmem_req, live_at.
  destruct (Z.leb_spec (start_ts b) (end_ts b)) as [Hle|Hgt].
  - apply add_range_represents; [assumption|lia..].
  - destruct (add_range_represents T 0 (end_ts b) (size b) v f Hrep
                ltac:(lia) ltac:(lia)) as (v1 & -> & Hrep1).
    destruct (add_range_represents T (start_ts b) (T - 1) (size b) v1 _ Hrep1
                ltac:(lia) ltac:(lia)) as (v2 & -> & Hrep2).
    exists v2. split; [reflexivity|]. eapply represents_ext; [exact Hrep2|].
    intros j _. cbn beta.
    destruct (Z.leb_spec 0 j), (Z.leb_spec j (end_ts b)),
      (Z.leb_spec (start_ts b) j), (Z.leb_spec j (T - 1)); cbn; lia.
Qed.

Lemma fill_lmem_req_represents (T : Z) (bufs : list mem_buffer_value_t) :
  forall v f, represents T v f -> Forall (in_schedule T) bufs ->
  exists v', fill_lmem_req T bufs v = Some v' /\
    represents T v' (fun j => f j + demand_at T bufs j).
Proof.
  induction bufs as [|b bufs IH]; intros v f Hrep Hin.
  - exists v. split; [reflexivity|]. eapply represents_ext; [exact Hrep|].
    intros j _. cbn. lia.
  - apply Forall_cons in Hin as [Hb Hin]. cbn [fill_lmem_req].
    destruct (update_lmem_req_represents T b v f Hrep Hb) as (v1 & -> & Hrep1).
    destruct (IH v1 _ Hrep1 Hin) as (v2 & -> & Hrep2).
    exists v2. split; [reflexivity|]. eapply represents_ext; [exact Hrep2|].
    intros j _. cbn [demand_at foldr].
    fold (demand_at T bufs j). lia.
Qed.

(** After the descending sort, element 0 is the largest entry. *)
Lemma stable_sort_greater_head (l : list Z) :
  l <> [] ->
  exists m rest, stable_sort_greater l = m :: rest /\
    m ∈ l /\ forall x, x ∈ l -> x <= m.
Proof.
  induction l as [|x l IH]; [congruence|]. intros _.
  destruct l as [|y l].
  - exists x, []. split; [reflexivity|]. split; [left|].
    intros z Hz. apply list_elem_of_singleton in Hz. lia.
  - destruct (IH ltac:(discriminate)) as (m & rest & Hsort & Hin & Hmax).
    change (stable_sort_greater (x :: y :: l))
      with (insert_greater x (stable_sort_greater (y :: l))).
    rewrite Hsort. cbn [insert_greater].
    destruct (Z.gtb_spec m x) as [Hgt|Hle].
    + eexists _, _. split; [reflexivity|]. split; [right; exact Hin|].
      intros z Hz. apply elem_of_cons in Hz as [->|Hz]; [lia|auto].
    + eexists _, _. split; [reflexivity|]. split; [left|].
      intros z Hz. apply elem_of_cons in Hz as [->|Hz]; [lia|].
      specialize (Hmax z Hz). lia.
Qed.

Lemma replicate_represents (T : Z) :
  0 <= T -> represents T (replicate (Z.to_nat T) 0) (fun _ => 0).
Proof.
  intros HT. split.
  - rewrite length_replicate. lia.
  - intros ts Hts. apply lookup_replicate_2. lia.
Qed.

Lemma represents_peak (T : Z) (v : list Z) (f : Z -> Z) :
  1 <= T -> represents T v f ->
  exists p rest, stable_sort_greater v = p :: rest /\
    (exists ts, 0 <= ts < T /\ f ts = p) /\
    (forall ts, 0 <= ts < T -> f ts <= p).
Proof.
  intros HT [Hlen Hf].
  destruct (stable_sort_greater_head v) as (p & rest & Hsort & Hin & Hmax).
  { intros ->. cbn in Hlen. lia. }
  exists p, rest. split; [exact Hsort|]. split.
  - apply list_elem_of_lookup in Hin as [k Hk].
    pose proof (lookup_lt_Some _ _ _ Hk) as Hlt.
    exists (Z.of_nat k). split; [lia|].
    specialize (Hf (Z.of_nat k) ltac:(lia)).
    rewrite Nat2Z.id in Hf. congruence.
  - intros ts Hts. apply Hmax. apply list_elem_of_lookup.
    exists (Z.to_nat ts). apply Hf. exact Hts.
Qed.

Lemma demand_at_nonneg (T : Z) (bufs : list mem_buffer_value_t) (ts : Z) :
  Forall (fun b => 0 <= size b) bufs -> 0 <= demand_at T bufs ts.
Proof.
  induction 1 as [|b bufs Hb _ IH]; cbn [demand_at foldr]; [lia|].
  fold (demand_at T bufs ts). destruct (live_at T b ts); lia.
Qed.

Lemma ceiling_func_is_ceiling (p c : Z) :
  0 <= p -> 0 < c -> is_ceiling p c (ceiling_func p c).
Proof.
  intros Hp Hc. unfold is_ceiling, ceiling_func.
  rewrite Z.quot_div_nonneg by lia.
  pose proof (Z.div_mod (p + c - 1) c ltac:(lia)) as Hdm.
  pose proof (Z.mod_pos_bound (p + c - 1) c Hc) as Hr.
  nia.
Qed.

(** What [get_split_max_secs] computes on a schedule whose buffers lie
    inside it. *)
Lemma get_split_max_secs_spec (LMEM T : Z) (bufs : list mem_buffer_value_t) :
  1 <= T -> Forall (in_schedule T) bufs -> LMEM <> 0 ->
  exists p, get_split_max_secs LMEM T bufs = Ret (ceiling_func p LMEM) /\
    is_peak T bufs p.
Proof.
  intros HT Hin HL. unfold get_split_max_secs.
  destruct (Z.ltb_spec T 0); [lia|].
  destruct (fill_lmem_req_represents T bufs _ _
              (replicate_represents T ltac:(lia)) Hin) as (v & -> & Hrep).
  cbn [of_option obind].
  destruct (represents_peak T v _ HT Hrep) as (p & rest & -> & Hreach & Hmax).
  cbn [lookup list_lookup of_option obind].
  destruct (Z.eqb_spec LMEM 0); [contradiction|].
  exists p. split; [reflexivity|]. split.
  - destruct Hreach as (ts & Hts & Hp). exists ts. split; [exact Hts|]. lia.
  - intros ts Hts. specialize (Hmax ts Hts). cbn beta in Hmax. lia.
Qed.

(** C5: on a schedule of [T >= 1] time steps whose buffers lie inside
    it and have non-negative sizes, with a positive capacity,
    [get_split_max_secs] returns the ceiling of [P / capacity], where [P]
    is the peak over the time steps of the summed sizes of the buffers
    live at the step: a buffer with [start <= end] is live on
    [[start,end]], a wrapping one on [[0,end]] and on [[start,T-1]]. *)
Theorem get_split_max_secs_peak_ceiling
  (LMEM T : Z) (bufs : list mem_buffer_value_t) :
  1 <= T ->
  Forall (in_schedule T) bufs ->
  Forall (fun b => 0 <= size b) bufs ->
  0 < LMEM ->
  exists p r, get_split_max_secs LMEM T bufs = Ret r /\
    is_peak T bufs p /\ is_ceiling p LMEM r.
Proof.
  intros HT Hin Hsize HL.
  destruct (get_split_max_secs_spec LMEM T bufs HT Hin ltac:(lia))
    as (p & Hret & Hpeak).
  exists p, (ceiling_func p LMEM). split; [exact Hret|]. split; [exact Hpeak|].
  apply ceiling_func_is_ceiling; [|exact HL].
  destruct Hpeak as [(ts & _ & <-) _]. apply demand_at_nonneg, Hsize.
Qed.

Lemma get_split_max_secs_peak_ceiling_witness :
  exists p r,
    get_split_max_secs 100 3
      [mk_mem_buffer 0 1 60; mk_mem_buffer 2 0 70; mk_mem_buffer 1 2 50] = Ret r /\
    is_peak 3 [mk_mem_buffer 0 1 60; mk_mem_buffer 2 0 70; mk_mem_buffer 1 2 50] p /\
    is_ceiling p 100 r.
Proof.
  apply (get_split_max_secs_peak_ceiling 100 3
           [mk_mem_buffer 0 1 60; mk_mem_buffer 2 0 70; mk_mem_buffer 1 2 50]).
  - lia.
  - repeat constructor; simpl; lia.
  - repeat constructor; simpl; lia.
  - lia.
Defined.

(** C9: [get_split_max_secs] reads [lmem_req[0]] whatever the schedule
    is.  With at least one time step and every buffer's [start] and
    [end] in [[0,T)], every subscript is in range (the wrap-case
    additions over [[0,end]] and [[start,T-1]] included) and the
    function returns; with no time step the read of element 0 is out of
    range, whatever the buffers are. *)
Theorem get_split_max_secs_in_bounds
  (LMEM T : Z) (bufs : list mem_buffer_value_t) :
  LMEM <> 0 ->
  1 <= T ->
  Forall (in_schedule T) bufs ->
  (exists r, get_split_max_secs LMEM T bufs = Ret r) /\
  (forall bufs', get_split_max_secs LMEM 0 bufs' = Undef).
Proof.
  intros HL HT Hin. split.
  - destruct (get_split_max_secs_spec LMEM T bufs HT Hin HL) as (p & Hret & _).
    eauto.
  - intros bufs'. unfold get_split_max_secs.
    destruct (Z.ltb_spec 0 0); [lia|].
    destruct (fill_lmem_req 0 bufs' _) as [v|] eqn:E; [|reflexivity].
    apply fill_lmem_req_length in E. rewrite length_replicate in E.
    destruct v as [|x v]; [reflexivity|]. cbn in E. lia.
Qed.

Lemma get_split_max_secs_in_bounds_witness :
  (exists r, get_split_max_secs 100 3
               [mk_mem_buffer 2 0 70; mk_mem_buffer 0 1 60] = Ret r) /\
  (forall bufs', get_split_max_secs 100 0 bufs' = Undef).
Proof.
  apply (get_split_max_secs_in_bounds 100 3
           [mk_mem_buffer 2 0 70; mk_mem_buffer 0 1 60]).
  - lia.
  - lia.
  - repeat constructor; simpl; lia.
Defined.

(** ** Backward mapping of one operand *)

(** With the broadcast flag on, the batch loop never fails and never
    looks at what the callback returns. *)
Lemma backward_n_loop_broadcast (ir : Ir) (op : Operation)
  (out_n : list slice_pair_t) : forall idx slice acc,
  backward_n_loop ir op true idx slice out_n acc
  = Some (acc ++ ((fun _ => (0, 1)) <$> out_n)).
Proof.
  induction out_n as [|s rest IH]; intros idx slice acc; cbn [backward_n_loop].
  - rewrite app_nil_r. reflexivity.
  - destruct (BackwardN ir op idx slice s.1 s.2) as [[ret idx'] slice'].
    rewrite IH, <- app_assoc. reflexivity.
Qed.

Lemma backward_h_loop_broadcast (ir : Ir) (op : Operation)
  (out_h : list slice_pair_t) : forall idx slice pre_end_idx i acc,
  backward_h_loop ir op true idx slice pre_end_idx i out_h acc
  = Some (acc ++ ((fun _ => (0, 1)) <$> out_h)).
Proof.
  induction out_h as [|s rest IH]; intros idx slice pre i acc;
    cbn [backward_h_loop].
  - rewrite app_nil_r. reflexivity.
  - destruct (BackwardH ir op idx slice s.1 s.2) as [[ret idx'] slice'].
    rewrite IH, <- app_assoc. reflexivity.
Qed.

(** C4 (as amended): for an Add, Sub, Mul, Max or Min operation and an
    operand of it that [is_broadcast_binary] recognises as a broadcast
    operand and whose true extent on a dimension is 1,
    [get_backward_slice_info] leaves on that dimension the degenerate
    pair (0,1) for every output slice (the single pair (0,1) when the
    dimension is not cut), whatever the split factors are and whatever
    the callback of that dimension returns; the function can only fail
    through the other dimension. *)
Theorem get_backward_slice_info_broadcast (ir : Ir)
  (in_si out_si : slice_info_t) (op : Operation) (in_ : Value)
  (shape_secs : shape_secs_t) (group_type : group_type_t) :
  is_broadcast_binary ir op in_ = Ret true ->
  (getH ir in_ group_type = 1 ->
   get_backward_slice_info ir in_si out_si op in_ shape_secs group_type
   = Ret ((fun in_n =>
             mk_slice_info in_n
               (si_h in_si ++ degenerate_slices (hsecs shape_secs) (si_h out_si)))
          <$> backward_n ir in_si out_si op shape_secs
                (getN ir in_ group_type) true)) /\
  (getN ir in_ group_type = 1 ->
   get_backward_slice_info ir in_si out_si op in_ shape_secs group_type
   = Ret (mk_slice_info
            (si_n in_si ++ degenerate_slices (nsecs shape_secs) (si_n out_si))
          <$> backward_h ir in_si out_si op shape_secs
                (getH ir in_ group_type) true)).
Proof.
  intros Hbc. unfold get_backward_slice_info. rewrite Hbc. cbn [obind].
  split; intros Hone.
  - destruct (backward_n ir in_si out_si op shape_secs _ true) as [in_n|];
      [|reflexivity].
    unfold backward_h, degenerate_slices. rewrite Hone. cbn [fmap option_fmap option_map].
    destruct (hsecs shape_secs =? 1); [reflexivity|].
    cbn [andb Z.eqb Pos.eqb]. rewrite backward_h_loop_broadcast. reflexivity.
  - unfold backward_n at 1, degenerate_slices. rewrite Hone.
    destruct (nsecs shape_secs =? 1).
    + destruct (backward_h ir in_si out_si op shape_secs _ true); reflexivity.
    + cbn [andb Z.eqb Pos.eqb]. rewrite backward_n_loop_broadcast.
      destruct (backward_h ir in_si out_si op shape_secs _ true); reflexivity.
Qed.

Lemma get_backward_slice_info_broadcast_witness :
  get_backward_slice_info (Examples.chain_ir (Examples.conv3x3_backward 32))
    empty_slice_info (mk_slice_info [(0, 1)] [(0, 16); (16, 16)])
    1%nat 2%nat (mk_shape_secs 1 2) 0
  = Ret (Some (mk_slice_info [(0, 1)] [(0, 1); (0, 1)])) /\
  get_backward_slice_info (Examples.chain_ir (Examples.conv3x3_backward 32))
    empty_slice_info (mk_slice_info [(0, 2); (2, 2)] [(0, 32)])
    1%nat 2%nat (mk_shape_secs 2 1) 0
  = Ret (Some (mk_slice_info [(0, 1); (0, 1)] [(0, 1)])).
Proof.
  split.
  - destruct (get_backward_slice_info_broadcast
                (Examples.chain_ir (Examples.conv3x3_backward 32))
                empty_slice_info (mk_slice_info [(0, 1)] [(0, 16); (16, 16)])
                1%nat 2%nat (mk_shape_secs 1 2) 0 eq_refl) as [Hh _].
    rewrite (Hh eq_refl). reflexivity.
  - destruct (get_backward_slice_info_broadcast
                (Examples.chain_ir (Examples.conv3x3_backward 32))
                empty_slice_info (mk_slice_info [(0, 2); (2, 2)] [(0, 32)])
                1%nat 2%nat (mk_shape_secs 2 1) 0 eq_refl) as [_ Hn].
    rewrite (Hn eq_refl). reflexivity.
Defined.

(** C4 (as stated) fails for the operations [is_broadcast_binary] does
    not list.  The condition of a select, of batch 1 against a batch of
    4 for the other operands and the result, is not given the pair
    (0,1) when the batch is cut in two: it gets the slices (0,2),(2,2)
    that the callback returns.  Nor is the divisor of a division, of
    height 1 against a height of 32, when the height is cut in two: it
    gets (0,16),(16,16). *)
Lemma get_backward_slice_info_broadcast_counterexample :
  (getOperands Examples.select_ir 1%nat = [5%nat; 1%nat; 6%nat] /\
   getN Examples.select_ir 5%nat 0 = 1 /\
   getN Examples.select_ir 1%nat 0 = 4 /\
   get_backward_slice_info Examples.select_ir empty_slice_info
     (mk_slice_info [(0, 2); (2, 2)] [(0, 32)]) 1%nat 5%nat
     (mk_shape_secs 2 1) 0
   = Ret (Some (mk_slice_info [(0, 2); (2, 2)] [(0, 32)]))) /\
  (op_kind MoreExamples.div_ir 1%nat = DivOp /\
   getOperands MoreExamples.div_ir 1%nat = [1%nat; 2%nat] /\
   getH MoreExamples.div_ir 2%nat 0 = 1 /\
   getH MoreExamples.div_ir 1%nat 0 = 32 /\
   get_backward_slice_info MoreExamples.div_ir empty_slice_info
     (mk_slice_info [(0, 1)] [(0, 16); (16, 16)]) 1%nat 2%nat
     (mk_shape_secs 1 2) 0
   = Ret (Some (mk_slice_info [(0, 1)] [(0, 16); (16, 16)]))).
Proof.
  repeat split; vm_compute; reflexivity.
Qed.

(** The accumulator of the height loop is only appended to. *)
Lemma backward_h_loop_acc (ir : Ir) (op : Operation) (bc : bool)
  (out_h : list slice_pair_t) : forall idx slice pre i acc,
  backward_h_loop ir op bc idx slice pre i out_h acc
  = (app acc) <$> backward_h_loop ir op bc idx slice pre i out_h [].
Proof.
  induction out_h as [|s rest IH]; intros idx slice pre i acc;
    cbn [backward_h_loop].
  - cbn. rewrite app_nil_r. reflexivity.
  - destruct (BackwardH ir op idx slice s.1 s.2) as [[ret idx'] slice'].
    destruct bc.
    + rewrite (IH _ _ _ _ (acc ++ _)), (IH _ _ _ _ ([] ++ _)).
      destruct (backward_h_loop ir op true 0 1 (0 + 1) (i + 1) rest []);
        cbn; [rewrite <- app_assoc|]; reflexivity.
    + destruct (_ || _); [reflexivity|].
      rewrite (IH _ _ _ _ (acc ++ _)), (IH _ _ _ _ ([] ++ _)).
      destruct (backward_h_loop ir op false idx' slice' _ (i + 1) rest []);
        cbn; [rewrite <- app_assoc|]; reflexivity.
Qed.

(** Running the height loop on [prefix ++ l] is running it on [prefix]
    and going on with [l] from the state the last mapped slice left. *)
Lemma backward_h_loop_app (ir : Ir) (op : Operation)
  (prefix : list slice_pair_t) : forall idx slice pre i in_prefix l,
  backward_h_loop ir op false idx slice pre i prefix [] = Some in_prefix ->
  length in_prefix = length prefix /\
  backward_h_loop ir op false idx slice pre i (prefix ++ l) []
  = match last in_prefix with
    | Some (idx2, slice2) =>
        backward_h_loop ir op false idx2 slice2 (idx2 + slice2)
          (i + Z.of_nat (length prefix)) l in_prefix
    | None => backward_h_loop ir op false idx slice pre i l []
    end.
Proof.
  induction prefix as [|s rest IH]; intros idx slice pre i in_prefix l.
  - cbn. intros [= <-]. split; reflexivity.
  - cbn [backward_h_loop app].
    destruct (BackwardH ir op idx slice s.1 s.2) as [[ret idx'] slice'].
    destruct (_ || _); [discriminate|].
    rewrite !(backward_h_loop_acc ir op false _ _ _ _ _ [_]).
    destruct (backward_h_loop ir op false idx' slice' _ (i + 1) rest [])
      as [done|] eqn:Erest; [|discriminate].
    cbn [fmap option_fmap option_map app]. intros [= <-].
    destruct (IH _ _ _ _ _ l Erest) as [Hlen Happ].
    split; [cbn; lia|]. rewrite Happ, last_cons.
    replace (i + Z.of_nat (length (s :: rest)))
      with (i + 1 + Z.of_nat (length rest)) by (cbn [length]; lia).
    destruct (last done) as [[a b]|] eqn:Elast.
    + rewrite (backward_h_loop_acc ir op false l _ _ _ _ done).
      rewrite (backward_h_loop_acc ir op false l _ _ _ _ (_ :: done)).
      destruct (backward_h_loop ir op false a b _ _ l []); reflexivity.
    + apply last_None in Elast. subst done.
      destruct rest; [|discriminate Hlen]. cbn [length].
      rewrite (backward_h_loop_acc ir op false l _ _ _ _ [_]).
      replace (i + 1 + Z.of_nat 0) with (i + 1) by lia.
      destruct (backward_h_loop ir op false idx' slice' _ (i + 1) l []);
        reflexivity.
Qed.

(** C10: on the height dimension with [hsecs != 1] (so for every
    [hsecs > 1]) and an operand not treated as a broadcast operand, once
    the first output slices have been mapped, the mapping of the next
    one makes [get_backward_slice_info] return false when the operation
    rejects it, when the mapped slice is empty, when it starts at index 0
    although it is not the first slice, or when it ends where the
    previous mapped slice ended (at 0 for the first slice). *)
Theorem get_backward_slice_info_height_stall (ir : Ir)
  (in_si out_si : slice_info_t) (op : Operation) (in_ : Value)
  (shape_secs : shape_secs_t) (group_type : group_type_t)
  (is_broadcast_tensor : bool) (prefix rest in_prefix : list slice_pair_t)
  (s : slice_pair_t) (pidx pslice pre_end_idx idx slice : Z) (ret : bool) :
  hsecs shape_secs <> 1 ->
  is_broadcast_binary ir op in_ = Ret is_broadcast_tensor ->
  is_broadcast_tensor && (getH ir in_ group_type =? 1) = false ->
  si_h out_si = prefix ++ s :: rest ->
  backward_h_loop ir op false 0 0 0 0 prefix [] = Some in_prefix ->
  h_loop_state in_prefix = (pidx, pslice, pre_end_idx) ->
  BackwardH ir op pidx pslice s.1 s.2 = (ret, idx, slice) ->
  ret = false \/ slice = 0 \/ (idx = 0 /\ prefix <> []) \/
    idx + slice = pre_end_idx ->
  get_backward_slice_info ir in_si out_si op in_ shape_secs group_type
  = Ret None.
Proof.
  intros Hsecs Hbc Hnb Hout Hprefix Hstate Hcb Hbad.
  unfold get_backward_slice_info. rewrite Hbc. cbn [obind].
  destruct (backward_n ir in_si out_si op shape_secs _ _); [|reflexivity].
  unfold backward_h. destruct (Z.eqb_spec (hsecs shape_secs) 1); [contradiction|].
  rewrite Hnb, Hout, backward_h_loop_acc.
  destruct (backward_h_loop_app ir op prefix _ _ _ _ _ (s :: rest) Hprefix)
    as [Hlen ->].
  assert (forall i acc, (0 < i <-> prefix <> []) ->
            backward_h_loop ir op false pidx pslice pre_end_idx i (s :: rest) acc
            = None) as Hfail.
  { intros i acc Hi. cbn [backward_h_loop]. rewrite Hcb.
    destruct Hbad as [->|[->|[[-> Hne]|<-]]].
    - reflexivity.
    - cbn [Z.eqb]. rewrite orb_true_r. reflexivity.
    - cbn [Z.eqb]. destruct (Z.gtb_spec i 0) as [|Hle].
      + cbn [andb]. rewrite orb_true_r. reflexivity.
      + apply Hi in Hne. lia.
    - rewrite Z.eqb_refl, orb_true_r. reflexivity. }
  unfold h_loop_state in Hstate.
  destruct (last in_prefix) as [[a b]|] eqn:Elast.
  - injection Hstate as <- <- <-. rewrite Hfail; [reflexivity|].
    split; [intros _ ->; destruct in_prefix; discriminate|].
    intros _. destruct prefix; [|cbn [length]; lia].
    destruct in_prefix; discriminate.
  - injection Hstate as <- <- <-. rewrite Hfail; [reflexivity|].
    apply last_None in Elast. subst in_prefix.
    destruct prefix; [|discriminate Hlen]. split; [lia|congruence].
Qed.

Lemma get_backward_slice_info_height_stall_witness :
  get_backward_slice_info (Examples.chain_ir (Examples.global_pool_backward 32))
    empty_slice_info (mk_slice_info [(0, 1)] [(0, 16); (16, 16)])
    0%nat 0%nat (mk_shape_secs 1 2) 0
  = Ret None.
Proof.
  apply (get_backward_slice_info_height_stall
           (Examples.chain_ir (Examples.global_pool_backward 32))
           empty_slice_info (mk_slice_info [(0, 1)] [(0, 16); (16, 16)])
           0%nat 0%nat (mk_shape_secs 1 2) 0
           false [(0, 16)] [] [(0, 32)] (16, 16) 0 32 32 0 32 true).
  - discriminate.
  - reflexivity.
  - reflexivity.
  - reflexivity.
  - reflexivity.
  - reflexivity.
  - reflexivity.
  - right. right. left. split; [reflexivity|discriminate].
Defined.

(** ** The propagator *)

Lemma all_same_slices_eq (l0 l1 : list slice_pair_t) :
  length l0 = length l1 -> (all_same_slices l0 l1 = true <-> l0 = l1).
Proof.
  revert l1. induction l0 as [|[a0 a1] l0 IH]; intros [|[b0 b1] l1] Hlen;
    try discriminate Hlen.
  - split; reflexivity.
  - cbn [all_same_slices]. unfold is_same_slice. cbn [fst snd].
    destruct (Z.eqb_spec a0 b0) as [->|Hne0];
      [destruct (Z.eqb_spec a1 b1) as [->|Hne1]|]; cbn [andb].
    + rewrite IH by (cbn in Hlen; lia). split; [intros ->|intros [= ->]]; reflexivity.
    + split; [discriminate|intros [= ?]; contradiction].
    + split; [discriminate|intros [= ? ?]; contradiction].
Qed.

(** [is_same_slice_info] decides structural identity: the same ordered
    pairs on the batch and on the height dimension. *)
Lemma is_same_slice_info_eq (si0 si1 : slice_info_t) :
  is_same_slice_info si0 si1 = true <-> si0 = si1.
Proof.
  destruct si0 as [n0 h0], si1 as [n1 h1]. unfold is_same_slice_info.
  cbn [si_n si_h].
  destruct (Nat.eqb_spec (length n0) (length n1)) as [Hn|Hn]; cbn [negb orb].
  - destruct (Nat.eqb_spec (length h0) (length h1)) as [Hh|Hh]; cbn [negb].
    + pose proof (all_same_slices_eq n0 n1 Hn) as En.
      pose proof (all_same_slices_eq h0 h1 Hh) as Eh.
      destruct (all_same_slices n0 n1); cbn [negb].
      * destruct (all_same_slices h0 h1); cbn [negb].
        -- split; [intros _|reflexivity].
           f_equal; [apply En|apply Eh]; reflexivity.
        -- split; [discriminate|]. intros [= _ ->]. apply Eh. reflexivity.
      * split; [discriminate|]. intros [= -> _]. apply En. reflexivity.
    + split; [discriminate|]. intros [= _ ->]. contradiction.
  - split; [discriminate|]. intros [= -> _]. contradiction.
Qed.

Section PropagatorFacts.

Context (ir : Ir) (lg_info : LgInfo) (shape_secs : shape_secs_t).

Lemma judge_users_sound (ops users : list Operation) :
  forall b b', judge_users lg_info ops users b = Some b' ->
  forall u, u ∈ users -> u ∈ group_ops lg_info -> u ∈ ops.
Proof.
  induction users as [|op users IH]; intros b b' Hj u Hu Hg.
  - apply elem_of_nil in Hu. contradiction.
  - cbn [judge_users] in Hj. apply elem_of_cons in Hu as [->|Hu].
    + rewrite bool_decide_eq_true_2 in Hj by exact Hg.
      destruct (bool_decide (op ∈ ops)) eqn:E; [|discriminate].
      apply bool_decide_eq_true_1 in E. exact E.
    + destruct (bool_decide (op ∈ group_ops lg_info));
        [destruct (bool_decide (op ∈ ops)); [|discriminate]|];
        eapply IH; eassumption.
Qed.

Lemma strip_back_judge_sound (v : Value) (ops : list Operation)
  (out_tensor_set : gset Value) :
  strip_back_judge ir lg_info v ops out_tensor_set = true ->
  forall u, u ∈ getUsers ir v -> u ∈ group_ops lg_info -> u ∈ ops.
Proof.
  unfold strip_back_judge.
  destruct (judge_users lg_info ops (getUsers ir v) false) eqn:E; [|discriminate].
  intros _. eapply judge_users_sound. exact E.
Qed.


(** What a successful pass over the operands of [op] leaves behind. *)
Lemma backward_operands_success (op : Operation) (out_si : slice_info_t)
  (out_tensor_set : gset Value) (operands : list Value) :
  forall st st',
  backward_operands ir lg_info shape_secs op out_si out_tensor_set operands st
  = Ret (true, st') ->
  tensor_infos st ⊆ tensor_infos st' /\
  op_set st' = op_set st /\
  (exists pushed,
     tensor_branchs st' = tensor_branchs st ++ pushed /\
     Forall (fun v =>
               strip_back_judge ir lg_info v (op_set st) out_tensor_set = true /\
               is_Some (tensor_infos st' !! v)) pushed) /\
  (forall in_, in_ ∈ operands -> skipped_operand ir in_ = false ->
     exists si,
       get_backward_slice_info ir empty_slice_info out_si op in_ shape_secs
         (lg_type lg_info) = Ret (Some si) /\
       tensor_infos st' !! in_ = Some si) /\
  (forall v si, tensor_infos st' !! v = Some si ->
     tensor_infos st !! v = Some si \/
     get_backward_slice_info ir empty_slice_info out_si op v shape_secs
       (lg_type lg_info) = Ret (Some si)).
Proof.
  induction operands as [|x rest IH]; intros st st' H.
  - cbn in H. injection H as <-.
    split; [reflexivity|]. split; [reflexivity|]. split.
    { exists []. rewrite app_nil_r. split; [reflexivity|constructor]. }
    split; [|intros; left; assumption].
    intros in_ Hin. apply elem_of_nil in Hin. contradiction.
  - cbn [backward_operands] in H.
    destruct (skipped_operand ir x) eqn:Eskip.
    { destruct (IH _ _ H) as (Hsub & Hops & Hpush & Hcons & Horigin).
      split; [exact Hsub|]. split; [exact Hops|]. split; [exact Hpush|].
      split; [|exact Horigin].
      intros in_ Hin Hs. apply elem_of_cons in Hin as [->|Hin]; [congruence|].
      apply Hcons; assumption. }
    destruct (get_backward_slice_info ir empty_slice_info out_si op x shape_secs
                (lg_type lg_info)) as [[si|]| |] eqn:Eb;
      cbn [obind] in H; try discriminate.
    assert (exists infos1 pushed1,
              tensor_infos st ⊆ infos1 /\ infos1 !! x = Some si /\
              (forall v si', infos1 !! v = Some si' ->
                 tensor_infos st !! v = Some si' \/ (v = x /\ si' = si)) /\
              Forall (fun v =>
                        strip_back_judge ir lg_info v (op_set st) out_tensor_set
                        = true /\ is_Some (infos1 !! v)) pushed1 /\
              backward_operands ir lg_info shape_secs op out_si out_tensor_set
                rest (mk_prop_state (tensor_branchs st ++ pushed1) infos1
                        (op_set st)) = Ret (true, st'))
      as (infos1 & pushed1 & Hsub1 & Hx & Horigin1 & Hpushed1 & Hrest).
    { destruct (tensor_infos st !! x) as [old|] eqn:Eold.
      - destruct (is_same_slice_info si old) eqn:Esame; cbn [negb] in H;
          [|discriminate].
        apply is_same_slice_info_eq in Esame. subst old.
        exists (tensor_infos st).
        destruct (strip_back_judge ir lg_info x (op_set st) out_tensor_set)
          eqn:Ej.
        + exists [x]. split; [reflexivity|]. split; [exact Eold|].
          split; [intros; left; assumption|]. split; [|exact H].
          constructor; [|constructor]. split; [exact Ej|]. rewrite Eold. eauto.
        + exists []. split; [reflexivity|]. split; [exact Eold|].
          split; [intros; left; assumption|]. split; [constructor|].
          rewrite app_nil_r. destruct st. exact H.
      - exists (<[x := si]> (tensor_infos st)).
        destruct (strip_back_judge ir lg_info x (op_set st) out_tensor_set)
          eqn:Ej.
        + exists [x]. split; [apply insert_subseteq; exact Eold|].
          split; [apply lookup_insert_eq|]. split; [|split; [|exact H]].
          * intros v si' Hv. destruct (decide (x = v)) as [<-|Hne].
            -- rewrite lookup_insert_eq in Hv. injection Hv as <-. right. auto.
            -- rewrite lookup_insert_ne in Hv by exact Hne. left. exact Hv.
          * constructor; [|constructor]. split; [exact Ej|].
            rewrite lookup_insert_eq. eauto.
        + exists []. split; [apply insert_subseteq; exact Eold|].
          split; [apply lookup_insert_eq|]. split; [|split; [constructor|]].
          * intros v si' Hv. destruct (decide (x = v)) as [<-|Hne].
            -- rewrite lookup_insert_eq in Hv. injection Hv as <-. right. auto.
            -- rewrite lookup_insert_ne in Hv by exact Hne. left. exact Hv.
          * rewrite app_nil_r. exact H. }
    destruct (IH _ _ Hrest) as (Hsub & Hops & Hpush & Hcons & Horigin).
    cbn [tensor_infos op_set tensor_branchs] in Hsub, Hops, Hpush, Horigin.
    split; [etrans; eassumption|]. split; [exact Hops|]. split.
    { destruct Hpush as (pushed & Hbr & Hall). exists (pushed1 ++ pushed).
      split; [rewrite Hbr, app_assoc; reflexivity|].
      apply Forall_app. split; [|exact Hall].
      eapply Forall_impl; [exact Hpushed1|].
      intros v [Hj [si' Hv]]. split; [exact Hj|].
      exists si'. eapply lookup_weaken; eassumption. }
    split.
    + intros in_ Hin Hs. apply elem_of_cons in Hin as [->|Hin].
      * exists si. split; [exact Eb|]. eapply lookup_weaken; eassumption.
      * apply Hcons; assumption.
    + intros v si' Hv. destruct (Horigin v si' Hv) as [Hold|Hnew]; [|auto].
      destruct (Horigin1 v si' Hold) as [Hold'|[-> ->]]; [auto|].
      right. exact Eb.
Qed.











(** ** Records in exact mode *)

Lemma out_slices_one (n : Z) : out_slices n 1 = [(0, n)].
Proof.
  unfold out_slices. change (seqZ 0 1) with [0]. cbn [fmap list_fmap].
  unfold out_slice_pair. rewrite Z.rem_1_r, Z.quot_1_r.
  change (0 >? 0) with false. cbn [Z.b2z].
  rewrite Z.mul_0_r, !Z.add_0_r, Z.sub_0_r.
  destruct (Z.gtb_spec n n); [lia|reflexivity].
Qed.

Lemma get_out_slice_info_uncut (v : Value) :
  uncut_full ir lg_info shape_secs v
    (get_out_slice_info shape_secs (getN ir v (lg_type lg_info))
                        (getH ir v (lg_type lg_info))).
Proof.
  split; intros Hone; cbn [get_out_slice_info si_n si_h]; rewrite Hone;
    apply out_slices_one.
Qed.

Lemma get_backward_slice_info_uncut (out_si : slice_info_t) (op : Operation)
  (v : Value) (si : slice_info_t) :
  get_backward_slice_info ir empty_slice_info out_si op v shape_secs
    (lg_type lg_info) = Ret (Some si) ->
  uncut_full ir lg_info shape_secs v si.
Proof.
  unfold get_backward_slice_info.
  destruct (is_broadcast_binary ir op v) as [bc| |]; cbn [obind];
    try discriminate.
  destruct (backward_n _ _ _ _ _ _ _) as [in_n|] eqn:En; [|discriminate].
  destruct (backward_h _ _ _ _ _ _ _) as [in_h|] eqn:Eh; [|discriminate].
  intros [= <-]. split; intros Hone; cbn [si_n si_h].
  - unfold backward_n in En. rewrite Hone in En. cbn in En. congruence.
  - unfold backward_h in Eh. rewrite Hone in Eh. cbn in Eh. congruence.
Qed.

Lemma backward_update_slice_records (out : Value)
  (out_tensor_set : gset Value) (rest : list Value)
  (infos : gmap Value slice_info_t) (ops : list Operation) (st' : prop_state) :
  records_invariant ir lg_info shape_secs (mk_prop_state (out :: rest) infos ops) ->
  backward_update_slice ir lg_info shape_secs out out_tensor_set
    (mk_prop_state rest infos ops) = Ret (true, st') ->
  records_invariant ir lg_info shape_secs st'.
Proof.
  intros (Hfull & Hlisted & Houts) Hstep.
  cbn [tensor_infos tensor_branchs] in Hfull, Hlisted, Houts.
  unfold backward_update_slice in Hstep.
  destruct (bool_decide (out ∈ group_ins lg_info)).
  { injection Hstep as <-. split; [exact Hfull|]. split; [|exact Houts].
    intros v Hv. apply Hlisted. right. exact Hv. }
  destruct (getDefiningOp ir out) as [op|]; [|discriminate].
  cbn [tensor_infos tensor_branchs op_set] in Hstep.
  destruct (Hlisted out ltac:(left)) as [out_si Eout]. rewrite Eout in Hstep.
  apply backward_operands_success in Hstep
    as (Hsub & _ & (pushed & Hbr & Hpushed) & _ & Horigin).
  cbn [tensor_infos tensor_branchs op_set] in Hsub, Hbr, Hpushed, Horigin.
  split; [|split].
  - intros v si Hv. destruct (Horigin v si Hv) as [Hold|Hnew].
    + eapply Hfull. exact Hold.
    + eapply get_backward_slice_info_uncut. exact Hnew.
  - intros v Hv. rewrite Hbr in Hv. apply elem_of_app in Hv as [Hv|Hv].
    + destruct (Hlisted v ltac:(right; exact Hv)) as [si Hsi].
      exists si. eapply lookup_weaken; eassumption.
    + rewrite Forall_forall in Hpushed. apply (Hpushed v Hv).
  - intros o Ho. eapply lookup_weaken; [apply Houts; exact Ho|exact Hsub].
Qed.

Lemma propagate_records (out_tensor_set : gset Value) (fuel : nat) :
  forall st st',
  records_invariant ir lg_info shape_secs st ->
  propagate ir lg_info fuel shape_secs out_tensor_set st = Ret (true, st') ->
  records_invariant ir lg_info shape_secs st'.
Proof.
  induction fuel as [|fuel IH]; intros [branchs infos ops] st' Hinv Hrun;
    destruct branchs as [|out rest]; cbn in Hrun; try discriminate.
  - injection Hrun as <-. exact Hinv.
  - injection Hrun as <-. exact Hinv.
  - destruct (backward_update_slice ir lg_info shape_secs out out_tensor_set _)
      as [[[] st1]| |] eqn:Estep; cbn in Hrun; try discriminate.
    eapply IH; [|exact Hrun].
    eapply backward_update_slice_records; eassumption.
Qed.

Lemma seed_idx_records (outs : list Value) :
  forall out_tensor_set st,
  (forall v si, tensor_infos st !! v = Some si ->
     uncut_full ir lg_info shape_secs v si) ->
  (forall v, v ∈ tensor_branchs st -> is_Some (tensor_infos st !! v)) ->
  let seed v := get_out_slice_info shape_secs (getN ir v (lg_type lg_info))
                                   (getH ir v (lg_type lg_info)) in
  let st' := (seed_idx ir lg_info shape_secs outs out_tensor_set st).2 in
  (forall v si, tensor_infos st' !! v = Some si ->
     uncut_full ir lg_info shape_secs v si) /\
  (forall v, v ∈ tensor_branchs st' -> is_Some (tensor_infos st' !! v)) /\
  (forall out, out ∈ outs -> tensor_infos st' !! out = Some (seed out)) /\
  (forall v, tensor_infos st !! v = Some (seed v) ->
     tensor_infos st' !! v = Some (seed v)).
Proof.
  induction outs as [|out outs IH]; intros out_set st Hfull Hlisted seed st'.
  - subst st'. cbn. split; [exact Hfull|]. split; [exact Hlisted|].
    split; [|auto]. intros o Ho. apply elem_of_nil in Ho. contradiction.
  - subst st'. cbn [seed_idx].
    match goal with
    | |- context [seed_idx _ _ _ outs ?os ?st1] =>
        specialize (IH os st1)
    end.
    cbn [tensor_infos tensor_branchs] in IH.
    destruct IH as (Hfull' & Hlisted' & Houts' & Hkeep').
    + intros v si Hv. destruct (decide (out = v)) as [<-|Hne].
      * rewrite lookup_insert_eq in Hv. injection Hv as <-.
        apply get_out_slice_info_uncut.
      * rewrite lookup_insert_ne in Hv by exact Hne. eapply Hfull. exact Hv.
    + intros v Hv. destruct (decide (out = v)) as [<-|Hne].
      * rewrite lookup_insert_eq. eauto.
      * rewrite lookup_insert_ne by exact Hne. apply Hlisted.
        destruct (strip_back_judge _ _ _ _ _); [|exact Hv].
        apply elem_of_app in Hv as [Hv|Hv]; [exact Hv|].
        apply list_elem_of_singleton in Hv. congruence.
    + split; [exact Hfull'|]. split; [exact Hlisted'|]. split.
      * intros o Ho. apply elem_of_cons in Ho as [->|Ho]; [|apply Houts'; exact Ho].
        apply Hkeep'. apply lookup_insert_eq.
      * intros v Hv. apply Hkeep'. destruct (decide (out = v)) as [<-|Hne].
        -- apply lookup_insert_eq.
        -- rewrite lookup_insert_ne by exact Hne. exact Hv.
Qed.

Lemma stripe_mine_idx_run_records (fuel : nat)
  (infos : gmap Value slice_info_t) (st : prop_state) :
  length (group_ops lg_info) <> 1%nat ->
  stripe_mine_idx_run ir lg_info fuel shape_secs infos = Ret (true, st) ->
  records_invariant ir lg_info shape_secs st.
Proof.
  intros Hops. unfold stripe_mine_idx_run.
  destruct (Nat.eqb_spec (length (group_ops lg_info)) 1); [contradiction|].
  destruct (seed_idx ir lg_info shape_secs (group_outs lg_info) ∅
              (mk_prop_state [] ∅ [])) as [out_set st0] eqn:Eseed.
  apply propagate_records.
  pose proof (seed_idx_records (group_outs lg_info) ∅ (mk_prop_state [] ∅ []))
    as Hseed.
  rewrite Eseed in Hseed. cbn [snd tensor_infos tensor_branchs] in Hseed.
  destruct Hseed as (Hfull & Hlisted & Houts & _).
  - intros v si Hv. rewrite lookup_empty in Hv. discriminate.
  - intros v Hv. apply elem_of_nil in Hv. contradiction.
  - split; [exact Hfull|]. split; [exact Hlisted|exact Houts].
Qed.

End PropagatorFacts.







(** C2 (as amended): when [stripe_mine_idx_slice] succeeds on a group
    that is not a single operation, every group-output tensor carries, on a
    dimension whose section count lies between 1 and the tensor's true
    extent, slice pairs that are contiguous, sorted, non-overlapping and
    whose lengths sum to the extent; and every record of the map is the
    single pair (0, extent) on a dimension that is not cut (section
    count 1).  Nothing of the kind is promised for the cut dimension of a
    tensor inside the group: there the pairs are what the consumer's
    backward mapping returns. *)
Theorem stripe_mine_idx_slice_records (ir : Ir) (lg_info : LgInfo)
  (fuel : nat) (shape_secs : shape_secs_t)
  (infos0 infos : gmap Value slice_info_t) :
  length (group_ops lg_info) <> 1%nat ->
  stripe_mine_idx_slice ir lg_info fuel shape_secs infos0 = Ret (true, infos) ->
  (forall out, out ∈ group_outs lg_info ->
     exists si, infos !! out = Some si /\
       (1 <= nsecs shape_secs <= getN ir out (lg_type lg_info) ->
        exact_partition (getN ir out (lg_type lg_info)) (si_n si)) /\
       (1 <= hsecs shape_secs <= getH ir out (lg_type lg_info) ->
        exact_partition (getH ir out (lg_type lg_info)) (si_h si))) /\
  (forall v si, infos !! v = Some si -> uncut_full ir lg_info shape_secs v si).
Proof.
  intros Hops Hrun. unfold stripe_mine_idx_slice in Hrun.
  destruct (stripe_mine_idx_run ir lg_info fuel shape_secs infos0)
    as [[ok st]| |] eqn:Erun; cbn in Hrun; try discriminate.
  injection Hrun as -> <-.
  apply stripe_mine_idx_run_records in Erun as (Hfull & _ & Houts);
    [|exact Hops].
  split; [|exact Hfull].
  intros out Hout. eexists. split; [apply Houts; exact Hout|].
  cbn [get_out_slice_info si_n si_h].
  split; intros Hsecs; apply out_slices_balanced; exact Hsecs.
Qed.

Lemma stripe_mine_idx_slice_records_witness :
  match stripe_mine_idx_slice (Examples.chain_ir (Examples.conv3x3_backward 32))
          Examples.chain_lg 10 (mk_shape_secs 1 2) ∅ with
  | Ret (true, infos) =>
      (exists si, infos !! 3%nat = Some si /\
         exact_partition 1 (si_n si) /\ exact_partition 32 (si_h si)) /\
      (forall v si, infos !! v = Some si ->
         uncut_full (Examples.chain_ir (Examples.conv3x3_backward 32))
           Examples.chain_lg (mk_shape_secs 1 2) v si)
  | _ => False
  end.
Proof.
  destruct (stripe_mine_idx_slice _ _ _ _ _) as [[[] infos]| |] eqn:Erun.
  - destruct (stripe_mine_idx_slice_records
                (Examples.chain_ir (Examples.conv3x3_backward 32))
                Examples.chain_lg 10 (mk_shape_secs 1 2) ∅ infos
                ltac:(discriminate) Erun) as [Houts Hfull].
    split; [|exact Hfull].
    destruct (Houts 3%nat ltac:(left)) as (si & Hsi & Hn & Hh).
    exists si. split; [exact Hsi|].
    split; [apply Hn|apply Hh]; cbn; lia.
  - vm_compute in Erun. discriminate Erun.
  - vm_compute in Erun. discriminate Erun.
  - vm_compute in Erun. discriminate Erun.
Defined.

(** C2 (as stated) fails: on the chain of a 3x3 convolution and an
    addition, cut in two on the height, exact-mode propagation succeeds
    and the input of the convolution, of height 32 and not a broadcast
    operand, gets the windows (0,17) and (15,17): they overlap on rows
    15 and 16 and their lengths sum to 34. *)
Lemma stripe_mine_idx_slice_overlap_counterexample :
  match stripe_mine_idx_slice (Examples.chain_ir (Examples.conv3x3_backward 32))
          Examples.chain_lg 10 (mk_shape_secs 1 2) ∅ with
  | Ret (true, infos) =>
      exists si, infos !! 0%nat = Some si /\
        si_h si = [(0, 17); (15, 17)] /\
        getH (Examples.chain_ir (Examples.conv3x3_backward 32)) 0%nat 0 = 32 /\
        total_length (si_h si) = 34 /\
        ~ exact_partition 32 (si_h si)
  | _ => False
  end.
Proof.
  assert (match stripe_mine_idx_slice
                  (Examples.chain_ir (Examples.conv3x3_backward 32))
                  Examples.chain_lg 10 (mk_shape_secs 1 2) ∅ with
          | Ret (true, infos) => infos !! 0%nat
          | _ => None
          end = Some (mk_slice_info [(0, 1)] [(0, 17); (15, 17)])) as Hrec
    by (vm_compute; reflexivity).
  destruct (stripe_mine_idx_slice _ _ _ _ _) as [[[] infos]| |];
    try discriminate Hrec.
  eexists. split; [exact Hrec|]. cbn [si_h].
  split; [reflexivity|]. split; [reflexivity|]. split; [reflexivity|].
  intros (Htiles & _). cbn in Htiles. lia.
Qed.

(** The diamond cut in two on the height is abandoned: its two
    consumers ask value 0 for different windows. *)
Example diamond_is_abandoned :
  exists infos,
    stripe_mine_idx_slice Examples.diamond_ir Examples.diamond_lg 10
      (mk_shape_secs 1 2) ∅ = Ret (false, infos).
Proof.
  destruct (stripe_mine_idx_slice _ _ _ _ _) as [[[] infos]| |] eqn:Erun;
    [vm_compute in Erun; discriminate Erun|eauto|
     vm_compute in Erun; discriminate Erun..].
Qed.

(** ** The split-search driver *)

Lemma demand_at_covers (T : Z) (bufs : list mem_buffer_value_t)
  (b : mem_buffer_value_t) :
  Forall (fun b => 0 <= size b) bufs -> b ∈ bufs -> in_schedule T b ->
  size b <= demand_at T bufs (start_ts b).
Proof.
  intros Hsize Hb [Hs He]. induction Hsize as [|b' bufs Hb' Hsize IH].
  - apply elem_of_nil in Hb. contradiction.
  - cbn [demand_at foldr]. fold (demand_at T bufs (start_ts b)).
    pose proof (demand_at_nonneg T bufs (start_ts b) Hsize) as Hnn.
    apply elem_of_cons in Hb as [<-|Hb].
    + assert (live_at T b (start_ts b) = true) as ->; [|lia].
      unfold live_at. rewrite Z.leb_refl. cbn [andb].
      destruct (Z.leb_spec (start_ts b) (end_ts b)); [reflexivity|].
      destruct (Z.leb_spec (start_ts b) (T - 1)); [|lia].
      apply orb_true_r.
    + specialize (IH Hb). destruct (live_at T b' (start_ts b)); lia.
Qed.

(** On a positive schedule the accountant asks for at least one
    section. *)
Lemma get_split_max_secs_positive (LMEM T : Z) (bufs : list mem_buffer_value_t)
  (total_secs : Z) :
  1 <= T -> 0 < LMEM -> positive_schedule T bufs ->
  get_split_max_secs LMEM T bufs = Ret total_secs -> 1 <= total_secs.
Proof.
  intros HT HL (Hin & Hsize & Hpos) Hret.
  destruct (get_split_max_secs_spec LMEM T bufs HT Hin ltac:(lia))
    as (p & Hp & (_ & Hmax)).
  rewrite Hp in Hret. injection Hret as <-.
  apply Exists_exists in Hpos as (b & Hb & Hb1).
  rewrite Forall_forall in Hin.
  pose proof (demand_at_covers T bufs b Hsize Hb (Hin b Hb)) as Hcov.
  destruct (Hin b Hb) as [Hs _]. specialize (Hmax (start_ts b) Hs).
  pose proof (ceiling_func_is_ceiling p LMEM ltac:(lia) HL) as [_ Hceil].
  nia.
Qed.

Section DriverFacts.

Context (m : Module) (ir : Ir) (arch : Arch) (time_step : TimeStep).
Context (lg_info : LgInfo) (fuel : nat).

(** A visited loop state is where the search from the top arrives. *)
Lemma search_from_visits (max_shape_secs : shape_secs_t)
  (infos0 : gmap Value tensor_info_t) (nsec : Z) (shape_secs : shape_secs_t) :
  visits ir arch time_step lg_info fuel max_shape_secs nsec shape_secs ->
  exists infos,
    search m ir arch time_step lg_info fuel (Z.to_nat (nsecs max_shape_secs))
      max_shape_secs 1 (mk_shape_secs 1 1) infos0
    = search m ir arch time_step lg_info fuel
        (Z.to_nat (nsecs max_shape_secs - nsec + 1))
        max_shape_secs nsec shape_secs infos.
Proof.
  induction 1 as [|nsec shape_secs shape_secs' infos' Hvisit IH Hle Hit].
  - exists infos0. replace (nsecs max_shape_secs - 1 + 1)
      with (nsecs max_shape_secs) by lia. reflexivity.
  - destruct IH as [infos IH]. exists (tensor_info_of_slice m <$> infos').
    rewrite IH.
    replace (Z.to_nat (nsecs max_shape_secs - nsec + 1))
      with (S (Z.to_nat (nsecs max_shape_secs - (nsec + 1) + 1))) by lia.
    cbn [search]. rewrite Hit. reflexivity.
Qed.

Lemma visits_lower_bounds (max_shape_secs : shape_secs_t) (nsec : Z)
  (shape_secs : shape_secs_t) :
  1 <= get_timestep_num time_step ->
  0 < LMEM_BYTES arch ->
  (forall infos,
     positive_schedule (get_timestep_num time_step)
       (update_all_mem_buffer_size time_step lg_info infos)) ->
  visits ir arch time_step lg_info fuel max_shape_secs nsec shape_secs ->
  1 <= nsec /\ nsec - 1 <= nsecs shape_secs /\ 1 <= nsecs shape_secs /\
  1 <= hsecs shape_secs.
Proof.
  intros HT HL Hsched.
  induction 1 as [|nsec shape_secs shape_secs' infos' Hvisit IH Hle Hit].
  - cbn. lia.
  - destruct IH as (Hnsec & _ & _ & Hh). unfold iterate in Hit.
    destruct (stripe_mine_max_slice _ _ _ _ _ _) as [[ok infos]| |];
      cbn [obind fst snd] in Hit; try discriminate.
    destruct ok; cbn [negb] in Hit; [|discriminate].
    destruct (get_split_max_secs _ _ _) as [total| |] eqn:Etotal;
      cbn [obind] in Hit; try discriminate.
    apply get_split_max_secs_positive in Etotal;
      [|assumption|assumption|apply Hsched].
    destruct (_ <=? _); [discriminate|]. injection Hit as <- _.
    unfold raised, candidate, ceiling_func. cbn [nsecs hsecs].
    split; [lia|]. split; [lia|]. split; [lia|].
    apply Z.quot_le_lower_bound; lia.
Qed.

(** How an iteration entered with a counter and a height factor of at
    least 1 can end. *)
Lemma iterate_bounds (max_shape_secs : shape_secs_t) (nsec : Z)
  (shape_secs : shape_secs_t) (it : iteration) :
  1 <= get_timestep_num time_step ->
  0 < LMEM_BYTES arch ->
  (forall infos,
     positive_schedule (get_timestep_num time_step)
       (update_all_mem_buffer_size time_step lg_info infos)) ->
  1 <= nsec ->
  iterate ir arch time_step lg_info fuel max_shape_secs nsec shape_secs = Ret it ->
  match it with
  | ReturnFalse s _ => s = candidate nsec shape_secs
  | Break s _ => nsec <= nsecs s /\ 1 <= hsecs s
  | Continue s _ => nsec <= nsecs s /\ 1 <= hsecs s
  end.
Proof.
  intros HT HL Hsched Hnsec Hit. unfold iterate in Hit.
  destruct (stripe_mine_max_slice _ _ _ _ _ _) as [[ok infos]| |];
    cbn [obind fst snd] in Hit; try discriminate.
  destruct ok; cbn [negb] in Hit; [|injection Hit as <-; reflexivity].
  destruct (get_split_max_secs _ _ _) as [total| |] eqn:Etotal;
    cbn [obind] in Hit; try discriminate.
  apply get_split_max_secs_positive in Etotal;
    [|assumption|assumption|apply Hsched].
  assert (nsec <= nsecs (raised max_shape_secs (candidate nsec shape_secs) total)
          /\ 1 <= hsecs (raised max_shape_secs (candidate nsec shape_secs) total))
    as Hraised.
  { unfold raised, candidate, ceiling_func. cbn [nsecs hsecs].
    split; [lia|]. apply Z.quot_le_lower_bound; lia. }
  destruct (_ <=? _); injection Hit as <-; exact Hraised.
Qed.

Lemma search_bounds (max_shape_secs : shape_secs_t) (count : nat) :
  1 <= get_timestep_num time_step ->
  0 < LMEM_BYTES arch ->
  (forall infos,
     positive_schedule (get_timestep_num time_step)
       (update_all_mem_buffer_size time_step lg_info infos)) ->
  forall nsec shape_secs infos0 status s infos,
  1 <= nsec -> 1 <= nsecs shape_secs -> 1 <= hsecs shape_secs ->
  search m ir arch time_step lg_info fuel count max_shape_secs nsec shape_secs
    infos0 = Ret (status, s, infos) ->
  1 <= nsecs s /\ 1 <= hsecs s.
Proof.
  intros HT HL Hsched.
  induction count as [|count IH];
    intros nsec shape_secs infos0 status s infos Hnsec Hn Hh Hrun;
    cbn [search] in Hrun.
  - destruct (update_tensor_infos m ir lg_info infos0); cbn [obind] in Hrun;
      try discriminate.
    injection Hrun as _ <- _. split; assumption.
  - destruct (iterate _ _ _ _ _ _ _ _) as [it| |] eqn:Eit; cbn [obind] in Hrun;
      try discriminate.
    pose proof (iterate_bounds _ _ _ _ HT HL Hsched Hnsec Eit) as Hb.
    destruct it as [s' i'|s' i'|s' i'].
    + injection Hrun as _ <- _. subst s'. cbn [candidate nsecs hsecs]. lia.
    + destruct (update_tensor_infos m ir lg_info _); cbn [obind] in Hrun;
        try discriminate.
      injection Hrun as _ <- _. lia.
    + eapply IH; [| | |exact Hrun]; lia.
Qed.

End DriverFacts.

(** C6: when the search has reached the iteration of a candidate [nsec]
    within the ceiling and the bounding-mode propagator returns false
    for it, [update_data_split] returns false at once: the split
    factors it leaves are those of the failing candidate, no larger
    candidate is tried and the tensor records are the ones the failed
    propagation left. *)
Theorem update_data_split_propagation_failure (m : Module) (ir : Ir)
  (arch : Arch) (time_step : TimeStep) (lg_info : LgInfo) (fuel : nat)
  (max_shape_secs shape_secs : shape_secs_t) (nsec : Z)
  (infos0 : gmap Value tensor_info_t) (failed : gmap Value slice_info_t) :
  get_group_max_secs ir arch lg_info = Ret max_shape_secs ->
  visits ir arch time_step lg_info fuel max_shape_secs nsec shape_secs ->
  nsec <= nsecs max_shape_secs ->
  stripe_mine_max_slice ir arch lg_info fuel (candidate nsec shape_secs) ∅
  = Ret (false, failed) ->
  update_data_split m ir arch time_step lg_info fuel infos0
  = Ret (false, candidate nsec shape_secs, tensor_info_of_slice m <$> failed).
Proof.
  intros Hmax Hvisit Hle Hfail. unfold update_data_split.
  rewrite Hmax. cbn [obind].
  destruct (search_from_visits m ir arch time_step lg_info fuel max_shape_secs
              infos0 nsec shape_secs Hvisit) as [infos ->].
  replace (Z.to_nat (nsecs max_shape_secs - nsec + 1))
    with (S (Z.to_nat (nsecs max_shape_secs - nsec))) by lia.
  cbn [search]. unfold iterate. rewrite Hfail. reflexivity.
Qed.

Lemma update_data_split_propagation_failure_witness :
  exists failed,
    update_data_split (PolicyExamples.demo_module OtherTpuOp)
      Examples.diamond_ir Examples.small_lmem Examples.one_step
      Examples.diamond_lg 10 ∅
    = Ret (false, mk_shape_secs 2 52,
           tensor_info_of_slice (PolicyExamples.demo_module OtherTpuOp)
             <$> failed).
Proof.
  destruct (iterate Examples.diamond_ir Examples.small_lmem Examples.one_step
              Examples.diamond_lg 10 (mk_shape_secs 4 32) 1 (mk_shape_secs 1 1))
    as [[s i|s i|s i]| |] eqn:Efirst;
    try (vm_compute in Efirst; discriminate Efirst).
  assert (s = mk_shape_secs 4 52) as ->.
  { vm_compute in Efirst. injection Efirst as <- _. reflexivity. }
  destruct (stripe_mine_max_slice Examples.diamond_ir Examples.small_lmem
              Examples.diamond_lg 10 (candidate 2 (mk_shape_secs 4 52)) ∅)
    as [[[] failed]| |] eqn:Esecond;
    try (vm_compute in Esecond; discriminate Esecond).
  exists failed.
  apply (update_data_split_propagation_failure
           (PolicyExamples.demo_module OtherTpuOp) Examples.diamond_ir
           Examples.small_lmem Examples.one_step Examples.diamond_lg 10
           (mk_shape_secs 4 32) (mk_shape_secs 4 52) 2 ∅ failed).
  - vm_compute. reflexivity.
  - apply (visits_next _ _ _ _ _ _ 1 (mk_shape_secs 1 1) (mk_shape_secs 4 52) i).
    + apply visits_first.
    + cbn. lia.
    + exact Efirst.
  - cbn. lia.
  - exact Esecond.
Defined.

(** C7 (as amended): in a search run of [update_data_split] on a time
    step that has at least one step, a positive capacity and schedules
    with a buffer of positive size, the split factors handed to the
    propagator in an iteration have, as n-sections, the loop counter,
    which is at least 1 and is exactly one more in the next iteration,
    and an h-sections of at least 1; the raise step leaves an
    n-sections no less than the counter and an h-sections of at least
    1, and so do the split factors the driver returns.  (The raised
    n-sections is not kept: the next iteration starts again from the
    counter.) *)
Theorem update_data_split_candidates (m : Module) (ir : Ir) (arch : Arch)
  (time_step : TimeStep) (lg_info : LgInfo) (fuel : nat) :
  1 <= get_timestep_num time_step ->
  0 < LMEM_BYTES arch ->
  (forall infos,
     positive_schedule (get_timestep_num time_step)
       (update_all_mem_buffer_size time_step lg_info infos)) ->
  (forall max_shape_secs nsec shape_secs,
     visits ir arch time_step lg_info fuel max_shape_secs nsec shape_secs ->
     (nsecs (candidate nsec shape_secs) = nsec /\
      1 <= nsecs (candidate nsec shape_secs) /\
      1 <= hsecs (candidate nsec shape_secs)) /\
     forall it,
       iterate ir arch time_step lg_info fuel max_shape_secs nsec shape_secs
       = Ret it ->
       match it with
       | ReturnFalse s _ => s = candidate nsec shape_secs
       | Break s _ => nsec <= nsecs s /\ 1 <= hsecs s
       | Continue s _ =>
           nsec <= nsecs s /\ 1 <= hsecs s /\
           nsecs (candidate (nsec + 1) s)
           = nsecs (candidate nsec shape_secs) + 1
       end) /\
  (forall infos0 status s infos,
     update_data_split m ir arch time_step lg_info fuel infos0
     = Ret (status, s, infos) ->
     1 <= nsecs s /\ 1 <= hsecs s).
Proof.
  intros HT HL Hsched. split.
  - intros max_shape_secs nsec shape_secs Hvisit.
    destruct (visits_lower_bounds ir arch time_step lg_info fuel max_shape_secs
                nsec shape_secs HT HL Hsched Hvisit) as (Hnsec & _ & _ & Hh).
    split; [cbn [candidate nsecs hsecs]; lia|].
    intros it Hit.
    pose proof (iterate_bounds ir arch time_step lg_info fuel max_shape_secs
                  nsec shape_secs it HT HL Hsched Hnsec Hit) as Hb.
    destruct it; [exact Hb|exact Hb|].
    cbn [candidate nsecs]. lia.
  - intros infos0 status s infos. unfold update_data_split.
    destruct (get_group_max_secs ir arch lg_info) as [max_shape_secs| |];
      cbn [obind]; try discriminate.
    apply search_bounds; try assumption; cbn; lia.
Qed.

Lemma foldl_max_lower (l : list slice_pair_t) : forall a,
  a <= foldl (fun m (s : slice_pair_t) => Z.max m s.2) a l.
Proof.
  induction l as [|s l IH]; intros a; cbn [foldl]; [lia|].
  specialize (IH (Z.max a s.2)). lia.
Qed.

(** The one-step schedule of the examples is positive, whatever the
    tensor records are. *)
Lemma one_step_positive (lg_info : LgInfo) (infos : gmap Value slice_info_t) :
  positive_schedule (get_timestep_num Examples.one_step)
    (update_all_mem_buffer_size Examples.one_step lg_info infos).
Proof.
  cbn [Examples.one_step get_timestep_num update_all_mem_buffer_size].
  split; [|split].
  - constructor; [split; cbn; lia|].
    apply Forall_fmap, Forall_forall. intros [v si] _.
    unfold Examples.tensor_buffer, get_max_slice_nh. split; cbn; lia.
  - constructor; [cbn; lia|].
    apply Forall_fmap, Forall_forall. intros [v si] _.
    unfold Examples.tensor_buffer, get_max_slice_nh. cbn [compose snd size].
    pose proof (foldl_max_lower (si_n si) 0) as Hn.
    pose proof (foldl_max_lower (si_h si) 0) as Hh.
    apply Z.mul_nonneg_nonneg; [apply Z.mul_nonneg_nonneg|lia]; assumption.
  - apply Exists_cons_hd. cbn. lia.
Qed.

Lemma update_data_split_candidates_witness :
  (forall max_shape_secs nsec shape_secs,
     visits Examples.pair_ir Examples.small_lmem Examples.one_step
       Examples.pair_lg 10 max_shape_secs nsec shape_secs ->
     (nsecs (candidate nsec shape_secs) = nsec /\
      1 <= nsecs (candidate nsec shape_secs) /\
      1 <= hsecs (candidate nsec shape_secs)) /\
     forall it,
       iterate Examples.pair_ir Examples.small_lmem Examples.one_step
         Examples.pair_lg 10 max_shape_secs nsec shape_secs = Ret it ->
       match it with
       | ReturnFalse s _ => s = candidate nsec shape_secs
       | Break s _ => nsec <= nsecs s /\ 1 <= hsecs s
       | Continue s _ =>
           nsec <= nsecs s /\ 1 <= hsecs s /\
           nsecs (candidate (nsec + 1) s)
           = nsecs (candidate nsec shape_secs) + 1
       end) /\
  (forall infos0 status s infos,
     update_data_split (PolicyExamples.demo_module OtherTpuOp) Examples.pair_ir
       Examples.small_lmem Examples.one_step Examples.pair_lg 10 infos0
     = Ret (status, s, infos) ->
     1 <= nsecs s /\ 1 <= hsecs s).
Proof.
  apply (update_data_split_candidates (PolicyExamples.demo_module OtherTpuOp)
           Examples.pair_ir Examples.small_lmem Examples.one_step
           Examples.pair_lg 10).
  - cbn. lia.
  - cbn. lia.
  - intros infos. apply one_step_positive.
Defined.

(** C7 (as stated) fails for the n-sections the driver keeps in
    [shape_secs]: on two elementwise operations over a batch of 4 with
    a ceiling of (4,2), the first iteration raises the split factors
    from (1,1) to (4,3), which does not fit the height ceiling; the
    second iteration runs the propagator on (2,3), raises the factors
    to (3,1) and stops there successfully.  The n-sections went from 4
    back to 2, and the value the search ends on is below the value the
    first iteration had reached. *)
Lemma update_data_split_nsecs_reset_counterexample :
  get_group_max_secs Examples.pair_ir Examples.small_lmem Examples.pair_lg
  = Ret (mk_shape_secs 4 2) /\
  (exists infos,
     iterate Examples.pair_ir Examples.small_lmem Examples.one_step
       Examples.pair_lg 10 (mk_shape_secs 4 2) 1 (mk_shape_secs 1 1)
     = Ret (Continue (mk_shape_secs 4 3) infos)) /\
  candidate 2 (mk_shape_secs 4 3) = mk_shape_secs 2 3 /\
  nsecs (candidate 2 (mk_shape_secs 4 3)) < nsecs (mk_shape_secs 4 3) /\
  (exists infos,
     iterate Examples.pair_ir Examples.small_lmem Examples.one_step
       Examples.pair_lg 10 (mk_shape_secs 4 2) 2 (mk_shape_secs 4 3)
     = Ret (Break (mk_shape_secs 3 1) infos)) /\
  nsecs (mk_shape_secs 3 1) < nsecs (mk_shape_secs 4 3) /\
  (exists infos,
     update_data_split (PolicyExamples.demo_module OtherTpuOp) Examples.pair_ir
       Examples.small_lmem Examples.one_step Examples.pair_lg 10 ∅
     = Ret (true, mk_shape_secs 3 1, infos)).
Proof.
  split; [vm_compute; reflexivity|]. split.
  { destruct (iterate _ _ _ _ _ _ _ _) as [[s i|s i|s i]| |] eqn:Efirst;
      try (vm_compute in Efirst; discriminate Efirst).
    exists i. vm_compute in Efirst. injection Efirst as <- _. reflexivity. }
  split; [reflexivity|]. split; [cbn; lia|]. split.
  { destruct (iterate _ _ _ _ _ _ _ _) as [[s i|s i|s i]| |] eqn:Esecond;
      try (vm_compute in Esecond; discriminate Esecond).
    exists i. vm_compute in Esecond. injection Esecond as <- _. reflexivity. }
  split; [cbn; lia|].
  destruct (update_data_split _ _ _ _ _ _ _) as [[[status s] infos]| |] eqn:Erun;
    try (vm_compute in Erun; discriminate Erun).
  exists infos. vm_compute in Erun. injection Erun as <- <- _. reflexivity.
Qed.

(** ** The split-factor ceiling under merging *)

Section CeilingFacts.

Context (ir : Ir) (arch : Arch) (group_type : group_type_t).

(** Two runs of the loop body on one output, from two states that agree
    on the alignment when the target does not set it. *)
Lemma max_secs_value_rel (op : Operation) (v : Value)
  (st1 st2 st2' : max_secs_state) :
  (ALIGN_4N arch = false -> n_align st1 = n_align st2) ->
  max_secs_value ir arch group_type op v st2 = Ret st2' ->
  exists st1',
    max_secs_value ir arch group_type op v st1 = Ret st1' /\
    n_align st1' = n_align st2' /\
    (ALIGN_4N arch = false -> n_align st1' = n_align st1) /\
    max_nsecs st1' = Z.min (max_nsecs st1)
                       (ceiling_func (getN ir v group_type) (n_align st1')) /\
    max_nsecs st2' = Z.min (max_nsecs st2)
                       (ceiling_func (getN ir v group_type) (n_align st1')) /\
    (ALIGN_4N arch = true ->
     n_align st1' = 32 ÷ getStorageBitWidth ir v) /\
    (max_hsecs st1 <= max_hsecs st2 -> max_hsecs st1' <= max_hsecs st2') /\
    (forall bound, 1 <= bound -> max_hsecs st1 <= bound ->
       max_hsecs st1' <= bound) /\
    (1 <= getH ir v group_type -> 1 <= max_hsecs st1 -> 1 <= max_hsecs st1').
Proof.
  intros Halign. unfold max_secs_value.
  destruct (ALIGN_4N arch) eqn:E4n.
  - destruct (getStorageBitWidth ir v =? 0); [discriminate|]. cbn [obind].
    destruct (_ =? 0); [discriminate|]. intros [= <-].
    eexists. split; [reflexivity|]. cbn [n_align max_nsecs max_hsecs].
    repeat split; try reflexivity; try discriminate;
      destruct (AllowDataSplit ir op 2 group_type); intros; lia.
  - cbn [obind]. rewrite (Halign eq_refl).
    destruct (_ =? 0); [discriminate|]. intros [= <-].
    eexists. split; [reflexivity|]. cbn [n_align max_nsecs max_hsecs].
    repeat split; try reflexivity; try discriminate; auto;
      destruct (AllowDataSplit ir op 2 group_type); intros; lia.
Qed.

Lemma max_secs_values_rel (op : Operation) (vs : list Value) :
  forall st1 st2 st2',
  (ALIGN_4N arch = false -> n_align st1 = n_align st2) ->
  max_secs_values ir arch group_type op vs st2 = Ret st2' ->
  exists st1',
    max_secs_values ir arch group_type op vs st1 = Ret st1' /\
    (ALIGN_4N arch = false -> n_align st1' = n_align st2') /\
    (ALIGN_4N arch = false -> n_align st1' = n_align st1) /\
    max_nsecs st1' <= max_nsecs st1 /\
    (forall x, x <= max_nsecs st1' -> x <= max_nsecs st2 ->
       x <= max_nsecs st2') /\
    (forall v, v ∈ vs -> (ALIGN_4N arch = false -> n_align st1 = 1) ->
       max_nsecs st1' <= batch_bound ir arch group_type v) /\
    (max_hsecs st1 <= max_hsecs st2 -> max_hsecs st1' <= max_hsecs st2') /\
    (forall bound, 1 <= bound -> max_hsecs st1 <= bound ->
       max_hsecs st1' <= bound) /\
    ((forall v, v ∈ vs -> 1 <= getH ir v group_type) ->
     1 <= max_hsecs st1 -> 1 <= max_hsecs st1').
Proof.
  induction vs as [|v vs IH]; intros st1 st2 st2' Halign Hrun;
    cbn [max_secs_values] in *.
  - injection Hrun as <-. exists st1. split; [reflexivity|].
    repeat split; auto; try lia.
    intros v Hv. apply elem_of_nil in Hv. contradiction.
  - destruct (max_secs_value ir arch group_type op v st2) as [st2a| |] eqn:E2;
      cbn [obind] in Hrun; try discriminate.
    destruct (max_secs_value_rel op v st1 st2 st2a Halign E2)
      as (st1a & -> & Hal & Hal1 & Hn1 & Hn2 & Hal4 & Hh & Hb & Hp).
    cbn [obind].
    destruct (IH st1a st2a st2' ltac:(intros _; exact Hal) Hrun)
      as (st1' & -> & Hal' & Hal1' & Hdec & Hx & Hbound & Hh' & Hb' & Hp').
    exists st1'. split; [reflexivity|].
    split; [exact Hal'|]. split; [intros E; rewrite Hal1', Hal1; auto|].
    split; [lia|]. split; [intros x Hx1 Hx2; apply Hx; lia|].
    split.
    { intros w Hw Hone. apply elem_of_cons in Hw as [->|Hw].
      - unfold batch_bound. destruct (ALIGN_4N arch) eqn:E4n.
        + rewrite <- (Hal4 eq_refl). lia.
        + rewrite <- (Hone eq_refl), <- (Hal1 eq_refl). lia.
      - etrans; [|apply (Hbound w Hw)]; [lia|].
        intros E. rewrite (Hal1 E). auto. }
    split; [auto|]. split; [auto|].
    intros Hheights Hone. apply Hp'.
    + intros w Hw. apply Hheights. right. exact Hw.
    + apply Hp; [apply Hheights; left|exact Hone].
Qed.

Lemma max_secs_ops_rel (ops : list Operation) :
  forall st1 st2 st2',
  (ALIGN_4N arch = false -> n_align st1 = n_align st2) ->
  max_secs_ops ir arch group_type ops st2 = Ret st2' ->
  exists st1',
    max_secs_ops ir arch group_type ops st1 = Ret st1' /\
    (ALIGN_4N arch = false -> n_align st1' = n_align st2') /\
    (ALIGN_4N arch = false -> n_align st1' = n_align st1) /\
    max_nsecs st1' <= max_nsecs st1 /\
    (forall x, x <= max_nsecs st1' -> x <= max_nsecs st2 ->
       x <= max_nsecs st2') /\
    (forall op v, op ∈ ops -> v ∈ get_output_values ir op ->
       (ALIGN_4N arch = false -> n_align st1 = 1) ->
       max_nsecs st1' <= batch_bound ir arch group_type v) /\
    (max_hsecs st1 <= max_hsecs st2 -> max_hsecs st1' <= max_hsecs st2') /\
    (forall bound, 1 <= bound -> max_hsecs st1 <= bound ->
       max_hsecs st1' <= bound) /\
    ((forall op v, op ∈ ops -> v ∈ get_output_values ir op ->
        1 <= getH ir v group_type) ->
     1 <= max_hsecs st1 -> 1 <= max_hsecs st1').
Proof.
  induction ops as [|op ops IH]; intros st1 st2 st2' Halign Hrun;
    cbn [max_secs_ops] in *.
  - injection Hrun as <-. exists st1. split; [reflexivity|].
    repeat split; auto; try lia.
    intros op v Hop. apply elem_of_nil in Hop. contradiction.
  - destruct (max_secs_values ir arch group_type op _ st2) as [st2a| |] eqn:E2;
      cbn [obind] in Hrun; try discriminate.
    destruct (max_secs_values_rel op _ st1 st2 st2a Halign E2)
      as (st1a & -> & Hal & Hal1 & Hdec0 & Hx0 & Hbound0 & Hh & Hb & Hp).
    cbn [obind].
    destruct (IH st1a st2a st2' Hal Hrun)
      as (st1' & -> & Hal' & Hal1' & Hdec & Hx & Hbound & Hh' & Hb' & Hp').
    exists st1'. split; [reflexivity|].
    split; [exact Hal'|]. split; [intros E; rewrite Hal1', Hal1; auto|].
    split; [lia|]. split; [intros x Hx1 Hx2; apply Hx; [|apply Hx0]; lia|].
    split.
    { intros o w Ho Hw Hone. apply elem_of_cons in Ho as [->|Ho].
      - etrans; [exact Hdec|]. apply Hbound0; assumption.
      - apply (Hbound o w Ho Hw). intros E. rewrite (Hal1 E). auto. }
    split; [auto|]. split; [auto|].
    intros Hheights Hone. apply Hp'.
    + intros o w Ho Hw. apply (Hheights o w); [right|]; assumption.
    + apply Hp; [|exact Hone]. intros w Hw. apply (Hheights op w); [left|exact Hw].
Qed.

Lemma max_secs_ops_app (ops1 ops2 : list Operation) : forall st,
  max_secs_ops ir arch group_type (ops1 ++ ops2) st
  = obind (max_secs_ops ir arch group_type ops1 st)
          (max_secs_ops ir arch group_type ops2).
Proof.
  induction ops1 as [|op ops1 IH]; intros st; cbn [max_secs_ops app obind].
  - reflexivity.
  - destruct (max_secs_values ir arch group_type op _ st); cbn [obind];
      [apply IH|reflexivity..].
Qed.

End CeilingFacts.

(** C8 (as amended): let a group [merged] run the operations of a group
    [first] followed by those of a group [second], and let the outputs
    of [first] have a height of at least 1.  If the ceilings of [first]
    and [second] are defined, so is the ceiling of [merged]; it is
    componentwise no greater than the ceiling of [first]; its h-sections
    is no greater than that of [second]; its n-sections is no greater
    than the batch bound of any output of [second], and no greater than
    the n-sections of [second] provided it does not exceed the seed of
    [second] (the batch of the operand of its first operation). *)
Theorem get_group_max_secs_merge (ir : Ir) (arch : Arch)
  (first second merged : LgInfo) (secs_first secs_second : shape_secs_t) :
  merged_of first second merged ->
  get_group_max_secs ir arch first = Ret secs_first ->
  get_group_max_secs ir arch second = Ret secs_second ->
  (forall op v, op ∈ group_ops first -> v ∈ get_output_values ir op ->
     1 <= getH ir v (lg_type merged)) ->
  exists secs_merged seed_second,
    get_group_max_secs ir arch merged = Ret secs_merged /\
    seed_max_nsecs ir second = Ret seed_second /\
    nsecs secs_merged <= nsecs secs_first /\
    hsecs secs_merged <= hsecs secs_first /\
    hsecs secs_merged <= hsecs secs_second /\
    (forall op v, op ∈ group_ops second -> v ∈ get_output_values ir op ->
       nsecs secs_merged <= batch_bound ir arch (lg_type merged) v) /\
    (nsecs secs_merged <= seed_second ->
     nsecs secs_merged <= nsecs secs_second).
Proof.
  intros (Hops & Htype1 & Htype2) Hfirst Hsecond Hheights.
  unfold get_group_max_secs in *.
  destruct (seed_max_nsecs ir first) as [seed1| |] eqn:Eseed1;
    cbn [obind] in Hfirst; try discriminate.
  destruct (max_secs_ops ir arch (lg_type first) (group_ops first) _)
    as [st1| |] eqn:Erun1; cbn [obind] in Hfirst; try discriminate.
  injection Hfirst as <-.
  destruct (seed_max_nsecs ir second) as [seed2| |] eqn:Eseed2;
    cbn [obind] in Hsecond; try discriminate.
  destruct (max_secs_ops ir arch (lg_type second) (group_ops second) _)
    as [st2| |] eqn:Erun2; cbn [obind] in Hsecond; try discriminate.
  injection Hsecond as <-.
  assert (seed_max_nsecs ir merged = Ret seed1) as ->.
  { unfold seed_max_nsecs in *. rewrite Hops, <- Htype1.
    destruct (group_ops first) as [|op0 ops]; [discriminate Eseed1|].
    exact Eseed1. }
  cbn [obind]. rewrite Hops, max_secs_ops_app, <- Htype1, Erun1. cbn [obind].
  rewrite Htype1, <- Htype2.
  destruct (max_secs_ops_rel ir arch (lg_type first) (group_ops first)
              (mk_max_secs_state seed1 maxIntN64 1)
              (mk_max_secs_state seed1 maxIntN64 1) st1 ltac:(reflexivity) Erun1)
    as (st1' & Hsame & _ & Hal1 & _ & _ & _ & _ & Hb1 & Hp1).
  rewrite Erun1 in Hsame. injection Hsame as <-.
  cbn [n_align max_hsecs] in Hal1, Hb1, Hp1.
  destruct (max_secs_ops_rel ir arch (lg_type second) (group_ops second)
              st1 (mk_max_secs_state seed2 maxIntN64 1) st2 Hal1 Erun2)
    as (stm & -> & _ & _ & Hdec & Hx & Hbound & Hh & Hb & _).
  cbn [obind max_nsecs max_hsecs nsecs hsecs] in *.
  exists (mk_shape_secs (max_nsecs stm) (max_hsecs stm)), seed2.
  cbn [nsecs hsecs].
  assert (1 <= max_hsecs st1) as Hpos.
  { apply Hp1; [|unfold maxIntN64; lia].
    intros op v Hop Hv. rewrite Htype1. apply (Hheights op v Hop Hv). }
  split; [reflexivity|]. split; [reflexivity|]. split; [exact Hdec|].
  split; [apply Hb; [exact Hpos|lia]|].
  split; [apply Hh, Hb1; unfold maxIntN64; lia|].
  split.
  - intros op v Hop Hv. apply (Hbound op v Hop Hv Hal1).
  - intros Hseed. apply Hx; [lia|exact Hseed].
Qed.

Lemma get_group_max_secs_merge_witness :
  exists secs_merged seed_second,
    get_group_max_secs Examples.pair_ir Examples.small_lmem Examples.pair_lg
    = Ret secs_merged /\
    seed_max_nsecs Examples.pair_ir Examples.pair_second = Ret seed_second /\
    nsecs secs_merged <= 4 /\
    hsecs secs_merged <= 2 /\
    hsecs secs_merged <= 2 /\
    (forall op v, op ∈ group_ops Examples.pair_second ->
       v ∈ get_output_values Examples.pair_ir op ->
       nsecs secs_merged
       <= batch_bound Examples.pair_ir Examples.small_lmem 0 v) /\
    (nsecs secs_merged <= seed_second -> nsecs secs_merged <= 4).
Proof.
  apply (get_group_max_secs_merge Examples.pair_ir Examples.small_lmem
           Examples.pair_first Examples.pair_second Examples.pair_lg
           (mk_shape_secs 4 2) (mk_shape_secs 4 2)).
  - repeat split.
  - vm_compute. reflexivity.
  - vm_compute. reflexivity.
  - intros op v _ _. cbn. lia.
Defined.

(** C8 (as stated) fails on the batch component: an elementwise
    operation on a batch of 4 has the ceiling (4,32); a select whose
    first operand, the condition, has batch 1 and is broadcast to a
    result of batch 4 has the ceiling (1,32), because its seed is the
    batch of the condition; the group of the two has the ceiling (4,32),
    above the minimum (1,32) of the two. *)
Lemma get_group_max_secs_merge_counterexample :
  merged_of Examples.select_first Examples.select_second Examples.select_merged /\
  get_group_max_secs Examples.select_ir Examples.small_lmem
    Examples.select_first = Ret (mk_shape_secs 4 32) /\
  get_group_max_secs Examples.select_ir Examples.small_lmem
    Examples.select_second = Ret (mk_shape_secs 1 32) /\
  get_group_max_secs Examples.select_ir Examples.small_lmem
    Examples.select_merged = Ret (mk_shape_secs 4 32) /\
  ~ (nsecs (mk_shape_secs 4 32)
     <= Z.min (nsecs (mk_shape_secs 4 32)) (nsecs (mk_shape_secs 1 32))).
Proof.
  split; [repeat split|]. split; [vm_compute; reflexivity|].
  split; [vm_compute; reflexivity|]. split; [vm_compute; reflexivity|].
  cbn. lia.
Qed.

(** * Further properties of the code *)

(** ** Structural comparison *)

(** X1: [is_same_slice_info] is an equivalence relation on slice infos:
    reflexive, symmetric and transitive. *)
Theorem is_same_slice_info_equivalence :
  (forall si, is_same_slice_info si si = true) /\
  (forall si0 si1, is_same_slice_info si0 si1 = is_same_slice_info si1 si0) /\
  (forall si0 si1 si2,
     is_same_slice_info si0 si1 = true -> is_same_slice_info si1 si2 = true ->
     is_same_slice_info si0 si2 = true).
Proof.
  split; [|split].
  - intros si. apply is_same_slice_info_eq. reflexivity.
  - intros si0 si1.
    destruct (is_same_slice_info si0 si1) eqn:E01,
             (is_same_slice_info si1 si0) eqn:E10; try reflexivity.
    + apply is_same_slice_info_eq in E01. subst si1.
      rewrite (proj2 (is_same_slice_info_eq si0 si0) eq_refl) in E10.
      discriminate.
    + apply is_same_slice_info_eq in E10. subst si1.
      rewrite (proj2 (is_same_slice_info_eq si0 si0) eq_refl) in E01.
      discriminate.
  - intros si0 si1 si2 H01 H12.
    apply is_same_slice_info_eq in H01, H12. apply is_same_slice_info_eq.
    congruence.
Qed.

(** ** The exact partition outside the range of the claims *)

Lemma balanced_start_bounds (e s i : Z) :
  1 <= s -> 0 <= e -> 0 <= i <= s ->
  0 <= balanced_start e s i <= e /\ 0 <= balanced_length e s i.
Proof.
  intros Hs He Hi. unfold balanced_start, balanced_length.
  pose proof (Z.div_mod e s ltac:(lia)) as Hdm.
  pose proof (Z.mod_pos_bound e s ltac:(lia)) as Hr.
  assert (0 <= e `div` s) as Hq by (apply Z.div_pos; lia).
  destruct (i <? e `mod` s); nia.
Qed.

Lemma out_slices_covering (e s : Z) :
  1 <= s -> 0 <= e -> covering e s (out_slices e s).
Proof.
  intros Hs He. rewrite out_slices_balanced_fmap by lia.
  pose proof (Z.div_mod e s ltac:(lia)) as Hdm.
  pose proof (Z.mod_pos_bound e s ltac:(lia)) as Hr.
  assert (balanced_start e s 0 = 0) as H0 by (unfold balanced_start; lia).
  assert (balanced_start e s s = e) as Hend by (unfold balanced_start; lia).
  pose proof (tiles_chain (balanced_start e s) (balanced_length e s)
                (Z.to_nat s) 0 ltac:(intros i _; apply balanced_start_step))
    as Htiles.
  pose proof (total_length_chain (balanced_start e s) (balanced_length e s)
                (Z.to_nat s) 0 ltac:(intros i _; apply balanced_start_step))
    as Htotal.
  rewrite Z2Nat.id in Htiles, Htotal by lia.
  rewrite Z.add_0_l, H0, Hend in Htiles.
  rewrite Z.add_0_l, H0, Hend, Z.sub_0_r in Htotal.
  split; [rewrite length_fmap, length_seqZ; reflexivity|].
  split; [exact Htiles|]. split; [exact Htotal|].
  apply Forall_fmap, Forall_forall. intros i Hi.
  apply elem_of_seqZ in Hi. cbn [compose fst snd].
  pose proof (balanced_start_bounds e s i Hs He ltac:(lia)) as [Hst Hlen].
  pose proof (balanced_start_bounds e s (i + 1) Hs He ltac:(lia)) as [Hnext _].
  rewrite balanced_start_step in Hnext. lia.
Qed.

(** X2: for any section counts of at least 1 and any non-negative
    extents, also when there are more sections than elements,
    [get_out_slice_info] returns exactly that many pairs per dimension;
    they follow one another from 0 to the extent, their lengths sum to
    the extent, and no pair has a negative start or length or reaches
    beyond the extent (surplus sections are empty pairs). *)
Theorem get_out_slice_info_covering (shape_secs : shape_secs_t) (n h : Z) :
  1 <= nsecs shape_secs -> 1 <= hsecs shape_secs -> 0 <= n -> 0 <= h ->
  covering n (nsecs shape_secs) (si_n (get_out_slice_info shape_secs n h)) /\
  covering h (hsecs shape_secs) (si_h (get_out_slice_info shape_secs n h)).
Proof.
  intros Hn Hh Hen Heh. split; cbn [get_out_slice_info si_n si_h];
    apply out_slices_covering; assumption.
Qed.

Lemma get_out_slice_info_covering_witness :
  covering 2 3 (si_n (get_out_slice_info (mk_shape_secs 3 1) 2 0)) /\
  covering 0 1 (si_h (get_out_slice_info (mk_shape_secs 3 1) 2 0)).
Proof.
  apply (get_out_slice_info_covering (mk_shape_secs 3 1) 2 0); cbn; lia.
Defined.

(** With no section the loops do not run. *)
Lemma out_slices_none (e s : Z) : s <= 0 -> out_slices e s = [].
Proof.
  intros Hs. unfold out_slices, seqZ.
  replace (Z.to_nat s) with 0%nat by lia. reflexivity.
Qed.

Lemma foldl_max_exact (l : list slice_pair_t) : forall a m,
  a <= m ->
  Forall (fun p : slice_pair_t => p.2 <= m) l ->
  a = m \/ Exists (fun p : slice_pair_t => p.2 = m) l ->
  foldl (fun acc (p : slice_pair_t) => Z.max acc p.2) a l = m.
Proof.
  induction l as [|p l IH]; intros a m Ham Hall Hex; cbn [foldl].
  - destruct Hex as [Ha|Hex]; [exact Ha|]. apply Exists_nil in Hex. contradiction.
  - apply Forall_cons in Hall as [Hp Hall]. apply IH; [lia|exact Hall|].
    destruct Hex as [Ha|Hex]; [left; lia|].
    apply Exists_cons in Hex as [Hp'|Hex]; [left; lia|right; exact Hex].
Qed.

Lemma out_slices_longest (e s : Z) :
  1 <= s -> 0 <= e ->
  foldl (fun acc (p : slice_pair_t) => Z.max acc p.2) 0 (out_slices e s)
  = ceiling_func e s.
Proof.
  intros Hs He. rewrite out_slices_balanced_fmap by lia.
  pose proof (Z.div_mod e s ltac:(lia)) as Hdm.
  pose proof (Z.mod_pos_bound e s ltac:(lia)) as Hr.
  assert (0 <= e `div` s) as Hq by (apply Z.div_pos; lia).
  assert (ceiling_func e s = e `div` s + (if 0 <? e `mod` s then 1 else 0))
    as ->.
  { unfold ceiling_func. rewrite Z.quot_div_nonneg by lia.
    destruct (Z.ltb_spec 0 (e `mod` s)).
    - symmetry. apply (Z.div_unique _ _ _ (e `mod` s - 1)); lia.
    - symmetry. apply (Z.div_unique _ _ _ (s - 1)); lia. }
  apply foldl_max_exact.
  - destruct (0 <? e `mod` s); lia.
  - apply Forall_fmap, Forall_forall. intros i Hi. apply elem_of_seqZ in Hi.
    cbn [compose snd]. unfold balanced_length.
    destruct (Z.ltb_spec i (e `mod` s)), (Z.ltb_spec 0 (e `mod` s)); lia.
  - right. rewrite seqZ_cons by lia. apply Exists_cons_hd.
    cbn [snd]. reflexivity.
Qed.

Lemma align_up_ge (x a : Z) : 0 <= x -> 0 < a -> x <= align_up x a.
Proof.
  intros Hx Ha. unfold align_up. rewrite Z.quot_div_nonneg by lia.
  pose proof (Z.div_mod (x + a - 1) a ltac:(lia)) as Hdm.
  pose proof (Z.mod_pos_bound (x + a - 1) a Ha) as Hr. nia.
Qed.

Section BoundingFacts.

Context (ir : Ir) (arch : Arch) (lg_info : LgInfo) (shape_secs : shape_secs_t).

(** The seeding loop leaves the records of the other tensors alone. *)
Lemma seed_max_other (v : Value) (outs : list Value) :
  forall max_nslice out_tensor_set st seeded,
  v ∉ outs ->
  seed_max ir arch lg_info shape_secs outs max_nslice out_tensor_set st
  = Ret seeded ->
  tensor_infos seeded.2 !! v = tensor_infos st !! v.
Proof.
  induction outs as [|out outs IH]; intros max_nslice out_set st seeded Hv.
  - cbn. intros [= <-]. reflexivity.
  - cbn [seed_max]. apply not_elem_of_cons in Hv as [Hne Hv].
    destruct (nsecs shape_secs =? 0); [discriminate|].
    match goal with
    | |- context [obind ?m _] => destruct m as [aligned| |]; try discriminate
    end.
    cbn [obind]. destruct (hsecs shape_secs =? 0); [discriminate|].
    intros Hrun. rewrite (IH _ _ _ _ Hv Hrun). cbn [tensor_infos].
    apply lookup_insert_ne. congruence.
Qed.

(** What the seeding loop of the bounding mode leaves on the tensors it
    goes through. *)
Lemma seed_max_windows (outs : list Value) :
  forall max_nslice out_tensor_set st seeded,
  1 <= nsecs shape_secs -> 0 <= max_nslice ->
  (forall out, out ∈ outs ->
     0 <= getN ir out (lg_type lg_info) /\ 0 < getStorageBitWidth ir out) ->
  seed_max ir arch lg_info shape_secs outs max_nslice out_tensor_set st
  = Ret seeded ->
  forall out, out ∈ outs ->
  exists window,
    tensor_infos seeded.2 !! out
    = Some (mk_slice_info [(0, window)]
              [(0, (getH ir out (lg_type lg_info) + hsecs shape_secs - 1)
                   ÷ hsecs shape_secs)]) /\
    ceiling_func (getN ir out (lg_type lg_info)) (nsecs shape_secs) <= window.
Proof.
  induction outs as [|x outs IH];
    intros max_nslice out_set st seeded Hsecs Hmax Hext Hrun out Hout.
  { apply elem_of_nil in Hout. contradiction. }
  cbn [seed_max] in Hrun.
  destruct (nsecs shape_secs =? 0); [discriminate|].
  destruct (Hext x ltac:(left)) as [Hn Hbits].
  assert (0 <= ceiling_func (getN ir x (lg_type lg_info)) (nsecs shape_secs))
    as Hceil by (unfold ceiling_func; apply Z.quot_pos; lia).
  set (raised := Z.max max_nslice
                   (ceiling_func (getN ir x (lg_type lg_info))
                      (nsecs shape_secs))) in Hrun.
  assert (exists aligned,
            raised <= aligned /\
            (if ALIGN_4N arch then
               if getStorageBitWidth ir x =? 0 then Undef else
               if 32 ÷ getStorageBitWidth ir x =? 0 then Undef
               else Ret (align_up raised (32 ÷ getStorageBitWidth ir x))
             else Ret raised) = Ret aligned) as (aligned & Hal & Ealigned).
  { destruct (ALIGN_4N arch); [|exists raised; split; [lia|reflexivity]].
    destruct (getStorageBitWidth ir x =? 0); [discriminate Hrun|].
    destruct (Z.eqb_spec (32 ÷ getStorageBitWidth ir x) 0) as [|Hnz];
      [discriminate Hrun|].
    eexists. split; [|reflexivity]. apply align_up_ge; [lia|].
    pose proof (Z.quot_pos 32 (getStorageBitWidth ir x) ltac:(lia) Hbits).
    lia. }
  cbn zeta in Hrun. rewrite Ealigned in Hrun. cbn [obind] in Hrun.
  destruct (hsecs shape_secs =? 0); [discriminate|].
  destruct (decide (out ∈ outs)) as [Hlater|Hlater].
  - eapply IH; [exact Hsecs| | |exact Hrun|exact Hlater].
    + lia.
    + intros o Ho. apply Hext. right. exact Ho.
  - apply elem_of_cons in Hout as [->|Hout]; [|contradiction].
    exists aligned. split; [|lia].
    rewrite (seed_max_other _ _ _ _ _ _ Hlater Hrun). cbn [tensor_infos].
    apply lookup_insert_eq.
Qed.

(** A successful step of the worklist loop, and a successful
    propagation, only add records. *)
Lemma backward_update_slice_subseteq (out : Value)
  (out_tensor_set : gset Value) (st st' : prop_state) :
  backward_update_slice ir lg_info shape_secs out out_tensor_set st
  = Ret (true, st') ->
  tensor_infos st ⊆ tensor_infos st'.
Proof.
  unfold backward_update_slice.
  destruct (bool_decide (out ∈ group_ins lg_info)); [intros [= <-]; reflexivity|].
  destruct (getDefiningOp ir out) as [op|]; [|discriminate].
  destruct (tensor_infos st !! out) as [out_si|] eqn:Eout; intros Hrun;
    apply backward_operands_success in Hrun as (Hsub & _);
    cbn [tensor_infos] in Hsub; [exact Hsub|].
  etrans; [apply insert_subseteq; exact Eout|exact Hsub].
Qed.

Lemma propagate_subseteq (out_tensor_set : gset Value) (fuel : nat) :
  forall st st',
  propagate ir lg_info fuel shape_secs out_tensor_set st = Ret (true, st') ->
  tensor_infos st ⊆ tensor_infos st'.
Proof.
  induction fuel as [|fuel IH]; intros [branchs infos ops] st' Hrun;
    destruct branchs as [|out rest]; cbn in Hrun; try discriminate.
  - injection Hrun as <-. reflexivity.
  - injection Hrun as <-. reflexivity.
  - destruct (backward_update_slice ir lg_info shape_secs out out_tensor_set _)
      as [[[] st1]| |] eqn:Estep; cbn in Hrun; try discriminate.
    apply backward_update_slice_subseteq in Estep. apply IH in Hrun.
    cbn [tensor_infos] in Estep. etrans; eassumption.
Qed.

(** X3: when the bounding mode succeeds on a group that is not a single
    operation, with section counts of at least 1 and group outputs of
    non-negative extents and positive bit widths, the window it leaves
    on a group output covers the longest slice of the exact partition
    of that output: on the height the window is exactly as long, and on
    the batch it is at least as long (it is the running maximum over
    the outputs seeded so far, aligned up on a target with
    [ALIGN_4N]). *)
Theorem stripe_mine_max_slice_covers_exact (fuel : nat)
  (infos0 infos : gmap Value slice_info_t) :
  length (group_ops lg_info) <> 1%nat ->
  1 <= nsecs shape_secs -> 1 <= hsecs shape_secs ->
  (forall out, out ∈ group_outs lg_info ->
     0 <= getN ir out (lg_type lg_info) /\
     0 <= getH ir out (lg_type lg_info) /\
     0 < getStorageBitWidth ir out) ->
  stripe_mine_max_slice ir arch lg_info fuel shape_secs infos0
  = Ret (true, infos) ->
  forall out, out ∈ group_outs lg_info ->
  exists max_nslice max_hslice,
    infos !! out = Some (mk_slice_info [(0, max_nslice)] [(0, max_hslice)]) /\
    (get_max_slice_nh
       (get_out_slice_info shape_secs (getN ir out (lg_type lg_info))
          (getH ir out (lg_type lg_info)))).1 <= max_nslice /\
    (get_max_slice_nh
       (get_out_slice_info shape_secs (getN ir out (lg_type lg_info))
          (getH ir out (lg_type lg_info)))).2 = max_hslice.
Proof.
  intros Hops Hn Hh Hext Hrun out Hout.
  unfold stripe_mine_max_slice, stripe_mine_max_run in Hrun.
  destruct (Nat.eqb_spec (length (group_ops lg_info)) 1); [contradiction|].
  destruct (seed_max ir arch lg_info shape_secs (group_outs lg_info) 0 ∅
              (mk_prop_state [] ∅ [])) as [seeded| |] eqn:Eseed;
    cbn [obind] in Hrun; try discriminate.
  destruct (propagate ir lg_info fuel shape_secs seeded.1 seeded.2)
    as [[ok st]| |] eqn:Eprop; cbn [obind fst snd] in Hrun; try discriminate.
  injection Hrun as -> <-.
  apply propagate_subseteq in Eprop.
  assert (forall o, o ∈ group_outs lg_info ->
            0 <= getN ir o (lg_type lg_info) /\ 0 < getStorageBitWidth ir o)
    as Hext'.
  { intros o Ho. destruct (Hext o Ho) as (? & _ & ?). auto. }
  destruct (seed_max_windows (group_outs lg_info) 0 ∅ (mk_prop_state [] ∅ [])
              seeded Hn (Z.le_refl 0) Hext' Eseed out Hout)
    as (window & Hrec & Hwindow).
  destruct (Hext out Hout) as (Hen & Heh & _).
  exists window, ((getH ir out (lg_type lg_info) + hsecs shape_secs - 1)
                  ÷ hsecs shape_secs).
  split; [eapply lookup_weaken; eassumption|].
  unfold get_max_slice_nh. cbn [get_out_slice_info si_n si_h fst snd].
  rewrite !out_slices_longest by assumption. split; [exact Hwindow|reflexivity].
Qed.

End BoundingFacts.

Lemma stripe_mine_max_slice_covers_exact_witness :
  match stripe_mine_max_slice MoreExamples.twin_ir Examples.small_lmem
          MoreExamples.twin_lg 10 (mk_shape_secs 3 1) ∅ with
  | Ret (true, infos) =>
      exists max_nslice max_hslice,
        infos !! 2%nat
        = Some (mk_slice_info [(0, max_nslice)] [(0, max_hslice)]) /\
        (get_max_slice_nh (get_out_slice_info (mk_shape_secs 3 1) 4 32)).1
        <= max_nslice /\
        (get_max_slice_nh (get_out_slice_info (mk_shape_secs 3 1) 4 32)).2
        = max_hslice
  | _ => False
  end.
Proof.
  destruct (stripe_mine_max_slice _ _ _ _ _ _) as [[[] infos]| |] eqn:Erun.
  - apply (stripe_mine_max_slice_covers_exact MoreExamples.twin_ir
             Examples.small_lmem MoreExamples.twin_lg (mk_shape_secs 3 1) 10
             ∅ infos); [discriminate|cbn; lia|cbn; lia| |exact Erun|right; left].
    intros out Hout. cbn.
    repeat (apply elem_of_cons in Hout as [->|Hout]; [lia|]).
    apply elem_of_nil in Hout. contradiction.
  - vm_compute in Erun. discriminate Erun.
  - vm_compute in Erun. discriminate Erun.
  - vm_compute in Erun. discriminate Erun.
Defined.

(** The window on the batch can be longer than any exact slice: the
    second output of the twins, of batch 4 cut in three, is seeded with
    the window of three that the first output, of batch 9, needs, while
    its longest exact slice holds two. *)
Example seed_max_carries_the_maximum :
  match stripe_mine_max_slice MoreExamples.twin_ir Examples.small_lmem
          MoreExamples.twin_lg 10 (mk_shape_secs 3 1) ∅ with
  | Ret (true, infos) => infos !! 2%nat
  | _ => None
  end = Some (mk_slice_info [(0, 3)] [(0, 32)]) /\
  get_max_slice_nh (get_out_slice_info (mk_shape_secs 3 1) 4 32) = (2, 32).
Proof.
  split; vm_compute; reflexivity.
Qed.

Lemma wrap_int64_in_range (z : Z) :
  - 2 ^ 63 <= z < 2 ^ 63 -> wrap_int64 z = z.
Proof.
  intros Hz. unfold wrap_int64.
  change (2 ^ 63) with 9223372036854775808 in *.
  change (2 ^ 64) with 18446744073709551616.
  rewrite Z.mod_small; lia.
Qed.

Lemma wrap_int64_above (z : Z) :
  2 ^ 63 <= z < 2 ^ 63 + 2 ^ 64 -> wrap_int64 z = z - 2 ^ 64.
Proof.
  intros Hz. unfold wrap_int64.
  change (2 ^ 63) with 9223372036854775808 in *.
  change (2 ^ 64) with 18446744073709551616 in *.
  rewrite <- (Z.mod_unique (z + 9223372036854775808) 18446744073709551616 1
                (z - 9223372036854775808)); lia.
Qed.

Lemma foldl_wrap_total_length (l : list slice_pair_t) : forall a,
  0 <= a -> Forall (fun p : slice_pair_t => 0 <= p.2) l ->
  a + total_length l < 2 ^ 63 ->
  foldl (fun total_h (it : slice_pair_t) => wrap_int64 (total_h + it.2)) a l
  = a + total_length l.
Proof.
  induction l as [|p l IH]; intros a Ha Hall Hfit;
    cbn [foldl total_length foldr] in *.
  - lia.
  - fold (total_length l) in Hfit. apply Forall_cons in Hall as [Hp Hall].
    assert (0 <= total_length l) as Hrest.
    { clear -Hall. induction Hall as [|q l Hq _ IHl]; cbn; [lia|].
      fold (total_length l). lia. }
    rewrite wrap_int64_in_range
      by (change (2 ^ 63) with 9223372036854775808 in *; lia).
    rewrite IH; [fold (total_length l); lia|lia|exact Hall|lia].
Qed.

(** X4: [check_hsecs] on the exact partition of the height [h >= 0] of
    a tensor, with [2 * h] within [int64_t]: with no height section the
    record has no height slice and the assertion of the guard fails;
    with at least one, the slices sum to [h] and the guard passes as
    long as [3 * h] is within [int64_t] too; beyond that the product
    [h * 3] wraps around to a negative number and the guard rejects the
    partition. *)
Theorem check_hsecs_exact_partition (ir : Ir) (value : Value)
  (shape_secs : shape_secs_t) (n : Z) (group_type : group_type_t) :
  0 <= getH ir value group_type ->
  getH ir value group_type * 2 <= maxIntN64 ->
  check_hsecs ir value
    (get_out_slice_info shape_secs n (getH ir value group_type)) group_type
  = if 1 <=? hsecs shape_secs
    then Ret (getH ir value group_type * 3 <=? maxIntN64)
    else Undef.
Proof.
  set (h := getH ir value group_type). intros Hh Hfit.
  unfold check_hsecs. fold h. cbn [get_out_slice_info si_h].
  unfold maxIntN64 in *. change (2 ^ 63) with 9223372036854775808 in *.
  destruct (Z.leb_spec 1 (hsecs shape_secs)) as [Hs|Hs].
  - destruct (out_slices_covering h (hsecs shape_secs) Hs Hh)
      as (Hlen & _ & Htotal & Hall).
    destruct (out_slices h (hsecs shape_secs)) as [|p l] eqn:E.
    + cbn in Hlen. lia.
    + rewrite foldl_wrap_total_length;
        [|lia|eapply Forall_impl; [exact Hall|]; intros q (_ & Hq & _); exact Hq|
         change (2 ^ 63) with 9223372036854775808; lia].
      rewrite Htotal, Z.add_0_l.
      rewrite (wrap_int64_in_range (h * 2))
        by (change (2 ^ 63) with 9223372036854775808; lia).
      destruct (Z.leb_spec (h * 3) (9223372036854775808 - 1)) as [H3|H3].
      * rewrite wrap_int64_in_range
          by (change (2 ^ 63) with 9223372036854775808; lia).
        destruct (Z.gtb_spec (h * 2) (h * 3)); [lia|reflexivity].
      * rewrite wrap_int64_above
          by (change (2 ^ 63) with 9223372036854775808;
              change (2 ^ 64) with 18446744073709551616; lia).
        change (2 ^ 64) with 18446744073709551616.
        destruct (Z.gtb_spec (h * 2) (h * 3 - 18446744073709551616));
          [reflexivity|lia].
  - rewrite out_slices_none by lia. reflexivity.
Qed.

Lemma check_hsecs_exact_partition_witness :
  check_hsecs Examples.diamond_ir 3%nat
    (get_out_slice_info (mk_shape_secs 1 3) 4
       (getH Examples.diamond_ir 3%nat 0)) 0
  = Ret true.
Proof.
  apply (check_hsecs_exact_partition Examples.diamond_ir 3%nat
           (mk_shape_secs 1 3) 4 0).
  - cbn. lia.
  - vm_compute. discriminate.
Defined.

(** ** The liveness test *)

Section JudgeFacts.

Context (ir : Ir) (lg_info : LgInfo).

Lemma judge_users_complete (ops users : list Operation) : forall b,
  (forall u, u ∈ users -> u ∈ group_ops lg_info -> u ∈ ops) ->
  judge_users lg_info ops users b
  = Some (b || bool_decide (Exists (fun u => u ∉ group_ops lg_info) users)).
Proof.
  induction users as [|op users IH]; intros b Hall; cbn [judge_users].
  - rewrite bool_decide_eq_false_2 by (intros H; apply Exists_nil in H; exact H).
    rewrite orb_false_r. reflexivity.
  - destruct (decide (op ∈ group_ops lg_info)) as [Hg|Hg].
    + rewrite (bool_decide_eq_true_2 _ Hg).
      rewrite bool_decide_eq_true_2 by (apply Hall; [left|exact Hg]).
      rewrite IH by (intros u Hu; apply Hall; right; exact Hu).
      f_equal. f_equal. apply bool_decide_ext. rewrite Exists_cons. tauto.
    + rewrite (bool_decide_eq_false_2 _ Hg).
      rewrite IH by (intros u Hu; apply Hall; right; exact Hu).
      rewrite (bool_decide_eq_true_2 (Exists _ (op :: users)))
        by (apply Exists_cons_hd; exact Hg).
      rewrite orb_true_r. reflexivity.
Qed.

Lemma strip_back_judge_seeded (v : Value) (ops : list Operation)
  (out_tensor_set : gset Value) :
  strip_back_judge ir lg_info v ops out_tensor_set = true ->
  Exists (fun u => u ∉ group_ops lg_info) (getUsers ir v) ->
  v ∈ out_tensor_set.
Proof.
  intros Hj Hout.
  pose proof (strip_back_judge_sound ir lg_info v ops _ Hj) as Hall.
  unfold strip_back_judge in Hj.
  rewrite (judge_users_complete ops _ false Hall) in Hj. cbn [orb] in Hj.
  rewrite (bool_decide_eq_true_2 _ Hout) in Hj.
  apply bool_decide_eq_true_1 in Hj. exact Hj.
Qed.

Lemma strip_back_judge_accepts (v : Value) (ops : list Operation)
  (out_tensor_set : gset Value) :
  (forall u, u ∈ getUsers ir v -> u ∈ group_ops lg_info -> u ∈ ops) ->
  (Exists (fun u => u ∉ group_ops lg_info) (getUsers ir v) ->
   v ∈ out_tensor_set) ->
  strip_back_judge ir lg_info v ops out_tensor_set = true.
Proof.
  intros Hall Hout. unfold strip_back_judge.
  rewrite (judge_users_complete ops _ false Hall). cbn [orb].
  destruct (bool_decide (Exists _ (getUsers ir v))) eqn:E; [|reflexivity].
  apply bool_decide_eq_true_1 in E. apply bool_decide_eq_true_2, Hout, E.
Qed.

(** X5: [strip_back_judge] accepts a tensor exactly when every user of
    it inside the group has been expanded (is in [op_set]) and, if it
    has a user outside the group, it is one of the tensors seeded as
    group outputs (is in [out_tensor_set]). *)
Theorem strip_back_judge_iff (v : Value) (ops : list Operation)
  (out_tensor_set : gset Value) :
  strip_back_judge ir lg_info v ops out_tensor_set = true <->
  (forall u, u ∈ getUsers ir v -> u ∈ group_ops lg_info -> u ∈ ops) /\
  (Exists (fun u => u ∉ group_ops lg_info) (getUsers ir v) ->
   v ∈ out_tensor_set).
Proof.
  split.
  - intros Hj. split.
    + exact (strip_back_judge_sound ir lg_info v ops _ Hj).
    + exact (strip_back_judge_seeded v ops _ Hj).
  - intros [Hall Hout]. apply strip_back_judge_accepts; assumption.
Qed.

(** X6: the liveness test is monotone: a tensor that [strip_back_judge]
    accepts stays accepted when more operations have been expanded and
    more tensors have been seeded. *)
Theorem strip_back_judge_monotone (v : Value) (ops ops' : list Operation)
  (out_tensor_set out_tensor_set' : gset Value) :
  (forall u, u ∈ ops -> u ∈ ops') ->
  out_tensor_set ⊆ out_tensor_set' ->
  strip_back_judge ir lg_info v ops out_tensor_set = true ->
  strip_back_judge ir lg_info v ops' out_tensor_set' = true.
Proof.
  intros Hops Hsets Hj. apply strip_back_judge_accepts.
  - intros u Hu Hg.
    apply Hops, (strip_back_judge_sound ir lg_info v ops _ Hj); assumption.
  - intros Hex. apply Hsets, (strip_back_judge_seeded v ops _ Hj), Hex.
Qed.

End JudgeFacts.

Lemma strip_back_judge_monotone_witness :
  strip_back_judge Examples.diamond_ir Examples.diamond_lg 0%nat
    [1%nat; 0%nat; 2%nat] {[3%nat]} = true.
Proof.
  apply (strip_back_judge_monotone Examples.diamond_ir Examples.diamond_lg
           0%nat [0%nat; 1%nat] [1%nat; 0%nat; 2%nat] ∅ {[3%nat]}).
  - intros u Hu. apply elem_of_cons in Hu as [->|Hu]; [right; left|].
    apply list_elem_of_singleton in Hu as ->. left.
  - apply empty_subseteq.
  - reflexivity.
Defined.

(** ** The broadcast test *)

Lemma has_broadcast_dim_true (in_shape other_shape : list Z) :
  has_broadcast_dim in_shape other_shape = true ->
  exists (i : nat) (b : Z),
    in_shape !! i = Some 1 /\ other_shape !! i = Some b /\ b <> 1.
Proof.
  revert other_shape.
  induction in_shape as [|a in_shape IH]; intros [|b other_shape];
    cbn [has_broadcast_dim]; try discriminate.
  destruct (Z.eqb_spec a b) as [Hab|Hab]; cbn [negb andb].
  - intros H. destruct (IH _ H) as (i & c & Hi & Ho & Hc).
    exists (S i), c. auto.
  - destruct (Z.eqb_spec a 1) as [->|Ha].
    + intros _. exists 0%nat, b. cbn. split; [reflexivity|].
      split; [reflexivity|congruence].
    + intros H. destruct (IH _ H) as (i & c & Hi & Ho & Hc).
      exists (S i), c. auto.
Qed.

(** X7: [is_broadcast_binary] answers true only for an Add, Sub, Mul,
    Max or Min operation (never for a Div) and an operand that has, at
    some position, the size 1 where the other operand of the same rank
    has another size; the other operand is the second operand when the
    tested tensor is the first one, the first operand otherwise. *)
Theorem is_broadcast_binary_true (ir : Ir) (op : Operation) (in_ : Value) :
  is_broadcast_binary ir op in_ = Ret true ->
  isa_binary (op_kind ir op) = true /\
  op_kind ir op <> DivOp /\
  exists opd0 other,
    getOperands ir op !! 0%nat = Some opd0 /\
    (if bool_decide (in_ = opd0)
     then getOperands ir op !! 1%nat = Some other
     else other = opd0) /\
    length (getShape ir in_) = length (getShape ir other) /\
    exists (i : nat) (b : Z),
      getShape ir in_ !! i = Some 1 /\
      getShape ir other !! i = Some b /\ b <> 1.
Proof.
  unfold is_broadcast_binary.
  destruct (isa_binary (op_kind ir op)) eqn:Ekind; cbn [negb]; [|discriminate].
  destruct (getOperands ir op !! 0%nat) as [opd0|] eqn:E0; cbn [of_option obind];
    [|discriminate].
  intros H. split; [reflexivity|]. split.
  { intros Hdiv. rewrite Hdiv in Ekind. discriminate. }
  assert (exists other,
            (if bool_decide (in_ = opd0)
             then getOperands ir op !! 1%nat = Some other
             else other = opd0) /\
            (if negb (length (getShape ir in_) =? length (getShape ir other))%nat
             then Ret false
             else Ret (has_broadcast_dim (getShape ir in_) (getShape ir other)))
            = Ret true) as (other & Hother & Hshape).
  { destruct (bool_decide (in_ = opd0)).
    - destruct (getOperands ir op !! 1%nat) as [opd1|]; cbn in H;
        [|discriminate]. eauto.
    - cbn in H. eauto. }
  exists opd0, other. split; [reflexivity|]. split; [exact Hother|].
  destruct (Nat.eqb_spec (length (getShape ir in_)) (length (getShape ir other)))
    as [Hlen|Hlen]; cbn [negb] in Hshape; [|discriminate].
  split; [exact Hlen|]. injection Hshape as Hdim.
  apply has_broadcast_dim_true. exact Hdim.
Qed.

Lemma is_broadcast_binary_true_witness :
  isa_binary (op_kind (Examples.chain_ir Examples.elementwise_backward) 1%nat)
  = true /\
  op_kind (Examples.chain_ir Examples.elementwise_backward) 1%nat <> DivOp /\
  exists opd0 other,
    getOperands (Examples.chain_ir Examples.elementwise_backward) 1%nat !! 0%nat
    = Some opd0 /\
    (if bool_decide (2%nat = opd0)
     then getOperands (Examples.chain_ir Examples.elementwise_backward) 1%nat
            !! 1%nat = Some other
     else other = opd0) /\
    length (getShape (Examples.chain_ir Examples.elementwise_backward) 2%nat)
    = length (getShape (Examples.chain_ir Examples.elementwise_backward) other) /\
    exists (i : nat) (b : Z),
      getShape (Examples.chain_ir Examples.elementwise_backward) 2%nat !! i
      = Some 1 /\
      getShape (Examples.chain_ir Examples.elementwise_backward) other !! i
      = Some b /\ b <> 1.
Proof.
  apply (is_broadcast_binary_true
           (Examples.chain_ir Examples.elementwise_backward) 1%nat 2%nat).
  reflexivity.
Defined.

(** ** More on the propagator *)

Section MorePropagatorFacts.

Context (ir : Ir) (lg_info : LgInfo) (shape_secs : shape_secs_t).

Lemma backward_n_loop_length (op : Operation) (bc : bool)
  (out_n : list slice_pair_t) : forall idx slice acc r,
  backward_n_loop ir op bc idx slice out_n acc = Some r ->
  length r = (length acc + length out_n)%nat.
Proof.
  induction out_n as [|s rest IH]; intros idx slice acc r;
    cbn [backward_n_loop length].
  - intros [= <-]. lia.
  - destruct (BackwardN ir op idx slice s.1 s.2) as [[ret idx'] slice'].
    destruct bc; [|destruct (_ || _); [discriminate|]];
      intros H; apply IH in H; rewrite H, length_app; cbn; lia.
Qed.

Lemma backward_h_loop_length (op : Operation) (bc : bool)
  (out_h : list slice_pair_t) : forall idx slice pre i acc r,
  backward_h_loop ir op bc idx slice pre i out_h acc = Some r ->
  length r = (length acc + length out_h)%nat.
Proof.
  induction out_h as [|s rest IH]; intros idx slice pre i acc r;
    cbn [backward_h_loop length].
  - intros [= <-]. lia.
  - destruct (BackwardH ir op idx slice s.1 s.2) as [[ret idx'] slice'].
    destruct bc; [|destruct (_ || _); [discriminate|]];
      intros H; apply IH in H; rewrite H, length_app; cbn; lia.
Qed.

(** The lengths of a derived record. *)
Lemma get_backward_slice_info_lengths (out_si : slice_info_t) (op : Operation)
  (v : Value) (si : slice_info_t) :
  get_backward_slice_info ir empty_slice_info out_si op v shape_secs
    (lg_type lg_info) = Ret (Some si) ->
  length (si_n si)
  = (if nsecs shape_secs =? 1 then 1%nat else length (si_n out_si)) /\
  length (si_h si)
  = (if hsecs shape_secs =? 1 then 1%nat else length (si_h out_si)).
Proof.
  unfold get_backward_slice_info.
  destruct (is_broadcast_binary ir op v) as [bc| |]; cbn [obind];
    try discriminate.
  destruct (backward_n _ _ _ _ _ _ _) as [in_n|] eqn:En; [|discriminate].
  destruct (backward_h _ _ _ _ _ _ _) as [in_h|] eqn:Eh; [|discriminate].
  intros [= <-]. cbn [si_n si_h]. unfold backward_n in En. unfold backward_h in Eh.
  split.
  - destruct (nsecs shape_secs =? 1).
    + injection En as <-. reflexivity.
    + apply backward_n_loop_length in En. exact En.
  - destruct (hsecs shape_secs =? 1).
    + injection Eh as <-. reflexivity.
    + apply backward_h_loop_length in Eh. exact Eh.
Qed.

Section RecordInvariant.

Variable P : Value -> slice_info_t -> Prop.

Hypothesis P_backward : forall out out_si op v si,
  P out out_si ->
  get_backward_slice_info ir empty_slice_info out_si op v shape_secs
    (lg_type lg_info) = Ret (Some si) ->
  P v si.

Lemma backward_update_slice_satisfy (out : Value)
  (out_tensor_set : gset Value) (rest : list Value)
  (infos : gmap Value slice_info_t) (ops : list Operation) (st' : prop_state) :
  records_satisfy P (mk_prop_state (out :: rest) infos ops) ->
  backward_update_slice ir lg_info shape_secs out out_tensor_set
    (mk_prop_state rest infos ops) = Ret (true, st') ->
  records_satisfy P st'.
Proof.
  intros (HP & Hlisted) Hstep.
  cbn [tensor_infos tensor_branchs] in HP, Hlisted.
  unfold backward_update_slice in Hstep.
  destruct (bool_decide (out ∈ group_ins lg_info)).
  { injection Hstep as <-. split; [exact HP|].
    intros v Hv. apply Hlisted. right. exact Hv. }
  destruct (getDefiningOp ir out) as [op|]; [|discriminate].
  cbn [tensor_infos tensor_branchs op_set] in Hstep.
  destruct (Hlisted out ltac:(left)) as [out_si Eout]. rewrite Eout in Hstep.
  apply backward_operands_success in Hstep
    as (Hsub & _ & (pushed & Hbr & Hpushed) & _ & Horigin).
  cbn [tensor_infos tensor_branchs op_set] in Hsub, Hbr, Hpushed, Horigin.
  split.
  - intros v si Hv. destruct (Horigin v si Hv) as [Hold|Hnew].
    + eapply HP. exact Hold.
    + eapply P_backward; [apply (HP out out_si Eout)|exact Hnew].
  - intros v Hv. rewrite Hbr in Hv. apply elem_of_app in Hv as [Hv|Hv].
    + destruct (Hlisted v ltac:(right; exact Hv)) as [si Hsi].
      exists si. eapply lookup_weaken; eassumption.
    + rewrite Forall_forall in Hpushed. apply (Hpushed v Hv).
Qed.

Lemma propagate_satisfy (out_tensor_set : gset Value) (fuel : nat) :
  forall st st',
  records_satisfy P st ->
  propagate ir lg_info fuel shape_secs out_tensor_set st = Ret (true, st') ->
  records_satisfy P st'.
Proof.
  induction fuel as [|fuel IH]; intros [branchs infos ops] st' Hinv Hrun;
    destruct branchs as [|out rest]; cbn in Hrun; try discriminate.
  - injection Hrun as <-. exact Hinv.
  - injection Hrun as <-. exact Hinv.
  - destruct (backward_update_slice ir lg_info shape_secs out out_tensor_set _)
      as [[[] st1]| |] eqn:Estep; cbn in Hrun; try discriminate.
    eapply IH; [|exact Hrun].
    eapply backward_update_slice_satisfy; eassumption.
Qed.

Lemma seed_idx_satisfy (outs : list Value) :
  (forall out, P out (get_out_slice_info shape_secs
                        (getN ir out (lg_type lg_info))
                        (getH ir out (lg_type lg_info)))) ->
  forall out_tensor_set st,
  records_satisfy P st ->
  records_satisfy P (seed_idx ir lg_info shape_secs outs out_tensor_set st).2.
Proof.
  intros Hseed. induction outs as [|out outs IH]; intros out_set st Hinv;
    [exact Hinv|].
  cbn [seed_idx]. apply IH. destruct Hinv as [HP Hlisted]. split.
  - intros v si Hv. cbn [tensor_infos] in Hv.
    destruct (decide (out = v)) as [<-|Hne].
    + rewrite lookup_insert_eq in Hv. injection Hv as <-. apply Hseed.
    + rewrite lookup_insert_ne in Hv by exact Hne. eapply HP. exact Hv.
  - intros v Hv. cbn [tensor_infos tensor_branchs] in *.
    destruct (decide (out = v)) as [<-|Hne].
    + rewrite lookup_insert_eq. eauto.
    + rewrite lookup_insert_ne by exact Hne. apply Hlisted.
      destruct (strip_back_judge _ _ _ _ _); [|exact Hv].
      apply elem_of_app in Hv as [Hv|Hv]; [exact Hv|].
      apply list_elem_of_singleton in Hv. congruence.
Qed.

Lemma seed_max_satisfy (arch : Arch) (outs : list Value) :
  (forall out a b, P out (mk_slice_info [(0, a)] [(0, b)])) ->
  forall max_nslice out_tensor_set st seeded,
  records_satisfy P st ->
  seed_max ir arch lg_info shape_secs outs max_nslice out_tensor_set st
  = Ret seeded ->
  records_satisfy P seeded.2.
Proof.
  intros Hseed. induction outs as [|out outs IH];
    intros max_nslice out_set st seeded Hinv.
  - cbn. intros [= <-]. exact Hinv.
  - cbn [seed_max]. destruct (nsecs shape_secs =? 0); [discriminate|].
    match goal with
    | |- context [obind ?m _] => destruct m as [aligned| |]; try discriminate
    end.
    cbn [obind]. destruct (hsecs shape_secs =? 0); [discriminate|].
    apply IH. destruct Hinv as [HP Hlisted]. split.
    + intros v si Hv. cbn [tensor_infos] in Hv.
      destruct (decide (out = v)) as [<-|Hne].
      * rewrite lookup_insert_eq in Hv. injection Hv as <-. apply Hseed.
      * rewrite lookup_insert_ne in Hv by exact Hne. eapply HP. exact Hv.
    + intros v Hv. cbn [tensor_infos tensor_branchs] in *.
      destruct (decide (out = v)) as [<-|Hne].
      * rewrite lookup_insert_eq. eauto.
      * rewrite lookup_insert_ne by exact Hne. apply Hlisted.
        destruct (strip_back_judge _ _ _ _ _); [|exact Hv].
        apply elem_of_app in Hv as [Hv|Hv]; [exact Hv|].
        apply list_elem_of_singleton in Hv. congruence.
Qed.

Lemma empty_state_satisfy : records_satisfy P (mk_prop_state [] ∅ []).
Proof.
  split.
  - intros v si Hv. cbn [tensor_infos] in Hv. rewrite lookup_empty in Hv.
    discriminate.
  - intros v Hv. apply elem_of_nil in Hv. contradiction.
Qed.

End RecordInvariant.

End MorePropagatorFacts.

(** X8: when exact-mode propagation succeeds on a group that is not a
    single operation, with section counts of at least 1, every record
    of the map holds exactly n-sections pairs on the batch and
    h-sections pairs on the height. *)
Theorem stripe_mine_idx_slice_section_counts (ir : Ir) (lg_info : LgInfo)
  (fuel : nat) (shape_secs : shape_secs_t)
  (infos0 infos : gmap Value slice_info_t) :
  length (group_ops lg_info) <> 1%nat ->
  1 <= nsecs shape_secs -> 1 <= hsecs shape_secs ->
  stripe_mine_idx_slice ir lg_info fuel shape_secs infos0 = Ret (true, infos) ->
  forall v si, infos !! v = Some si -> one_pair_per_section shape_secs si.
Proof.
  intros Hops Hn Hh Hrun. unfold stripe_mine_idx_slice in Hrun.
  destruct (stripe_mine_idx_run ir lg_info fuel shape_secs infos0)
    as [[ok st]| |] eqn:Erun; cbn in Hrun; try discriminate.
  injection Hrun as -> <-. unfold stripe_mine_idx_run in Erun.
  destruct (Nat.eqb_spec (length (group_ops lg_info)) 1); [contradiction|].
  destruct (seed_idx ir lg_info shape_secs (group_outs lg_info) ∅
              (mk_prop_state [] ∅ [])) as [out_set st0] eqn:Eseed.
  assert (records_satisfy (fun _ => one_pair_per_section shape_secs) st)
    as [HP _]; [|exact HP].
  eapply (propagate_satisfy ir lg_info shape_secs); [| |exact Erun].
  - intros out out_si op v si [Hon Hoh] Hback.
    apply get_backward_slice_info_lengths in Hback as [Hln Hlh].
    split.
    + rewrite Hln. destruct (Z.eqb_spec (nsecs shape_secs) 1) as [->|];
        [reflexivity|exact Hon].
    + rewrite Hlh. destruct (Z.eqb_spec (hsecs shape_secs) 1) as [->|];
        [reflexivity|exact Hoh].
  - pose proof (seed_idx_satisfy ir lg_info shape_secs
                  (fun _ => one_pair_per_section shape_secs)
                  (group_outs lg_info)) as Hseed.
    specialize (Hseed ltac:(intros out; split;
                              cbn [get_out_slice_info si_n si_h];
                              unfold out_slices;
                              rewrite length_fmap, length_seqZ; reflexivity)
                  ∅ _ (empty_state_satisfy _)).
    rewrite Eseed in Hseed. exact Hseed.
Qed.

Lemma stripe_mine_idx_slice_section_counts_witness :
  match stripe_mine_idx_slice (Examples.chain_ir (Examples.conv3x3_backward 32))
          Examples.chain_lg 10 (mk_shape_secs 1 2) ∅ with
  | Ret (true, infos) =>
      forall v si, infos !! v = Some si ->
      one_pair_per_section (mk_shape_secs 1 2) si
  | _ => False
  end.
Proof.
  destruct (stripe_mine_idx_slice _ _ _ _ _) as [[[] infos]| |] eqn:Erun.
  - apply (stripe_mine_idx_slice_section_counts
             (Examples.chain_ir (Examples.conv3x3_backward 32))
             Examples.chain_lg 10 (mk_shape_secs 1 2) ∅ infos);
      [discriminate|cbn; lia|cbn; lia|exact Erun].
  - vm_compute in Erun. discriminate Erun.
  - vm_compute in Erun. discriminate Erun.
  - vm_compute in Erun. discriminate Erun.
Defined.

(** X9: when bounding-mode propagation succeeds on a group that is not a
    single operation, every record of the map holds a single pair on the
    batch and a single pair on the height: one worst-case window per
    tensor. *)
Theorem stripe_mine_max_slice_single_pairs (ir : Ir) (arch : Arch)
  (lg_info : LgInfo) (fuel : nat) (shape_secs : shape_secs_t)
  (infos0 infos : gmap Value slice_info_t) :
  length (group_ops lg_info) <> 1%nat ->
  stripe_mine_max_slice ir arch lg_info fuel shape_secs infos0
  = Ret (true, infos) ->
  forall v si, infos !! v = Some si -> single_pair si.
Proof.
  intros Hops Hrun. unfold stripe_mine_max_slice in Hrun.
  destruct (stripe_mine_max_run ir arch lg_info fuel shape_secs infos0)
    as [[ok st]| |] eqn:Erun; cbn in Hrun; try discriminate.
  injection Hrun as -> <-. unfold stripe_mine_max_run in Erun.
  destruct (Nat.eqb_spec (length (group_ops lg_info)) 1); [contradiction|].
  destruct (seed_max ir arch lg_info shape_secs (group_outs lg_info) 0 ∅
              (mk_prop_state [] ∅ [])) as [seeded| |] eqn:Eseed;
    cbn [obind] in Erun; try discriminate.
  assert (records_satisfy (fun _ => single_pair) st) as [HP _]; [|exact HP].
  eapply (propagate_satisfy ir lg_info shape_secs); [| |exact Erun].
  - intros out out_si op v si [Hon Hoh] Hback.
    apply get_backward_slice_info_lengths in Hback as [Hln Hlh].
    split.
    + rewrite Hln. destruct (nsecs shape_secs =? 1); [reflexivity|exact Hon].
    + rewrite Hlh. destruct (hsecs shape_secs =? 1); [reflexivity|exact Hoh].
  - eapply (seed_max_satisfy ir lg_info shape_secs);
      [|apply empty_state_satisfy|exact Eseed].
    intros out a b. split; reflexivity.
Qed.

Lemma stripe_mine_max_slice_single_pairs_witness :
  match stripe_mine_max_slice (Examples.chain_ir (Examples.conv3x3_backward 32))
          Examples.bm1684x Examples.chain_lg 10 (mk_shape_secs 1 2) ∅ with
  | Ret (true, infos) => forall v si, infos !! v = Some si -> single_pair si
  | _ => False
  end.
Proof.
  destruct (stripe_mine_max_slice _ _ _ _ _ _) as [[[] infos]| |] eqn:Erun.
  - apply (stripe_mine_max_slice_single_pairs
             (Examples.chain_ir (Examples.conv3x3_backward 32))
             Examples.bm1684x Examples.chain_lg 10 (mk_shape_secs 1 2) ∅ infos);
      [discriminate|exact Erun].
  - vm_compute in Erun. discriminate Erun.
  - vm_compute in Erun. discriminate Erun.
  - vm_compute in Erun. discriminate Erun.
Defined.

(** ** Exact mode without a cut *)

Section Unsplit.

Context (ir : Ir) (lg_info : LgInfo) (shape_secs : shape_secs_t).

Hypothesis nsecs_one : nsecs shape_secs = 1.
Hypothesis hsecs_one : hsecs shape_secs = 1.

Lemma uncut_full_unsplit (v : Value) (si : slice_info_t) :
  uncut_full ir lg_info shape_secs v si ->
  si = mk_slice_info [(0, getN ir v (lg_type lg_info))]
                     [(0, getH ir v (lg_type lg_info))].
Proof.
  intros [Hn Hh]. destruct si as [sn sh]. cbn [si_n si_h] in *.
  rewrite (Hn nsecs_one), (Hh hsecs_one). reflexivity.
Qed.

Lemma get_backward_slice_info_unsplit (out_si : slice_info_t) (op : Operation)
  (v : Value) (ret : option slice_info_t) :
  get_backward_slice_info ir empty_slice_info out_si op v shape_secs
    (lg_type lg_info) = Ret ret ->
  ret = Some (mk_slice_info [(0, getN ir v (lg_type lg_info))]
                            [(0, getH ir v (lg_type lg_info))]).
Proof.
  unfold get_backward_slice_info, backward_n, backward_h.
  rewrite nsecs_one, hsecs_one. cbn.
  destruct (is_broadcast_binary ir op v); cbn; [|discriminate..].
  intros [= <-]. reflexivity.
Qed.

Lemma backward_operands_unsplit (op : Operation) (out_si : slice_info_t)
  (out_tensor_set : gset Value) (operands : list Value) :
  forall st r,
  (forall v si, tensor_infos st !! v = Some si ->
     uncut_full ir lg_info shape_secs v si) ->
  backward_operands ir lg_info shape_secs op out_si out_tensor_set operands st
  = Ret r ->
  r.1 = true.
Proof.
  induction operands as [|x rest IH]; intros st r Hfull Hrun;
    cbn [backward_operands] in Hrun.
  - injection Hrun as <-. reflexivity.
  - destruct (skipped_operand ir x); [eapply IH; eassumption|].
    destruct (get_backward_slice_info ir empty_slice_info out_si op x shape_secs
                (lg_type lg_info)) as [ret| |] eqn:Eb;
      cbn [obind] in Hrun; try discriminate.
    apply get_backward_slice_info_unsplit in Eb. subst ret.
    destruct (tensor_infos st !! x) as [old|] eqn:Eold.
    + rewrite (uncut_full_unsplit x old (Hfull x old Eold)) in Hrun.
      rewrite (proj2 (is_same_slice_info_eq _ _) eq_refl) in Hrun.
      cbn [negb] in Hrun. eapply IH; [|exact Hrun].
      destruct (strip_back_judge _ _ _ _ _); exact Hfull.
    + eapply IH; [|exact Hrun].
      intros v si Hv.
      assert (<[x := mk_slice_info [(0, getN ir x (lg_type lg_info))]
                                   [(0, getH ir x (lg_type lg_info))]]>
                (tensor_infos st) !! v = Some si) as Hv'.
      { destruct (strip_back_judge _ _ _ _ _); exact Hv. }
      destruct (decide (x = v)) as [<-|Hne].
      * rewrite lookup_insert_eq in Hv'. injection Hv' as <-.
        split; intros _; reflexivity.
      * rewrite lookup_insert_ne in Hv' by exact Hne. eapply Hfull. exact Hv'.
Qed.

Lemma propagate_unsplit (out_tensor_set : gset Value) (fuel : nat) :
  forall st r,
  records_invariant ir lg_info shape_secs st ->
  propagate ir lg_info fuel shape_secs out_tensor_set st = Ret r ->
  r.1 = true.
Proof.
  induction fuel as [|fuel IH]; intros [branchs infos ops] r Hinv Hrun;
    destruct branchs as [|out rest]; cbn in Hrun; try discriminate.
  - injection Hrun as <-. reflexivity.
  - injection Hrun as <-. reflexivity.
  - destruct (backward_update_slice ir lg_info shape_secs out out_tensor_set _)
      as [[ok st1]| |] eqn:Estep; cbn in Hrun; try discriminate.
    assert (ok = true) as ->.
    { destruct Hinv as (Hfull & Hlisted & _).
      cbn [tensor_infos tensor_branchs] in Hfull, Hlisted.
      unfold backward_update_slice in Estep.
      destruct (bool_decide (out ∈ group_ins lg_info));
        [injection Estep as <- _; reflexivity|].
      destruct (getDefiningOp ir out) as [op|]; [|discriminate].
      cbn [tensor_infos tensor_branchs op_set] in Estep.
      destruct (Hlisted out ltac:(left)) as [out_si Eout].
      rewrite Eout in Estep.
      apply backward_operands_unsplit in Estep; [exact Estep|exact Hfull]. }
    eapply IH; [|exact Hrun].
    eapply backward_update_slice_records; eassumption.
Qed.

End Unsplit.

(** X10: with the split factors (1,1), exact-mode propagation never
    returns false: every derived record is the full extent of its
    tensor, so no operation is asked for a mapping and no two consumers
    can disagree. *)
Theorem stripe_mine_idx_slice_unsplit (ir : Ir) (lg_info : LgInfo)
  (fuel : nat) (infos0 : gmap Value slice_info_t)
  (r : bool * gmap Value slice_info_t) :
  stripe_mine_idx_slice ir lg_info fuel (mk_shape_secs 1 1) infos0 = Ret r ->
  r.1 = true.
Proof.
  unfold stripe_mine_idx_slice.
  destruct (stripe_mine_idx_run ir lg_info fuel (mk_shape_secs 1 1) infos0)
    as [[ok st]| |] eqn:Erun; cbn [obind]; try discriminate.
  intros [= <-]. cbn [fst].
  unfold stripe_mine_idx_run in Erun.
  destruct (Nat.eqb_spec (length (group_ops lg_info)) 1) as [Hone|Hops];
    [injection Erun as <- _; reflexivity|].
  destruct (seed_idx ir lg_info (mk_shape_secs 1 1) (group_outs lg_info) ∅
              (mk_prop_state [] ∅ [])) as [out_set st0] eqn:Eseed.
  apply (propagate_unsplit ir lg_info (mk_shape_secs 1 1) eq_refl eq_refl)
    in Erun; [exact Erun|].
  pose proof (seed_idx_records ir lg_info (mk_shape_secs 1 1)
                (group_outs lg_info) ∅ (mk_prop_state [] ∅ [])) as Hseed.
  rewrite Eseed in Hseed. cbn [snd tensor_infos tensor_branchs] in Hseed.
  destruct Hseed as (Hfull & Hlisted & Houts & _).
  - intros v si Hv. rewrite lookup_empty in Hv. discriminate.
  - intros v Hv. apply elem_of_nil in Hv. contradiction.
  - split; [exact Hfull|]. split; [exact Hlisted|exact Houts].
Qed.

Lemma stripe_mine_idx_slice_unsplit_witness :
  match stripe_mine_idx_slice Examples.diamond_ir Examples.diamond_lg 10
          (mk_shape_secs 1 1) ∅ with
  | Ret r => r.1 = true
  | _ => False
  end.
Proof.
  destruct (stripe_mine_idx_slice _ _ _ _ _) as [r| |] eqn:Erun.
  - apply (stripe_mine_idx_slice_unsplit Examples.diamond_ir Examples.diamond_lg
             10 ∅ r Erun).
  - vm_compute in Erun. discriminate Erun.
  - vm_compute in Erun. discriminate Erun.
Defined.

(** ** What a successful height mapping looks like *)

Lemma backward_h_loop_advancing (ir : Ir) (op : Operation)
  (out_h : list slice_pair_t) : forall idx slice pre i r,
  0 <= i ->
  backward_h_loop ir op false idx slice pre i out_h [] = Some r ->
  advancing pre (i <=? 0) r.
Proof.
  induction out_h as [|s rest IH]; intros idx slice pre i r Hi;
    cbn [backward_h_loop].
  - intros [= <-]. exact I.
  - destruct (BackwardH ir op idx slice s.1 s.2) as [[ret idx'] slice'].
    destruct (negb ret || (slice' =? 0) || ((idx' =? 0) && (i >? 0))
              || (idx' + slice' =? pre)) eqn:Ebad; [discriminate|].
    apply orb_false_elim in Ebad as [Ebad Eend].
    apply orb_false_elim in Ebad as [Ebad Ezero].
    apply orb_false_elim in Ebad as [_ Eslice].
    rewrite (backward_h_loop_acc ir op false rest _ _ _ _ ([] ++ _)).
    destruct (backward_h_loop ir op false idx' slice' _ (i + 1) rest [])
      as [done|] eqn:Erest; [|discriminate].
    cbn. intros [= <-]. cbn [advancing].
    apply Z.eqb_neq in Eslice, Eend.
    split; [exact Eslice|]. split; [|split; [exact Eend|]].
    + intros Hfirst. apply Z.leb_gt in Hfirst.
      destruct (Z.eqb_spec idx' 0) as [->|]; [|assumption].
      destruct (Z.gtb_spec i 0); [discriminate|lia].
    + specialize (IH idx' slice' (idx' + slice') (i + 1) done ltac:(lia) Erest).
      destruct (Z.leb_spec (i + 1) 0); [lia|exact IH].
Qed.

(** X11: when [get_backward_slice_info] succeeds on a height cut in
    more than one section for an operand outside the broadcast case, it
    records one pair per output slice; no recorded pair is empty, none
    but the first starts at index 0, the first does not end at index 0
    and no pair ends where its predecessor ends. *)
Theorem get_backward_slice_info_advancing (ir : Ir) (out_si : slice_info_t)
  (op : Operation) (in_ : Value) (shape_secs : shape_secs_t)
  (group_type : group_type_t) (is_broadcast_tensor : bool)
  (si : slice_info_t) :
  hsecs shape_secs <> 1 ->
  is_broadcast_binary ir op in_ = Ret is_broadcast_tensor ->
  is_broadcast_tensor && (getH ir in_ group_type =? 1) = false ->
  get_backward_slice_info ir empty_slice_info out_si op in_ shape_secs
    group_type = Ret (Some si) ->
  length (si_h si) = length (si_h out_si) /\ advancing 0 true (si_h si).
Proof.
  intros Hsecs Hbc Hnb. unfold get_backward_slice_info.
  rewrite Hbc. cbn [obind].
  destruct (backward_n _ _ _ _ _ _ _) as [in_n|]; [|discriminate].
  unfold backward_h. destruct (Z.eqb_spec (hsecs shape_secs) 1); [contradiction|].
  rewrite Hnb. cbn [empty_slice_info si_h].
  destruct (backward_h_loop ir op false 0 0 0 0 (si_h out_si) [])
    as [in_h|] eqn:Eh; [|discriminate].
  intros [= <-]. cbn [si_h]. split.
  - apply backward_h_loop_length in Eh. exact Eh.
  - apply (backward_h_loop_advancing ir op (si_h out_si) 0 0 0 0 in_h);
      [lia|exact Eh].
Qed.

Lemma get_backward_slice_info_advancing_witness :
  length [(0, 17); (15, 17)] = length [(0, 16); (16, 16)] /\
  advancing 0 true [(0, 17); (15, 17)].
Proof.
  apply (get_backward_slice_info_advancing
           (Examples.chain_ir (Examples.conv3x3_backward 32))
           (mk_slice_info [(0, 1)] [(0, 16); (16, 16)]) 0%nat 0%nat
           (mk_shape_secs 1 2) 0 false
           (mk_slice_info [(0, 1)] [(0, 17); (15, 17)]));
    [discriminate|reflexivity..].
Defined.

(** ** Longest slices *)

Lemma foldl_max_bounds (l : list slice_pair_t) : forall a,
  let m := foldl (fun acc (p : slice_pair_t) => Z.max acc p.2) a l in
  a <= m /\ Forall (fun p : slice_pair_t => p.2 <= m) l /\
  (m = a \/ Exists (fun p : slice_pair_t => p.2 = m) l).
Proof.
  induction l as [|p l IH]; intros a; cbn [foldl].
  - split; [lia|]. split; [constructor|left; reflexivity].
  - destruct (IH (Z.max a p.2)) as (Hge & Hall & Hex).
    split; [lia|]. split; [constructor; [lia|exact Hall]|].
    destruct Hex as [Heq|Hex]; [|right; right; exact Hex].
    destruct (Z.max_spec a p.2) as [[_ Hm]|[_ Hm]].
    + right. left. lia.
    + left. lia.
Qed.

(** X12: [get_max_slice_nh] returns, on each dimension, a length that no
    slice of the record exceeds, that is never negative, and that is
    either 0 (always so for a record without slices) or the length of
    one of the slices. *)
Theorem get_max_slice_nh_bounds (slice_info : slice_info_t) :
  let '(max_nslice, max_hslice) := get_max_slice_nh slice_info in
  (0 <= max_nslice /\
   Forall (fun p : slice_pair_t => p.2 <= max_nslice) (si_n slice_info) /\
   (max_nslice = 0 \/
    Exists (fun p : slice_pair_t => p.2 = max_nslice) (si_n slice_info))) /\
  (0 <= max_hslice /\
   Forall (fun p : slice_pair_t => p.2 <= max_hslice) (si_h slice_info) /\
   (max_hslice = 0 \/
    Exists (fun p : slice_pair_t => p.2 = max_hslice) (si_h slice_info))).
Proof.
  unfold get_max_slice_nh. split; apply foldl_max_bounds.
Qed.

(** ** The records after the search *)

Section TensorInfosFacts.

Context (m : Module) (ir : Ir) (lg_info : LgInfo).

Lemma is_eu_align_users (v : Value) (eu_align : bool) :
  is_eu_align m ir v = Ret eu_align -> getUsers ir v <> [].
Proof.
  unfold is_eu_align, is_eu_align_bm1686, is_eu_align_cv18xx,
    is_eu_align_common, first_user.
  intros Hret Hnone. rewrite Hnone in Hret.
  destruct (isBM1686 m), (isCV18xx m); discriminate Hret.
Qed.

Lemma update_flags_loop_spec (entries : list (Value * tensor_info_t)) :
  forall infos infos',
  NoDup entries.*1 ->
  update_flags_loop m ir entries infos = Ret infos' ->
  (forall v ti, (v, ti) ∈ entries ->
     exists ti', update_flags m ir v ti = Ret ti' /\ infos' !! v = Some ti') /\
  (forall v, v ∉ entries.*1 -> infos' !! v = infos !! v).
Proof.
  induction entries as [|[w tw] rest IH]; intros infos infos' Hnodup Hrun.
  - cbn in Hrun. injection Hrun as <-. split; [|reflexivity].
    intros v ti Hin. apply elem_of_nil in Hin. contradiction.
  - cbn [update_flags_loop] in Hrun. cbn [fmap list_fmap fst] in Hnodup.
    apply NoDup_cons in Hnodup as [Hfresh Hnodup].
    destruct (update_flags m ir w tw) as [tw'| |] eqn:Eflags;
      cbn [obind] in Hrun; try discriminate.
    destruct (IH _ _ Hnodup Hrun) as [Hin Hout]. split.
    + intros v ti Hv. apply elem_of_cons in Hv as [[= -> ->]|Hv].
      * exists tw'. split; [exact Eflags|].
        rewrite (Hout w Hfresh). apply lookup_insert_eq.
      * apply Hin. exact Hv.
    + intros v Hv. cbn [fmap list_fmap fst] in Hv.
      apply not_elem_of_cons in Hv as [Hne Hv].
      rewrite (Hout v Hv). apply lookup_insert_ne. congruence.
Qed.

Lemma weight_inputs_spec (ins : list Value) :
  forall ti infos r,
  weight_inputs m ir lg_info ins ti infos = Ret r ->
  ti_mode r.1 = ti_mode ti /\ ti_use_3ic_opt r.1 = ti_use_3ic_opt ti /\
  (forall v, v ∈ ins -> defined_by_weight ir v = true ->
     exists eu_align bcast,
       is_eu_align m ir v = Ret eu_align /\ need_bcast m ir v = Ret bcast /\
       r.2 !! v
       = Some (mk_tensor_info (ti_mode ti)
                 (mk_slice_info [(0, getN ir v (lg_type lg_info))]
                                [(0, getH ir v (lg_type lg_info))])
                 (ti_use_3ic_opt ti) eu_align bcast)) /\
  (forall v, ~ (v ∈ ins /\ defined_by_weight ir v = true) ->
     r.2 !! v = infos !! v).
Proof.
  induction ins as [|x ins IH]; intros ti infos r Hrun;
    cbn [weight_inputs] in Hrun.
  - injection Hrun as <-. cbn [fst snd].
    split; [reflexivity|]. split; [reflexivity|]. split; [|reflexivity].
    intros v Hv. apply elem_of_nil in Hv. contradiction.
  - destruct (defined_by_weight ir x) eqn:Ex.
    + destruct (is_eu_align m ir x) as [eu_align| |] eqn:Eeu;
        cbn [obind] in Hrun; try discriminate.
      destruct (need_bcast m ir x) as [bcast| |] eqn:Ebc;
        cbn [obind] in Hrun; try discriminate.
      apply IH in Hrun as (Hmode & Huse & Hin & Hout).
      cbn [ti_mode ti_use_3ic_opt] in Hmode, Huse, Hin.
      split; [exact Hmode|]. split; [exact Huse|]. split.
      * intros v Hv Hw. destruct (decide (v ∈ ins)) as [Hrest|Hrest].
        { apply Hin; assumption. }
        apply elem_of_cons in Hv as [->|Hv]; [|contradiction].
        exists eu_align, bcast. split; [exact Eeu|]. split; [exact Ebc|].
        rewrite Hout by (intros [? _]; contradiction).
        apply lookup_insert_eq.
      * intros v Hv. rewrite Hout.
        -- apply lookup_insert_ne. intros ->. apply Hv. split; [left|exact Ex].
        -- intros [Hrest Hw]. apply Hv. split; [right; exact Hrest|exact Hw].
    + apply IH in Hrun as (Hmode & Huse & Hin & Hout).
      split; [exact Hmode|]. split; [exact Huse|]. split.
      * intros v Hv Hw. apply elem_of_cons in Hv as [->|Hv]; [congruence|].
        apply Hin; assumption.
      * intros v Hv. apply Hout. intros [Hrest Hw]. apply Hv.
        split; [right; exact Hrest|exact Hw].
Qed.

Lemma weight_ops_spec (ops : list Operation) :
  forall ti infos r,
  weight_ops m ir lg_info ops ti infos = Ret r ->
  (forall v op, op ∈ ops -> v ∈ get_input_values ir op ->
     defined_by_weight ir v = true ->
     exists eu_align bcast,
       is_eu_align m ir v = Ret eu_align /\ need_bcast m ir v = Ret bcast /\
       r.2 !! v
       = Some (mk_tensor_info (ti_mode ti)
                 (mk_slice_info [(0, getN ir v (lg_type lg_info))]
                                [(0, getH ir v (lg_type lg_info))])
                 (ti_use_3ic_opt ti) eu_align bcast)) /\
  (forall v,
     ~ (defined_by_weight ir v = true /\
        exists op, op ∈ ops /\ v ∈ get_input_values ir op) ->
     r.2 !! v = infos !! v).
Proof.
  induction ops as [|op ops IH]; intros ti infos r Hrun;
    cbn [weight_ops] in Hrun.
  - injection Hrun as <-. split; [|reflexivity].
    intros v op Hop. apply elem_of_nil in Hop. contradiction.
  - destruct (weight_inputs m ir lg_info (get_input_values ir op) ti infos)
      as [r1| |] eqn:Eins; cbn [obind] in Hrun; try discriminate.
    apply weight_inputs_spec in Eins as (Hmode & Huse & Hin1 & Hout1).
    apply IH in Hrun as [Hin Hout]. rewrite Hmode, Huse in Hin. split.
    + intros v o Ho Hv Hw.
      destruct (decide (Exists (fun o' => v ∈ get_input_values ir o') ops))
        as [Hlater|Hlater].
      { apply Exists_exists in Hlater as (o' & Ho' & Hv').
        apply (Hin v o' Ho' Hv' Hw). }
      rewrite Exists_exists in Hlater.
      apply elem_of_cons in Ho as [->|Ho]; [|exfalso; apply Hlater; eauto].
      rewrite Hout by (intros [_ ?]; contradiction).
      apply Hin1; assumption.
    + intros v Hv. rewrite Hout, Hout1; [reflexivity| |].
      * intros [Hin' Hw]. apply Hv. split; [exact Hw|].
        exists op. split; [left|exact Hin'].
      * intros (Hw & o & Ho & Hin'). apply Hv. split; [exact Hw|].
        exists o. split; [right; exact Ho|exact Hin'].
Qed.

(** X13: when [update_tensor_infos] returns, every tensor that had a
    record has a user (the flags of a record are read off the first
    user of its tensor: on a recorded tensor without users the function
    is undefined); every weight operand of an operation of the group
    has the record of its full extent, (0,n) and (0,h), with its own
    alignment and broadcast flags and the mode and the 3ic level of a
    record constructed for [TIMESTEP_LOAD], whatever record it had; and
    the record of every other tensor keeps its mode and its slices and
    has the three flags [use_3ic], [is_eu_align] and [need_bcast] give
    for the tensor, a tensor without record staying without. *)
Theorem update_tensor_infos_lookup (infos infos' : gmap Value tensor_info_t) :
  update_tensor_infos m ir lg_info infos = Ret infos' ->
  (forall v ti, infos !! v = Some ti -> getUsers ir v <> []) /\
  (forall v op, op ∈ group_ops lg_info -> v ∈ get_input_values ir op ->
     defined_by_weight ir v = true ->
     exists eu_align bcast,
       is_eu_align m ir v = Ret eu_align /\ need_bcast m ir v = Ret bcast /\
       infos' !! v
       = Some (mk_tensor_info
                 (ti_mode (tensor_info_of_mode m (TIMESTEP_LOAD m)))
                 (mk_slice_info [(0, getN ir v (lg_type lg_info))]
                                [(0, getH ir v (lg_type lg_info))])
                 (ti_use_3ic_opt (tensor_info_of_mode m (TIMESTEP_LOAD m)))
                 eu_align bcast)) /\
  (forall v,
     ~ (defined_by_weight ir v = true /\
        exists op, op ∈ group_ops lg_info /\ v ∈ get_input_values ir op) ->
     match infos !! v with
     | None => infos' !! v = None
     | Some ti =>
         exists eu_align bcast,
           is_eu_align m ir v = Ret eu_align /\ need_bcast m ir v = Ret bcast /\
           infos' !! v
           = Some (mk_tensor_info (ti_mode ti) (ti_slice_info ti)
                     (use_3ic m ir v) eu_align bcast)
     end).
Proof.
  unfold update_tensor_infos. intros Hrun.
  destruct (update_flags_loop m ir (map_to_list infos) infos)
    as [flagged| |] eqn:Eflags; cbn [obind] in Hrun; try discriminate.
  destruct (weight_ops m ir lg_info (group_ops lg_info) _ flagged)
    as [r| |] eqn:Eweights; cbn [obind] in Hrun; try discriminate.
  injection Hrun as <-.
  apply update_flags_loop_spec in Eflags as [Hin Hout];
    [|apply NoDup_fst_map_to_list].
  apply weight_ops_spec in Eweights as [Hweights Hothers].
  assert (forall v ti, infos !! v = Some ti ->
            exists eu_align bcast,
              is_eu_align m ir v = Ret eu_align /\
              need_bcast m ir v = Ret bcast /\
              flagged !! v
              = Some (mk_tensor_info (ti_mode ti) (ti_slice_info ti)
                        (use_3ic m ir v) eu_align bcast)) as Hflags.
  { intros v ti Hv. apply elem_of_map_to_list in Hv.
    destruct (Hin v ti Hv) as (ti' & Hti' & Hrec). unfold update_flags in Hti'.
    destruct (is_eu_align m ir v) as [eu_align| |]; cbn [obind] in Hti';
      try discriminate.
    destruct (need_bcast m ir v) as [bcast| |]; cbn [obind] in Hti';
      try discriminate.
    injection Hti' as <-. exists eu_align, bcast. auto. }
  split; [|split].
  - intros v ti Hv. destruct (Hflags v ti Hv) as (eu_align & _ & Heu & _).
    eapply is_eu_align_users. exact Heu.
  - exact Hweights.
  - intros v Hv. rewrite (Hothers v Hv).
    destruct (infos !! v) as [ti|] eqn:Ev; [apply Hflags; exact Ev|].
    rewrite Hout; [exact Ev|].
    intros Hk. apply list_elem_of_fmap in Hk as ([w tw] & -> & Hk).
    apply elem_of_map_to_list in Hk. cbn [fst] in Ev. congruence.
Qed.

End TensorInfosFacts.

Lemma update_tensor_infos_lookup_witness :
  match update_tensor_infos (PolicyExamples.demo_module OtherTpuOp)
          (Examples.chain_ir Examples.elementwise_backward) Examples.chain_lg
          {[ 1%nat := mk_tensor_info 0 (mk_slice_info [(0, 1)] [(0, 32)])
                        7 false true ]} with
  | Ret infos' =>
      infos' !! 10%nat
      = Some (mk_tensor_info 0 (mk_slice_info [(0, 8)] [(0, 3)]) 0 true false)
      /\
      infos' !! 1%nat
      = Some (mk_tensor_info 0 (mk_slice_info [(0, 1)] [(0, 32)]) 0 true false)
      /\
      infos' !! 0%nat = None
  | _ => False
  end.
Proof.
  destruct (update_tensor_infos _ _ _ _) as [infos'| |] eqn:Erun.
  - destruct (update_tensor_infos_lookup (PolicyExamples.demo_module OtherTpuOp)
                (Examples.chain_ir Examples.elementwise_backward)
                Examples.chain_lg _ infos' Erun) as (_ & Hweights & Hothers).
    split; [|split].
    + assert (0%nat ∈ group_ops Examples.chain_lg) as Hop by left.
      assert (10%nat ∈ get_input_values
                         (Examples.chain_ir Examples.elementwise_backward)
                         0%nat) as Hin by (right; left).
      destruct (Hweights 10%nat 0%nat Hop Hin eq_refl)
        as (eu_align & bcast & Heu & Hbc & Hrec).
      vm_compute in Heu, Hbc. injection Heu as <-. injection Hbc as <-.
      exact Hrec.
    + assert (~ (defined_by_weight
                   (Examples.chain_ir Examples.elementwise_backward) 1%nat
                 = true /\
                 exists op, op ∈ group_ops Examples.chain_lg /\
                   1%nat ∈ get_input_values
                             (Examples.chain_ir Examples.elementwise_backward)
                             op)) as Hnot
        by (intros [Hw _]; discriminate Hw).
      pose proof (Hothers 1%nat Hnot) as H1.
      rewrite lookup_singleton_eq in H1.
      destruct H1 as (eu_align & bcast & Heu & Hbc & Hrec).
      vm_compute in Heu, Hbc. injection Heu as <-. injection Hbc as <-.
      exact Hrec.
    + assert (~ (defined_by_weight
                   (Examples.chain_ir Examples.elementwise_backward) 0%nat
                 = true /\
                 exists op, op ∈ group_ops Examples.chain_lg /\
                   0%nat ∈ get_input_values
                             (Examples.chain_ir Examples.elementwise_backward)
                             op)) as Hnot
        by (intros [Hw _]; discriminate Hw).
      pose proof (Hothers 0%nat Hnot) as H0.
      rewrite lookup_singleton_ne in H0 by discriminate. exact H0.
  - vm_compute in Erun. discriminate Erun.
  - vm_compute in Erun. discriminate Erun.
Defined.

(** ** What the search returns *)

Section SearchFacts.

Context (m : Module) (ir : Ir) (arch : Arch) (time_step : TimeStep).
Context (lg_info : LgInfo) (fuel : nat).

Lemma iterate_break (max_shape_secs : shape_secs_t) (nsec : Z)
  (shape_secs s : shape_secs_t) (infos : gmap Value slice_info_t) :
  iterate ir arch time_step lg_info fuel max_shape_secs nsec shape_secs
  = Ret (Break s infos) ->
  hsecs s <= hsecs max_shape_secs /\
  nsec <= nsecs s <= Z.max nsec (nsecs max_shape_secs).
Proof.
  unfold iterate.
  destruct (stripe_mine_max_slice _ _ _ _ _ _) as [[ok infos']| |];
    cbn [obind fst snd]; try discriminate.
  destruct ok; cbn [negb]; [|discriminate].
  destruct (get_split_max_secs _ _ _) as [total| |]; cbn [obind];
    try discriminate.
  destruct (Z.leb_spec (hsecs (raised max_shape_secs (candidate nsec shape_secs)
                                 total)) (hsecs max_shape_secs)) as [Hh|Hh];
    [|discriminate].
  intros [= <- _]. split; [exact Hh|].
  unfold raised, candidate. cbn [nsecs]. lia.
Qed.

Lemma search_success (max_shape_secs : shape_secs_t) (count : nat) :
  forall nsec shape_secs infos0 s infos,
  nsec + Z.of_nat count - 1 <= nsecs max_shape_secs ->
  search m ir arch time_step lg_info fuel count max_shape_secs nsec shape_secs
    infos0 = Ret (true, s, infos) ->
  nsec <= nsecs s <= nsecs max_shape_secs /\ hsecs s <= hsecs max_shape_secs.
Proof.
  induction count as [|count IH]; intros nsec shape_secs infos0 s infos Hle Hrun;
    cbn [search] in Hrun.
  { destruct (update_tensor_infos m ir lg_info infos0); discriminate Hrun. }
  destruct (iterate _ _ _ _ _ _ _ _) as [[s' i'|s' i'|s' i']| |] eqn:Eit;
    cbn [obind] in Hrun; try discriminate.
  - apply iterate_break in Eit.
    destruct (update_tensor_infos m ir lg_info _); cbn [obind] in Hrun;
      try discriminate.
    injection Hrun as <- _. lia.
  - apply IH in Hrun; lia.
Qed.

(** X14: when [update_data_split] reports success, the split factors it
    leaves respect the ceiling of [get_group_max_secs]: n-sections lies
    between 1 and max-n-sections, and h-sections is at most
    max-h-sections. *)
Theorem update_data_split_within_ceiling
  (infos0 infos : gmap Value tensor_info_t) (s : shape_secs_t) :
  update_data_split m ir arch time_step lg_info fuel infos0
  = Ret (true, s, infos) ->
  exists max_shape_secs,
    get_group_max_secs ir arch lg_info = Ret max_shape_secs /\
    1 <= nsecs s <= nsecs max_shape_secs /\
    hsecs s <= hsecs max_shape_secs.
Proof.
  unfold update_data_split.
  destruct (get_group_max_secs ir arch lg_info) as [max_shape_secs| |];
    cbn [obind]; try discriminate.
  intros Hrun. exists max_shape_secs. split; [reflexivity|].
  destruct (Z.to_nat (nsecs max_shape_secs)) as [|count] eqn:Ecount.
  { cbn [search] in Hrun.
    destruct (update_tensor_infos m ir lg_info infos0); discriminate Hrun. }
  rewrite <- Ecount in Hrun. apply search_success in Hrun; [exact Hrun|lia].
Qed.

(** X15: when the ceiling allows no batch section (max-n-sections below
    1), [update_data_split] runs no iteration and never calls the
    propagator: what it does is [update_tensor_infos] on the incoming
    records; if that returns, the driver reports failure with the split
    factors (1,1) and these records, and if that is undefined (a
    recorded tensor without users), so is the driver. *)
Theorem update_data_split_no_candidate (infos0 : gmap Value tensor_info_t)
  (max_shape_secs : shape_secs_t) :
  get_group_max_secs ir arch lg_info = Ret max_shape_secs ->
  nsecs max_shape_secs < 1 ->
  update_data_split m ir arch time_step lg_info fuel infos0
  = run infos <~ update_tensor_infos m ir lg_info infos0 then
    Ret (false, mk_shape_secs 1 1, infos).
Proof.
  intros Hmax Hn. unfold update_data_split. rewrite Hmax. cbn [obind].
  replace (Z.to_nat (nsecs max_shape_secs)) with 0%nat by lia. reflexivity.
Qed.

End SearchFacts.

Lemma update_data_split_within_ceiling_witness :
  match update_data_split (PolicyExamples.demo_module OtherTpuOp)
          Examples.pair_ir Examples.small_lmem Examples.one_step
          Examples.pair_lg 10 ∅ with
  | Ret (true, s, _) =>
      exists max_shape_secs,
        get_group_max_secs Examples.pair_ir Examples.small_lmem Examples.pair_lg
        = Ret max_shape_secs /\
        1 <= nsecs s <= nsecs max_shape_secs /\
        hsecs s <= hsecs max_shape_secs
  | _ => False
  end.
Proof.
  destruct (update_data_split _ _ _ _ _ _ _) as [[[[] s] infos]| |] eqn:Erun.
  - apply (update_data_split_within_ceiling
             (PolicyExamples.demo_module OtherTpuOp) Examples.pair_ir
             Examples.small_lmem Examples.one_step Examples.pair_lg 10 ∅ infos
             s Erun).
  - vm_compute in Erun. discriminate Erun.
  - vm_compute in Erun. discriminate Erun.
  - vm_compute in Erun. discriminate Erun.
Defined.

(** ** The accountant and the list of buffers *)

Lemma demand_at_Permutation (T : Z) (bufs bufs' : list mem_buffer_value_t)
  (ts : Z) :
  bufs ≡ₚ bufs' -> demand_at T bufs ts = demand_at T bufs' ts.
Proof.
  induction 1 as [|b l l' _ IH|b b' l|l l' l'' _ IH1 _ IH2];
    cbn [demand_at foldr].
  - reflexivity.
  - fold (demand_at T l ts) (demand_at T l' ts). lia.
  - lia.
  - congruence.
Qed.

Lemma is_peak_unique (T : Z) (bufs : list mem_buffer_value_t) (p p' : Z) :
  is_peak T bufs p -> is_peak T bufs p' -> p = p'.
Proof.
  intros [(ts & Hts & Hp) Hmax] [(ts' & Hts' & Hp') Hmax'].
  specialize (Hmax ts' Hts'). specialize (Hmax' ts Hts). lia.
Qed.

(** X16: the result of [get_split_max_secs] does not depend on the order
    in which the buffers are visited. *)
Theorem get_split_max_secs_Permutation (LMEM T : Z)
  (bufs bufs' : list mem_buffer_value_t) :
  1 <= T -> LMEM <> 0 ->
  Forall (in_schedule T) bufs ->
  bufs ≡ₚ bufs' ->
  get_split_max_secs LMEM T bufs = get_split_max_secs LMEM T bufs'.
Proof.
  intros HT HL Hin Hperm.
  assert (Forall (in_schedule T) bufs') as Hin'.
  { rewrite <- Hperm. exact Hin. }
  destruct (get_split_max_secs_spec LMEM T bufs HT Hin HL) as (p & -> & Hp).
  destruct (get_split_max_secs_spec LMEM T bufs' HT Hin' HL) as (p' & -> & Hp').
  f_equal. f_equal. apply (is_peak_unique T bufs); [exact Hp|].
  destruct Hp' as [(ts & Hts & Hpk) Hmax]. split.
  - exists ts. split; [exact Hts|].
    rewrite (demand_at_Permutation T bufs bufs' ts Hperm). exact Hpk.
  - intros ts' Hts'.
    rewrite (demand_at_Permutation T bufs bufs' ts' Hperm). apply Hmax, Hts'.
Qed.

Lemma get_split_max_secs_Permutation_witness :
  get_split_max_secs 100 3 [mk_mem_buffer 0 1 60; mk_mem_buffer 2 0 70]
  = get_split_max_secs 100 3 [mk_mem_buffer 2 0 70; mk_mem_buffer 0 1 60].
Proof.
  apply (get_split_max_secs_Permutation 100 3
           [mk_mem_buffer 0 1 60; mk_mem_buffer 2 0 70]
           [mk_mem_buffer 2 0 70; mk_mem_buffer 0 1 60]).
  - lia.
  - lia.
  - repeat constructor; cbn; lia.
  - apply perm_swap.
Defined.

(** X17: adding a buffer of non-negative size to a schedule never lowers
    the number of sections [get_split_max_secs] asks for. *)
Theorem get_split_max_secs_add_buffer (LMEM T : Z)
  (bufs : list mem_buffer_value_t) (b : mem_buffer_value_t) :
  1 <= T -> 0 < LMEM ->
  Forall (in_schedule T) bufs -> in_schedule T b -> 0 <= size b ->
  exists r r',
    get_split_max_secs LMEM T bufs = Ret r /\
    get_split_max_secs LMEM T (b :: bufs) = Ret r' /\
    r <= r'.
Proof.
  intros HT HL Hin Hb Hsize.
  destruct (get_split_max_secs_spec LMEM T bufs HT Hin ltac:(lia))
    as (p & Hr & [(ts & Hts & Hp) _]).
  destruct (get_split_max_secs_spec LMEM T (b :: bufs) HT
              ltac:(constructor; assumption) ltac:(lia))
    as (p' & Hr' & [_ Hmax']).
  exists (ceiling_func p LMEM), (ceiling_func p' LMEM).
  split; [exact Hr|]. split; [exact Hr'|].
  unfold ceiling_func. apply Z.quot_le_mono; [exact HL|].
  specialize (Hmax' ts Hts). cbn [demand_at foldr] in Hmax'.
  fold (demand_at T bufs ts) in Hmax'.
  destruct (live_at T b ts); lia.
Qed.

Lemma get_split_max_secs_add_buffer_witness :
  exists r r',
    get_split_max_secs 100 3 [mk_mem_buffer 0 1 60] = Ret r /\
    get_split_max_secs 100 3 [mk_mem_buffer 2 0 70; mk_mem_buffer 0 1 60]
    = Ret r' /\
    r <= r'.
Proof.
  apply (get_split_max_secs_add_buffer 100 3 [mk_mem_buffer 0 1 60]
           (mk_mem_buffer 2 0 70)).
  - lia.
  - lia.
  - repeat constructor; cbn; lia.
  - split; cbn; lia.
  - cbn. lia.
Defined.

Lemma update_data_split_no_candidate_witness :
  update_data_split (PolicyExamples.demo_module OtherTpuOp)
    PolicyExamples.empty_batch_ir Examples.small_lmem Examples.one_step
    Examples.pair_lg 10 ∅
  = run infos <~ update_tensor_infos (PolicyExamples.demo_module OtherTpuOp)
                   PolicyExamples.empty_batch_ir Examples.pair_lg ∅ then
    Ret (false, mk_shape_secs 1 1, infos).
Proof.
  apply (update_data_split_no_candidate (PolicyExamples.demo_module OtherTpuOp)
           PolicyExamples.empty_batch_ir Examples.small_lmem Examples.one_step
           Examples.pair_lg 10 ∅ (mk_shape_secs 0 2)).
  - vm_compute. reflexivity.
  - cbn. lia.
Defined.

(** ** The initial split factors *)

Section InitialGuessFacts.

Context (m : Module) (ir : Ir) (arch : Arch) (lg_info : LgInfo).

Lemma init_secs_op_bounds (max_shape_secs : shape_secs_t) (op : Operation)
  (s0 s : shape_secs_t) :
  1 <= nsecs s0 ->
  init_secs_op m ir arch lg_info max_shape_secs op s0 = Ret s ->
  nsecs s0 <= nsecs s <= Z.max (nsecs s0) (nsecs max_shape_secs) /\
  hsecs s0 <= hsecs s.
Proof.
  intros Hn. unfold init_secs_op.
  destruct (get_input_values ir op !! 0%nat) as [in0|]; cbn [of_option obind];
    [|discriminate].
  destruct (get_output_values ir op !! 0%nat) as [out0|]; cbn [of_option obind];
    [|discriminate].
  destruct (more_inputs_bytes _ _ _ _ _) as [total| |]; cbn [obind];
    try discriminate.
  destruct (LMEM_BYTES arch =? 0); [discriminate|].
  destruct (_ =? 0); [discriminate|].
  intros [= <-]. cbn [nsecs hsecs]. lia.
Qed.

Lemma init_secs_ops_bounds (max_shape_secs : shape_secs_t)
  (ops : list Operation) : forall s0 s,
  1 <= nsecs s0 ->
  init_secs_ops m ir arch lg_info max_shape_secs ops s0 = Ret s ->
  nsecs s0 <= nsecs s <= Z.max (nsecs s0) (nsecs max_shape_secs) /\
  hsecs s0 <= hsecs s.
Proof.
  induction ops as [|op ops IH]; intros s0 s Hn; cbn [init_secs_ops].
  - intros [= <-]. lia.
  - destruct (init_secs_op m ir arch lg_info max_shape_secs op s0)
      as [s1| |] eqn:E1; cbn [obind]; try discriminate.
    apply init_secs_op_bounds in E1; [|exact Hn].
    intros Hrest. apply IH in Hrest; lia.
Qed.

(** X18: whatever the footprints are, the split factors that
    [init_group_data_secs] returns are at least (1,1), they are (1,1)
    for a group of a single operation, and the n-sections never exceeds
    the larger of 1 and the max-n-sections of [get_group_max_secs]. *)
Theorem init_group_data_secs_bounds (s : shape_secs_t) :
  init_group_data_secs m ir arch lg_info = Ret s ->
  1 <= nsecs s /\ 1 <= hsecs s /\
  (length (group_ops lg_info) = 1%nat -> s = mk_shape_secs 1 1) /\
  (forall max_shape_secs,
     get_group_max_secs ir arch lg_info = Ret max_shape_secs ->
     nsecs s <= Z.max 1 (nsecs max_shape_secs)).
Proof.
  unfold init_group_data_secs.
  destruct (Nat.eqb_spec (length (group_ops lg_info)) 1) as [Hone|Hops].
  - intros [= <-]. cbn. split; [lia|]. split; [lia|]. split; [reflexivity|].
    intros; lia.
  - destruct (get_group_max_secs ir arch lg_info) as [max_shape_secs| |];
      cbn [obind]; try discriminate.
    intros Hrun. apply init_secs_ops_bounds in Hrun; [|cbn; lia].
    cbn [nsecs hsecs] in Hrun.
    split; [lia|]. split; [lia|]. split; [contradiction|].
    intros max' [= <-]. lia.
Qed.

End InitialGuessFacts.

Lemma init_group_data_secs_bounds_witness :
  match init_group_data_secs (PolicyExamples.demo_module OtherTpuOp)
          Examples.pair_ir Examples.small_lmem Examples.pair_lg with
  | Ret s =>
      1 <= nsecs s /\ 1 <= hsecs s /\
      (length (group_ops Examples.pair_lg) = 1%nat -> s = mk_shape_secs 1 1) /\
      (forall max_shape_secs,
         get_group_max_secs Examples.pair_ir Examples.small_lmem Examples.pair_lg
         = Ret max_shape_secs ->
         nsecs s <= Z.max 1 (nsecs max_shape_secs))
  | _ => False
  end.
Proof.
  destruct (init_group_data_secs _ _ _ _) as [s| |] eqn:Erun.
  - apply (init_group_data_secs_bounds (PolicyExamples.demo_module OtherTpuOp)
             Examples.pair_ir Examples.small_lmem Examples.pair_lg s Erun).
  - vm_compute in Erun. discriminate Erun.
  - vm_compute in Erun. discriminate Erun.
Defined.

(** ** Buffer sizes *)

(** X19: [get_buffer_size] sizes a tensor by the longest slices of its
    record alone: a record whose slice info is the exact partition of
    extents [n] and [h] gives the buffer of the record that holds the
    two pairs (0, ceiling_func(n, nsecs)) and (0, (h + hsecs - 1) /
    hsecs) instead, the other fields being the same. *)
Theorem get_buffer_size_exact_partition (m : Module) (ir : Ir) (v : Value)
  (ti : tensor_info_t) (shape_secs : shape_secs_t) (n h : Z)
  (group_type : group_type_t) :
  1 <= nsecs shape_secs -> 1 <= hsecs shape_secs -> 0 <= n -> 0 <= h ->
  ti_slice_info ti = get_out_slice_info shape_secs n h ->
  get_buffer_size m ir v ti group_type
  = get_buffer_size m ir v
      (mk_tensor_info (ti_mode ti)
         (mk_slice_info [(0, ceiling_func n (nsecs shape_secs))]
            [(0, (h + hsecs shape_secs - 1) ÷ hsecs shape_secs)])
         (ti_use_3ic_opt ti) (ti_eu_align ti) (ti_need_bcast ti))
      group_type.
Proof.
  intros Hn Hh Hen Heh Hsi. unfold get_buffer_size, get_max_slice_nh.
  rewrite Hsi. cbn [get_out_slice_info si_n si_h ti_slice_info ti_eu_align].
  rewrite !out_slices_longest by assumption. cbn [foldl snd].
  assert (0 <= ceiling_func n (nsecs shape_secs)) as H1.
  { unfold ceiling_func. apply Z.quot_pos; lia. }
  assert (0 <= (h + hsecs shape_secs - 1) ÷ hsecs shape_secs) as H2.
  { apply Z.quot_pos; lia. }
  rewrite !Z.max_r by assumption. reflexivity.
Qed.

Lemma get_buffer_size_exact_partition_witness :
  get_buffer_size (PolicyExamples.demo_module OtherTpuOp) Examples.pair_ir
    2%nat
    (mk_tensor_info 0 (get_out_slice_info (mk_shape_secs 3 2) 4 2) 0 true false)
    0
  = get_buffer_size (PolicyExamples.demo_module OtherTpuOp) Examples.pair_ir
      2%nat
      (mk_tensor_info 0
         (mk_slice_info [(0, ceiling_func 4 3)] [(0, (2 + 2 - 1) ÷ 2)])
         0 true false)
      0.
Proof.
  apply (get_buffer_size_exact_partition
           (PolicyExamples.demo_module OtherTpuOp) Examples.pair_ir 2%nat
           (mk_tensor_info 0 (get_out_slice_info (mk_shape_secs 3 2) 4 2)
              0 true false)
           (mk_shape_secs 3 2) 4 2 0); cbn; try lia. reflexivity.
Defined.

(** ** Alignment and broadcast policies *)

Section PolicyFacts.

Context (m : Module) (ir : Ir).

(** X20: on every target family, [is_eu_align] asks for an aligned
    layout for every operand that is not a weight; the answer comes
    from the first user, so a tensor without users has none. *)
Theorem is_eu_align_non_weight (opd : Value) :
  isWeight m opd = false ->
  is_eu_align m ir opd
  = match getUsers ir opd with [] => Undef | _ => Ret true end.
Proof.
  intros Hw.
  unfold is_eu_align, is_eu_align_bm1686, is_eu_align_cv18xx,
    is_eu_align_common, first_user.
  rewrite Hw.
  destruct (isBM1686 m), (isCV18xx m), (getUsers ir opd); reflexivity.
Qed.

(** X21: where the BM1686 rule and the common rule both answer, they
    differ for one case only: a weight whose first user is a per-axis
    requantisation taking it as operand 1 is not aligned on BM1686 and
    aligned by the common rule. *)
Theorem is_eu_align_bm1686_vs_common (opd : Value) (b b' : bool) :
  is_eu_align_bm1686 m ir opd = Ret b ->
  is_eu_align_common m ir opd = Ret b' ->
  b <> b' ->
  b = false /\ b' = true /\ isWeight m opd = true /\
  exists op users,
    getUsers ir opd = op :: users /\ tpu_kind m op = RequantIntAxisOp /\
    getOperands ir op !! 1%nat = Some opd.
Proof.
  unfold is_eu_align_bm1686, is_eu_align_common, first_user.
  destruct (getUsers ir opd) as [|op users]; [discriminate|]. cbn [obind].
  destruct (isWeight m opd); [|intros; congruence].
  destruct (tpu_kind m op) eqn:Ekind; try (intros; congruence).
  unfold is_operand.
  destruct (getOperands ir op !! 1%nat) as [operand|] eqn:Eoperand;
    cbn [of_option obind]; [|discriminate].
  intros [= <-] [= <-] Hne.
  destruct (bool_decide_reflect (opd = operand)) as [->|]; [|contradiction].
  do 3 (split; [reflexivity|]). exists op, users.
  split; [reflexivity|]. split; [exact Ekind|exact Eoperand].
Qed.

(** X22: [need_bcast] answers true only for a tensor with exactly one
    use, and only when that user is a lookup that takes it as its
    table, a BF16 lookup that takes it as its table or mantissa, or, on
    CV18xx, a layer normalisation fed by a weight. *)
Theorem need_bcast_true (opd : Value) :
  need_bcast m ir opd = Ret true ->
  exists use_op,
    getUsers ir opd = [use_op] /\
    ((tpu_kind m use_op = LutOp /\ opd = getTable m use_op) \/
     (tpu_kind m use_op = LutBF16Op /\
      (opd = getTable m use_op \/ opd = getMantissa m use_op)) \/
     (tpu_kind m use_op = LayerNormOp /\ isCV18xx m = true /\
      exists def, getDefiningOp ir opd = Some def /\ op_kind ir def = WeightOp)).
Proof.
  unfold need_bcast, hasOneUse, first_user.
  destruct (getUsers ir opd) as [|use_op [|u users]]; cbn; try discriminate.
  intros H. exists use_op. split; [reflexivity|].
  destruct (tpu_kind m use_op) eqn:Ekind; try discriminate.
  - left. injection H as H. apply bool_decide_eq_true_1 in H. auto.
  - right. left. injection H as H. apply orb_true_iff in H as [H|H];
      apply bool_decide_eq_true_1 in H; auto.
  - right. right. destruct (isCV18xx m); [|discriminate].
    destruct (getDefiningOp ir opd) as [def|]; [|discriminate].
    injection H as H. split; [reflexivity|]. split; [reflexivity|].
    exists def. split; [reflexivity|].
    destruct (op_kind ir def); try discriminate. reflexivity.
Qed.

Lemma use_3ic_users_skip (opd : Value) (pre rest : list Operation) :
  Forall (fun u => ~ (tpu_kind m u = Conv2DOp /\ opd = getInput m u)) pre ->
  use_3ic_users m opd (pre ++ rest) = use_3ic_users m opd rest.
Proof.
  induction 1 as [|u pre Hu _ IH]; [reflexivity|].
  cbn [app use_3ic_users].
  destruct (tpu_kind m u) eqn:Ekind; try exact IH.
  rewrite bool_decide_eq_false_2; [exact IH|].
  intros Heq. apply Hu. split; [reflexivity|exact Heq].
Qed.

(** X23: [use_3ic] returns the optimisation level of the first user that
    is a 2-D convolution taking the tensor as its input, whatever later
    users say, and 0 when no user is one. *)
Theorem use_3ic_first_convolution (opd : Value) :
  (forall pre use_op post,
     getUsers ir opd = pre ++ use_op :: post ->
     Forall (fun u => ~ (tpu_kind m u = Conv2DOp /\ opd = getInput m u)) pre ->
     tpu_kind m use_op = Conv2DOp -> opd = getInput m use_op ->
     use_3ic m ir opd = getUse_3icOptimize m use_op) /\
  (Forall (fun u => ~ (tpu_kind m u = Conv2DOp /\ opd = getInput m u))
          (getUsers ir opd) ->
   use_3ic m ir opd = 0).
Proof.
  unfold use_3ic. split.
  - intros pre use_op post -> Hpre Hkind Hin.
    rewrite use_3ic_users_skip by exact Hpre. cbn [use_3ic_users].
    rewrite Hkind. rewrite bool_decide_eq_true_2 by exact Hin. reflexivity.
  - intros Hall. rewrite <- (app_nil_r (getUsers ir opd)).
    rewrite use_3ic_users_skip by exact Hall. reflexivity.
Qed.

End PolicyFacts.

Lemma is_eu_align_non_weight_witness :
  is_eu_align (PolicyExamples.demo_module Conv2DOp)
    (Examples.chain_ir Examples.elementwise_backward) 0%nat = Ret true.
Proof.
  apply (is_eu_align_non_weight (PolicyExamples.demo_module Conv2DOp)
           (Examples.chain_ir Examples.elementwise_backward) 0%nat).
  reflexivity.
Defined.

Lemma need_bcast_true_witness :
  exists use_op,
    getUsers (Examples.chain_ir Examples.elementwise_backward) 10%nat
    = [use_op] /\
    ((tpu_kind (PolicyExamples.demo_module LutOp) use_op = LutOp /\
      10%nat = getTable (PolicyExamples.demo_module LutOp) use_op) \/
     (tpu_kind (PolicyExamples.demo_module LutOp) use_op = LutBF16Op /\
      (10%nat = getTable (PolicyExamples.demo_module LutOp) use_op \/
       10%nat = getMantissa (PolicyExamples.demo_module LutOp) use_op)) \/
     (tpu_kind (PolicyExamples.demo_module LutOp) use_op = LayerNormOp /\
      isCV18xx (PolicyExamples.demo_module LutOp) = true /\
      exists def,
        getDefiningOp (Examples.chain_ir Examples.elementwise_backward) 10%nat
        = Some def /\
        op_kind (Examples.chain_ir Examples.elementwise_backward) def
        = WeightOp)).
Proof.
  apply (need_bcast_true (PolicyExamples.demo_module LutOp)
           (Examples.chain_ir Examples.elementwise_backward) 10%nat).
  reflexivity.
Defined.

Lemma use_3ic_first_convolution_witness :
  use_3ic (PolicyExamples.demo_module Conv2DOp)
    (Examples.chain_ir Examples.elementwise_backward) 0%nat = 2 /\
  use_3ic (PolicyExamples.demo_module Conv2DOp)
    (Examples.chain_ir Examples.elementwise_backward) 2%nat = 0.
Proof.
  split.
  - apply (proj1 (use_3ic_first_convolution (PolicyExamples.demo_module Conv2DOp)
                    (Examples.chain_ir Examples.elementwise_backward) 0%nat)
             [] 0%nat []); [reflexivity|constructor|reflexivity|reflexivity].
  - apply (proj2 (use_3ic_first_convolution (PolicyExamples.demo_module Conv2DOp)
                    (Examples.chain_ir Examples.elementwise_backward) 2%nat)).
    constructor; [|constructor]. intros [Hkind _]. discriminate Hkind.
Defined.

Lemma is_eu_align_bm1686_vs_common_witness :
  false = false /\ true = true /\
  isWeight (PolicyExamples.demo_module RequantIntAxisOp) 10%nat = true /\
  exists op users,
    getUsers (Examples.chain_ir Examples.elementwise_backward) 10%nat
    = op :: users /\
    tpu_kind (PolicyExamples.demo_module RequantIntAxisOp) op
    = RequantIntAxisOp /\
    getOperands (Examples.chain_ir Examples.elementwise_backward) op !! 1%nat
    = Some 10%nat.
Proof.
  apply (is_eu_align_bm1686_vs_common (PolicyExamples.demo_module RequantIntAxisOp)
           (Examples.chain_ir Examples.elementwise_backward) 10%nat false true);
    [reflexivity|reflexivity|discriminate].
Defined.


(** ** Fake global addresses *)

Section FakeAddresses.

Context (offset : Z).

Lemma set_fake_addresses_app (vs ws : list Value) : forall i address,
  set_fake_addresses offset (vs ++ ws) i address
  = set_fake_addresses offset ws
      (set_fake_addresses offset vs i address).2
      (set_fake_addresses offset vs i address).1.
Proof.
  induction vs as [|v vs IH]; intros i address; [reflexivity|].
  cbn [app set_fake_addresses]. apply IH.
Qed.

Lemma set_fake_addresses_other (v : Value) (vs : list Value) :
  forall i address,
  v ∉ vs ->
  (set_fake_addresses offset vs i address).1 !! v = address !! v.
Proof.
  induction vs as [|w vs IH]; intros i address Hnot; [reflexivity|].
  cbn [set_fake_addresses].
  apply not_elem_of_cons in Hnot as [Hne Hnot].
  rewrite IH by exact Hnot. apply lookup_insert_ne. congruence.
Qed.

Lemma set_fake_addresses_last (v : Value) (vs : list Value) :
  forall (k : nat) i address,
  vs !! k = Some v ->
  (forall j, (k < j)%nat -> vs !! j <> Some v) ->
  (set_fake_addresses offset vs i address).1 !! v
  = Some (offset * (i + Z.of_nat k)).
Proof.
  induction vs as [|w vs IH]; intros k i address Hk Hlast; [discriminate|].
  cbn [set_fake_addresses]. destruct k as [|k].
  - injection Hk as ->.
    rewrite set_fake_addresses_other.
    + rewrite lookup_insert_eq. f_equal. lia.
    + intros Hin. apply list_elem_of_lookup in Hin as [j Hj].
      apply (Hlast (S j)); [lia|exact Hj].
  - rewrite (IH k (i + 1) _ Hk).
    + f_equal. lia.
    + intros j Hj. apply (Hlast (S j)). lia.
Qed.

End FakeAddresses.

(** X24: [generate_fake_global_addr] numbers the inputs of an operation
    and then its outputs from 0 and gives the value at position [k] the
    address LMEM_BANK_BYTES * k; a value listed more than once keeps the
    address of its last position, and the address of every other value
    is left as it was. *)
Theorem generate_fake_global_addr_lookup (m : Module) (ir : Ir)
  (op : Operation) (address : gmap Value Z) (v : Value) :
  (forall k : nat,
     (get_input_values ir op ++ get_output_values ir op) !! k = Some v ->
     (forall j, (k < j)%nat ->
        (get_input_values ir op ++ get_output_values ir op) !! j <> Some v) ->
     generate_fake_global_addr m ir op address !! v
     = Some (LMEM_BANK_BYTES m * Z.of_nat k)) /\
  (v ∉ get_input_values ir op ++ get_output_values ir op ->
   generate_fake_global_addr m ir op address !! v = address !! v).
Proof.
  assert (generate_fake_global_addr m ir op address
          = (set_fake_addresses (LMEM_BANK_BYTES m)
               (get_input_values ir op ++ get_output_values ir op) 0
               address).1) as ->.
  { unfold generate_fake_global_addr. rewrite set_fake_addresses_app.
    destruct (set_fake_addresses (LMEM_BANK_BYTES m) (get_input_values ir op)
                0 address) as [address' i]. reflexivity. }
  split.
  - intros k Hk Hlast.
    rewrite (set_fake_addresses_last _ v _ k 0 address Hk Hlast).
    f_equal.
  - apply set_fake_addresses_other.
Qed.

Lemma generate_fake_global_addr_lookup_witness :
  generate_fake_global_addr (PolicyExamples.demo_module LutOp)
    (Examples.chain_ir Examples.elementwise_backward) 0%nat ∅ !! 1%nat
  = Some (LMEM_BANK_BYTES (PolicyExamples.demo_module LutOp) * Z.of_nat 2) /\
  generate_fake_global_addr (PolicyExamples.demo_module LutOp)
    (Examples.chain_ir Examples.elementwise_backward) 0%nat ∅ !! 7%nat
  = (∅ : gmap Value Z) !! 7%nat.
Proof.
  split.
  - apply (proj1 (generate_fake_global_addr_lookup
                    (PolicyExamples.demo_module LutOp)
                    (Examples.chain_ir Examples.elementwise_backward)
                    0%nat ∅ 1%nat) 2%nat).
    + reflexivity.
    + intros [|[|[|j]]] Hj; try lia; discriminate.
  - apply (proj2 (generate_fake_global_addr_lookup
                    (PolicyExamples.demo_module LutOp)
                    (Examples.chain_ir Examples.elementwise_backward)
                    0%nat ∅ 7%nat)).
    vm_compute. intros Hin.
    repeat (apply elem_of_cons in Hin as [Hin|Hin]; [discriminate Hin|]).
    apply elem_of_nil in Hin. exact Hin.
Defined.


(** ** The height ceiling *)

Section HeightCeiling.

Context (ir : Ir) (arch : Arch) (group_type : group_type_t).

Lemma max_secs_value_height (op : Operation) (v : Value)
  (st st' : max_secs_state) :
  max_secs_value ir arch group_type op v st = Ret st' ->
  1 <= getH ir v group_type -> 1 <= max_hsecs st ->
  1 <= max_hsecs st' <= max_hsecs st /\
  (AllowDataSplit ir op 2 group_type = false -> max_hsecs st' = 1) /\
  (AllowDataSplit ir op 2 group_type = true ->
   max_hsecs st' <= getH ir v group_type).
Proof.
  unfold max_secs_value.
  destruct (if ALIGN_4N arch then _ else _) as [n_align'| |]; cbn [obind];
    try discriminate.
  destruct (n_align' =? 0); [discriminate|]. intros [= <-] Hh Hst.
  cbn [max_hsecs].
  destruct (AllowDataSplit ir op 2 group_type);
    (split; [lia|]); split; intros; try discriminate; lia.
Qed.

Lemma max_secs_values_height (op : Operation) (vs : list Value) :
  forall st st',
  max_secs_values ir arch group_type op vs st = Ret st' ->
  (forall v, v ∈ vs -> 1 <= getH ir v group_type) -> 1 <= max_hsecs st ->
  1 <= max_hsecs st' <= max_hsecs st /\
  (vs <> [] -> AllowDataSplit ir op 2 group_type = false ->
   max_hsecs st' = 1) /\
  (AllowDataSplit ir op 2 group_type = true ->
   forall v, v ∈ vs -> max_hsecs st' <= getH ir v group_type).
Proof.
  induction vs as [|v vs IH]; intros st st' Hrun Hheights Hst;
    cbn [max_secs_values] in Hrun.
  - injection Hrun as <-. split; [lia|]. split; [congruence|].
    intros _ v Hv. apply elem_of_nil in Hv. contradiction.
  - destruct (max_secs_value ir arch group_type op v st) as [st1| |] eqn:E1;
      cbn [obind] in Hrun; try discriminate.
    apply max_secs_value_height in E1 as (Hst1 & Hforbid1 & Hallow1);
      [|apply Hheights; left|exact Hst].
    apply IH in Hrun as (Hst' & Hforbid & Hallow);
      [|intros w Hw; apply Hheights; right; exact Hw|lia].
    split; [lia|]. split.
    + intros _ Hno. specialize (Hforbid1 Hno). lia.
    + intros Hyes w Hw. apply elem_of_cons in Hw as [->|Hw].
      * specialize (Hallow1 Hyes). lia.
      * apply (Hallow Hyes w Hw).
Qed.

Lemma max_secs_ops_height (ops : list Operation) :
  forall st st',
  max_secs_ops ir arch group_type ops st = Ret st' ->
  (forall op v, op ∈ ops -> v ∈ get_output_values ir op ->
     1 <= getH ir v group_type) ->
  1 <= max_hsecs st ->
  1 <= max_hsecs st' <= max_hsecs st /\
  (forall op, op ∈ ops -> get_output_values ir op <> [] ->
     AllowDataSplit ir op 2 group_type = false -> max_hsecs st' = 1) /\
  (forall op v, op ∈ ops -> v ∈ get_output_values ir op ->
     AllowDataSplit ir op 2 group_type = true ->
     max_hsecs st' <= getH ir v group_type).
Proof.
  induction ops as [|op ops IH]; intros st st' Hrun Hheights Hst;
    cbn [max_secs_ops] in Hrun.
  - injection Hrun as <-. split; [lia|].
    split; intros op; intros; exfalso; eapply not_elem_of_nil; eassumption.
  - destruct (max_secs_values ir arch group_type op _ st) as [st1| |] eqn:E1;
      cbn [obind] in Hrun; try discriminate.
    apply max_secs_values_height in E1 as (Hst1 & Hforbid1 & Hallow1);
      [|intros w Hw; apply (Hheights op w); [left|exact Hw]|exact Hst].
    apply IH in Hrun as (Hst' & Hforbid & Hallow);
      [|intros o w Ho Hw; apply (Hheights o w); [right|]; assumption|lia].
    split; [lia|]. split.
    + intros o Ho Hout Hno. apply elem_of_cons in Ho as [->|Ho].
      * specialize (Hforbid1 Hout Hno). lia.
      * apply (Hforbid o Ho Hout Hno).
    + intros o w Ho Hw Hyes. apply elem_of_cons in Ho as [->|Ho].
      * specialize (Hallow1 Hyes w Hw). lia.
      * apply (Hallow o w Ho Hw Hyes).
Qed.

End HeightCeiling.

(** X25: when every output of the group has a height of at least 1, the
    max-h-sections of [get_group_max_secs] is at least 1, it is exactly
    1 as soon as one operation with an output does not allow the split
    of the height, and it is no greater than the height of any output
    of an operation that allows it. *)
Theorem get_group_max_secs_height (ir : Ir) (arch : Arch) (lg_info : LgInfo)
  (max_shape_secs : shape_secs_t) :
  get_group_max_secs ir arch lg_info = Ret max_shape_secs ->
  (forall op v, op ∈ group_ops lg_info -> v ∈ get_output_values ir op ->
     1 <= getH ir v (lg_type lg_info)) ->
  1 <= hsecs max_shape_secs /\
  (forall op, op ∈ group_ops lg_info -> get_output_values ir op <> [] ->
     AllowDataSplit ir op 2 (lg_type lg_info) = false ->
     hsecs max_shape_secs = 1) /\
  (forall op v, op ∈ group_ops lg_info -> v ∈ get_output_values ir op ->
     AllowDataSplit ir op 2 (lg_type lg_info) = true ->
     hsecs max_shape_secs <= getH ir v (lg_type lg_info)).
Proof.
  unfold get_group_max_secs. intros Hrun Hheights.
  destruct (seed_max_nsecs ir lg_info) as [seed| |]; cbn [obind] in Hrun;
    try discriminate.
  destruct (max_secs_ops ir arch (lg_type lg_info) (group_ops lg_info) _)
    as [st| |] eqn:Eloop; cbn [obind] in Hrun; try discriminate.
  injection Hrun as <-. cbn [hsecs].
  apply max_secs_ops_height in Eloop as (Hst & Hforbid & Hallow);
    [|exact Hheights|cbn [max_hsecs]; unfold maxIntN64; lia].
  split; [lia|]. split; assumption.
Qed.

Lemma get_group_max_secs_height_witness :
  match get_group_max_secs Examples.pair_ir Examples.small_lmem
          Examples.pair_lg with
  | Ret max_shape_secs =>
      1 <= hsecs max_shape_secs /\
      (forall op, op ∈ group_ops Examples.pair_lg ->
         get_output_values Examples.pair_ir op <> [] ->
         AllowDataSplit Examples.pair_ir op 2 (lg_type Examples.pair_lg)
         = false ->
         hsecs max_shape_secs = 1) /\
      (forall op v, op ∈ group_ops Examples.pair_lg ->
         v ∈ get_output_values Examples.pair_ir op ->
         AllowDataSplit Examples.pair_ir op 2 (lg_type Examples.pair_lg)
         = true ->
         hsecs max_shape_secs
         <= getH Examples.pair_ir v (lg_type Examples.pair_lg))
  | _ => False
  end.
Proof.
  destruct (get_group_max_secs _ _ _) as [s| |] eqn:Erun.
  - apply (get_group_max_secs_height Examples.pair_ir Examples.small_lmem
             Examples.pair_lg s Erun).
    intros op v _ _. cbn. lia.
  - vm_compute in Erun. discriminate Erun.
  - vm_compute in Erun. discriminate Erun.
Defined.
